(** * vitakube consumer: a shallow embedding of the Go sources and the
    properties of its identity store, resource syncer, ring window,
    ingestion endpoint, metrics store, persist worker and dashboard
    handlers.

    Go packages become modules of the same name ([buffer], [store],
    [syncer], [ingest], [api], [main]); the DuckDB file of package store
    is the module [duckdb] and the list handlers of package api the
    module [api_list]; the parts of the Go standard library the
    code calls ([strings], [regexp], [time]) are modelled as far as the
    code uses them. Integers of type [int64] and [int] are in [Z];
    strings are [string] (byte strings); Go maps are [gmap]s; SQL tables
    are lists of rows in rowid order with their AUTOINCREMENT counter. *)

From Stdlib Require Import ZArith NArith List String Ascii Bool Lia Sorted.
From Stdlib Require Import Floats.SpecFloat.
From stdpp Require Import base option list gmap strings.

Local Open Scope string_scope.
Local Open Scope Z_scope.

(** [float64]: sample values are only carried from the request to the
    ring and to the response, never computed with. *)
Definition float64 : Type := spec_float.
Definition float64_zero : float64 := S754_zero false.

Definition max_int64 : Z := 9223372036854775807.

(** Two's-complement wrap-around of a 64-bit signed integer. *)
Definition wrap64 (z : Z) : Z := (z + 2 ^ 63) mod 2 ^ 64 - 2 ^ 63.

(** ** Package [time] (the part used by the consumer) *)
Module gotime.

(** A [time.Time] without monotonic reading is compared by its wall
    clock: seconds since year 1 and nanoseconds within the second. The
    code compares ring samples (built by [time.Unix], no monotonic
    reading) with values derived from [time.Now], so every comparison
    takes the wall-clock branch of [After] and [Before]. *)
Record Time : Type := mkTime { sec : Z; nsec : Z }.

Definition unixToInternal : Z := 62135596800.

(** [time.Unix(sec, 0)]: the addition is on [int64]. *)
Definition Unix (s : Z) : Time :=
  {| sec := wrap64 (s + unixToInternal); nsec := 0 |}.

(** [t.Unix()] *)
Definition ToUnix (t : Time) : Z := wrap64 (sec t - unixToInternal).

Definition Second : Z := 1000000000.

(** [t.Add(d)], [d] in nanoseconds; Go's [/] and [%] truncate. The
    seconds of a clock reading are far from the [int64] limits, where
    [addSec] is plain addition. *)
Definition Add (t : Time) (d : Z) : Time :=
  let dsec := Z.quot d Second in
  let ns := nsec t + Z.rem d Second in
  if Second <=? ns then {| sec := sec t + (dsec + 1); nsec := ns - Second |}
  else if ns <? 0 then {| sec := sec t + (dsec - 1); nsec := ns + Second |}
  else {| sec := sec t + dsec; nsec := ns |}.

Definition After (t u : Time) : bool :=
  (sec u <? sec t) || ((sec t =? sec u) && (nsec u <? nsec t)).

Definition Before (t u : Time) : bool :=
  (sec t <? sec u) || ((sec t =? sec u) && (nsec t <? nsec u)).

End gotime.

(** ** Package [buffer]: the ring window *)
Module buffer.

Record Metric : Type := mkMetric {
  Time : gotime.Time;
  ResourceID : Z;
  Type_ : string;
  Value : float64
}.

(** The mutex serialises [Add], [Flush] and [ReadAll]; each is one
    atomic step on the guarded fields. *)
Record RingBuffer : Type := mkRing {
  metrics : list Metric;
  maxSize : Z
}.

Definition len {A} (l : list A) : Z := Z.of_nat (length l).

(** [make([]Metric, 0, maxSize)] panics on a negative capacity. *)
Definition NewRingBuffer (maxSize : Z) : option RingBuffer :=
  if maxSize <? 0 then None
  else Some {| metrics := []; maxSize := maxSize |}.

Definition Add (m : Metric) (rb : RingBuffer) : RingBuffer :=
  if maxSize rb <=? len (metrics rb) then rb
  else {| metrics := metrics rb ++ [m]; maxSize := maxSize rb |}.

(** Returns the old slice and installs a fresh empty one. *)
Definition Flush (rb : RingBuffer) : list Metric * RingBuffer :=
  let old := metrics rb in
  (old, {| metrics := []; maxSize := maxSize rb |}).

(** Returns a copy: the result shares nothing with the buffer. *)
Definition ReadAll (rb : RingBuffer) : list Metric := metrics rb.

(** A run of [Add] calls, in order. *)
Definition AddAll (ms : list Metric) (rb : RingBuffer) : RingBuffer :=
  fold_left (fun b m => Add m b) ms rb.

End buffer.

(** ** Package [strings] (the part used by the consumer) *)
Module gostrings.

(** [strings.HasPrefix(s, p)]; on a match, what follows the prefix. *)
Fixpoint CutPrefix (s p : string) {struct p} : option string :=
  match p, s with
  | EmptyString, _ => Some s
  | String a p', String b s' =>
      if Ascii.eqb a b then CutPrefix s' p' else None
  | String _ _, EmptyString => None
  end.

Definition HasPrefix (s p : string) : bool :=
  match CutPrefix s p with Some _ => true | None => false end.

(** [strings.Contains(s, substr)] *)
Fixpoint Contains (s substr : string) : bool :=
  HasPrefix s substr ||
  match s with
  | EmptyString => false
  | String _ s' => Contains s' substr
  end.

(** [strings.ReplaceAll(s, old, new)] for a one-byte [old], which is
    how the code calls it (old = "_"). *)
Fixpoint ReplaceAll (s : string) (old : ascii) (new : string) : string :=
  match s with
  | EmptyString => EmptyString
  | String c s' =>
      if Ascii.eqb c old then new ++ ReplaceAll s' old new
      else String c (ReplaceAll s' old new)
  end.

End gostrings.

(** ** Package [regexp]: the syntax the two patterns of the code use,
    with Go's leftmost-first (backtracking-order) matching. *)
Module goregexp.

Inductive re : Type :=
| Lit (s : string)                 (* a literal *)
| Class (p : ascii -> bool)        (* one byte of a class *)
| Repeat (n : nat) (r : re)        (* r{n} *)
| Plus (p : ascii -> bool)         (* [class]+, greedy *)
| Opt (r : re)                     (* (?:r)?, greedy *)
| Cat (r1 r2 : re)
| Group (r : re)                   (* the capture group *)
| Bot                              (* ^ *)
| Eot.                             (* $ *)

(** Greedy run of class bytes: longest first, then shorter. *)
Fixpoint star {A} (p : ascii -> bool) (pos : nat) (s : string)
    (k : nat -> string -> option A) : option A :=
  match s with
  | String c s' =>
      if p c then
        match star p (S pos) s' k with
        | Some a => Some a
        | None => k pos s
        end
      else k pos s
  | EmptyString => k pos s
  end.

(** [m r pos s cap k]: match [r] at offset [pos], where [s] is the
    text from [pos] on and [cap] the capture so far; [k] continues
    with the offset, the remaining text and the capture. *)
Fixpoint m {A} (r : re) (pos : nat) (s : string) (cap : option string)
    (k : nat -> string -> option string -> option A) : option A :=
  match r with
  | Lit l =>
      match gostrings.CutPrefix s l with
      | Some s' => k (pos + String.length l)%nat s' cap
      | None => None
      end
  | Class p =>
      match s with
      | String c s' => if p c then k (S pos) s' cap else None
      | EmptyString => None
      end
  | Repeat n r1 =>
      (fix rep (n : nat) (pos : nat) (s : string) (cap : option string)
         : option A :=
         match n with
         | O => k pos s cap
         | S n' => m r1 pos s cap (fun pos' s' cap' => rep n' pos' s' cap')
         end) n pos s cap
  | Plus p =>
      match s with
      | String c s' =>
          if p c then star p (S pos) s' (fun pos' s'' => k pos' s'' cap)
          else None
      | EmptyString => None
      end
  | Opt r1 =>
      match m r1 pos s cap k with
      | Some a => Some a
      | None => k pos s cap
      end
  | Cat r1 r2 =>
      m r1 pos s cap (fun pos' s' cap' => m r2 pos' s' cap' k)
  | Group r1 =>
      m r1 pos s cap
        (fun pos' s' _ => k pos' s' (Some (substring 0 (pos' - pos) s)))
  | Bot => if Nat.eqb pos 0 then k pos s cap else None
  | Eot =>
      match s with
      | EmptyString => k pos s cap
      | String _ _ => None
      end
  end.

(** The leftmost offset at which [r] matches: start, end, capture. *)
Fixpoint find_from (r : re) (pos : nat) (s : string)
    : option (nat * nat * option string) :=
  match m r pos s None (fun pos' _ cap => Some (pos', cap)) with
  | Some (e, cap) => Some (pos, e, cap)
  | None =>
      match s with
      | EmptyString => None
      | String _ s' => find_from r (S pos) s'
      end
  end.

(** [re.FindStringSubmatch(s)] for a pattern with one group: [nil]
    when there is no match, else the match and the group's text. *)
Definition FindStringSubmatch (r : re) (s : string) : list string :=
  match find_from r 0 s with
  | None => []
  | Some (b, e, cap) =>
      [substring b (e - b) s;
       match cap with Some c => c | None => EmptyString end]
  end.

Definition in_range (lo hi c : ascii) : bool :=
  (nat_of_ascii lo <=? nat_of_ascii c)%nat &&
  (nat_of_ascii c <=? nat_of_ascii hi)%nat.

End goregexp.

(** ** Package [store]: the identity store (SQLite) *)
Module store.

(** What the environment decides for one SQL statement: whether it
    fails for a reason outside the data (I/O, a locked database), the
    value of [CURRENT_TIMESTAMP], and whether the connection of the pool
    it runs on enforces foreign keys.  [NewSQLiteStore] executes
    [PRAGMA foreign_keys = ON] once, on one connection of the pooled
    [sql.DB]; the pragma is per connection, and a statement that runs on
    another connection is not checked. *)
Record Env : Type := mkEnv {
  fault : bool;
  current_timestamp : Z;
  foreign_keys : bool
}.

Record NamespaceRow : Type := mkNamespaceRow {
  ns_id : Z; ns_name : string
}.

Record NodeRow : Type := mkNodeRow {
  n_id : Z; n_uid : string; n_name : string; n_updated_at : Z
}.

(** The tables [deployments], [statefulsets], [daemonsets] and [pvcs]
    have the same columns. *)
Record OwnedRow : Type := mkOwnedRow {
  o_id : Z; o_uid : string; o_name : string; o_namespace_id : Z;
  o_updated_at : Z
}.

Record PodRow : Type := mkPodRow {
  p_id : Z; p_uid : string; p_name : string;
  p_namespace_id : Z; p_node_id : Z;
  p_deployment_id : option Z;
  p_statefulset_id : option Z;
  p_daemonset_id : option Z;
  p_updated_at : Z
}.

(** A table with [id INTEGER PRIMARY KEY AUTOINCREMENT]: its rows in
    rowid order and its AUTOINCREMENT counter, the largest rowid
    allocated so far (SQLite keeps it at least as large as every rowid
    of the table). Rows are never deleted. *)
Record Table (R : Type) : Type := mkTable { rows : list R; seq : Z }.
Arguments mkTable {R} _ _.
Arguments rows {R} _.
Arguments seq {R} _.

Definition empty_table {R} : Table R := mkTable [] 0.

Record DB : Type := mkDB {
  namespaces : Table NamespaceRow;
  nodes : Table NodeRow;
  deployments : Table OwnedRow;
  statefulsets : Table OwnedRow;
  daemonsets : Table OwnedRow;
  pods : Table PodRow;
  pvcs : Table OwnedRow
}.

(** The schema of [initSchema] on a new file. *)
Definition empty_db : DB :=
  mkDB empty_table empty_table empty_table empty_table empty_table
       empty_table empty_table.

(** [INSERT ... ON CONFLICT(key) DO UPDATE SET ... RETURNING id] on one
    table.  SQLite allocates the rowid of the row to insert before it
    looks for a conflict: the statement fails (SQLITE_FULL) once the
    largest id has been used, and the AUTOINCREMENT counter advances
    whether or not the row is inserted.  The row in conflict is updated
    in place and its id returned (the allocated id is not used again);
    without a conflict the row is appended under the allocated id. *)
Definition upsert {R} (conflict : R -> bool) (update : R -> R)
    (new : Z -> R) (id_of : R -> Z) (t : Table R) : option (Z * Table R) :=
  if max_int64 <=? seq t then None
  else
    let id := seq t + 1 in
    match find conflict (rows t) with
    | Some r =>
        Some (id_of r,
              mkTable (map (fun r' => if conflict r' then update r' else r')
                           (rows t))
                      id)
    | None => Some (id, mkTable (rows t ++ [new id]) id)
    end.

(** A foreign key [REFERENCES t(id)]: the parent row exists. *)
Definition references {R} (id_of : R -> Z) (t : Table R) (id : Z) : bool :=
  existsb (fun r => id_of r =? id) (rows t).

Definition references_opt {R} (id_of : R -> Z) (t : Table R)
    (id : option Z) : bool :=
  match id with
  | None => true
  | Some i => references id_of t i
  end.

Definition UpsertNamespace (e : Env) (name : string) (db : DB)
    : option (Z * DB) :=
  if fault e then None else
  match upsert (fun r => String.eqb (ns_name r) name)
               (fun r => r)
               (fun id => mkNamespaceRow id name)
               ns_id (namespaces db) with
  | None => None
  | Some (id, t) =>
      Some (id, mkDB t (nodes db) (deployments db) (statefulsets db)
                     (daemonsets db) (pods db) (pvcs db))
  end.

Definition UpsertNode (e : Env) (uid name : string) (db : DB)
    : option (Z * DB) :=
  if fault e then None else
  match upsert (fun r => String.eqb (n_uid r) uid)
               (fun r => mkNodeRow (n_id r) (n_uid r) name
                                   (current_timestamp e))
               (fun id => mkNodeRow id uid name (current_timestamp e))
               n_id (nodes db) with
  | None => None
  | Some (id, t) =>
      Some (id, mkDB (namespaces db) t (deployments db) (statefulsets db)
                     (daemonsets db) (pods db) (pvcs db))
  end.

(** The statement shared by the four tables of [OwnedRow]s. *)
Definition upsert_owned (e : Env) (uid name : string) (nsID : Z)
    (db : DB) (t : Table OwnedRow) : option (Z * Table OwnedRow) :=
  if fault e then None
  else if foreign_keys e && negb (references ns_id (namespaces db) nsID)
  then None
  else upsert (fun r => String.eqb (o_uid r) uid)
              (fun r => mkOwnedRow (o_id r) (o_uid r) name nsID
                                   (current_timestamp e))
              (fun id => mkOwnedRow id uid name nsID (current_timestamp e))
              o_id t.

Definition UpsertDeployment (e : Env) (uid name : string) (nsID : Z)
    (db : DB) : option (Z * DB) :=
  match upsert_owned e uid name nsID db (deployments db) with
  | None => None
  | Some (id, t) =>
      Some (id, mkDB (namespaces db) (nodes db) t (statefulsets db)
                     (daemonsets db) (pods db) (pvcs db))
  end.

Definition UpsertStatefulSet (e : Env) (uid name : string) (nsID : Z)
    (db : DB) : option (Z * DB) :=
  match upsert_owned e uid name nsID db (statefulsets db) with
  | None => None
  | Some (id, t) =>
      Some (id, mkDB (namespaces db) (nodes db) (deployments db) t
                     (daemonsets db) (pods db) (pvcs db))
  end.

Definition UpsertDaemonSet (e : Env) (uid name : string) (nsID : Z)
    (db : DB) : option (Z * DB) :=
  match upsert_owned e uid name nsID db (daemonsets db) with
  | None => None
  | Some (id, t) =>
      Some (id, mkDB (namespaces db) (nodes db) (deployments db)
                     (statefulsets db) t (pods db) (pvcs db))
  end.

Definition UpsertPod (e : Env) (uid name : string) (nsID nodeID : Z)
    (depID stsID dsID : option Z) (db : DB) : option (Z * DB) :=
  if fault e then None
  else if foreign_keys e
          && negb (references ns_id (namespaces db) nsID
                   && references n_id (nodes db) nodeID
                   && references_opt o_id (deployments db) depID
                   && references_opt o_id (statefulsets db) stsID
                   && references_opt o_id (daemonsets db) dsID) then None
  else
  match upsert (fun r => String.eqb (p_uid r) uid)
               (fun r => mkPodRow (p_id r) (p_uid r) name nsID nodeID
                                  depID stsID dsID (current_timestamp e))
               (fun id => mkPodRow id uid name nsID nodeID
                                   depID stsID dsID (current_timestamp e))
               p_id (pods db) with
  | None => None
  | Some (id, t) =>
      Some (id, mkDB (namespaces db) (nodes db) (deployments db)
                     (statefulsets db) (daemonsets db) t (pvcs db))
  end.

Definition UpsertPVC (e : Env) (uid name : string) (nsID : Z)
    (db : DB) : option (Z * DB) :=
  match upsert_owned e uid name nsID db (pvcs db) with
  | None => None
  | Some (id, t) =>
      Some (id, mkDB (namespaces db) (nodes db) (deployments db)
                     (statefulsets db) (daemonsets db) (pods db) t)
  end.

(** [SELECT id FROM <table> WHERE uid = ?]: the first row, or
    [sql.ErrNoRows]; [namespaces] has no [uid] column. *)
Definition GetResourceID (e : Env) (table uid : string) (db : DB)
    : option Z :=
  let owned t := option_map o_id
                   (find (fun r => String.eqb (o_uid r) uid) (rows t)) in
  if fault e then None
  else if String.eqb table "nodes" then
    option_map n_id (find (fun r => String.eqb (n_uid r) uid)
                          (rows (nodes db)))
  else if String.eqb table "deployments" then owned (deployments db)
  else if String.eqb table "statefulsets" then owned (statefulsets db)
  else if String.eqb table "daemonsets" then owned (daemonsets db)
  else if String.eqb table "pods" then
    option_map p_id (find (fun r => String.eqb (p_uid r) uid)
                          (rows (pods db)))
  else if String.eqb table "pvcs" then owned (pvcs db)
  else None.

(** The seven upsert statements, as calls with their arguments. *)
Inductive Upsert : Type :=
| Namespace (name : string)
| Node (uid name : string)
| Deployment (uid name : string) (nsID : Z)
| StatefulSet (uid name : string) (nsID : Z)
| DaemonSet (uid name : string) (nsID : Z)
| Pod (uid name : string) (nsID nodeID : Z) (depID stsID dsID : option Z)
| PVC (uid name : string) (nsID : Z).

Definition run (c : Upsert) (e : Env) (db : DB) : option (Z * DB) :=
  match c with
  | Namespace name => UpsertNamespace e name db
  | Node uid name => UpsertNode e uid name db
  | Deployment uid name nsID => UpsertDeployment e uid name nsID db
  | StatefulSet uid name nsID => UpsertStatefulSet e uid name nsID db
  | DaemonSet uid name nsID => UpsertDaemonSet e uid name nsID db
  | Pod uid name nsID nodeID depID stsID dsID =>
      UpsertPod e uid name nsID nodeID depID stsID dsID db
  | PVC uid name nsID => UpsertPVC e uid name nsID db
  end.


End store.

(** ** Package [syncer]: the resource syncer *)
Module syncer.

(** The orchestrator objects, with the fields the syncer reads. *)
Record OwnerReference : Type := mkOwner { Kind : string; owner_UID : string }.

Record Node : Type := mkNode { node_UID : string; node_Name : string }.

Record Pod : Type := mkPod {
  pod_UID : string; pod_Name : string; pod_Namespace : string;
  pod_OwnerReferences : list OwnerReference;
  pod_NodeName : string                        (* Spec.NodeName *)
}.

(** Deployment, StatefulSet, DaemonSet and PersistentVolumeClaim. *)
Record Namespaced : Type := mkNamespaced {
  obj_UID : string; obj_Name : string; obj_Namespace : string
}.

Record ReplicaSet : Type := mkReplicaSet {
  rs_UID : string; rs_OwnerReferences : list OwnerReference
}.

Inductive Object : Type :=
| ONode (n : Node)
| OPod (p : Pod)
| OPersistentVolumeClaim (c : Namespaced)
| ODeployment (d : Namespaced)
| OStatefulSet (s : Namespaced)
| ODaemonSet (d : Namespaced)
| OReplicaSet (r : ReplicaSet)
| OOther.

Record ResourceSyncer : Type := mkSyncer {
  sqlite : store.DB;
  pods : gmap string Z;
  pvcs : gmap string Z;
  namespaces : gmap string Z;
  nodes : gmap string Z;
  replicaSets : gmap string Z
}.

(** [NewResourceSyncer]: empty caches over the given store. *)
Definition NewResourceSyncer (db : store.DB) : ResourceSyncer :=
  mkSyncer db ∅ ∅ ∅ ∅ ∅.

(** The syncer together with the outcomes the environment has in
    stock for the SQL statements to come, one per statement. *)
Record World : Type := mkWorld {
  self : ResourceSyncer;
  pending : list store.Env
}.

Definition M (A : Type) : Type := World -> A * World.

#[global] Instance M_ret : MRet M := fun A a w => (a, w).
#[global] Instance M_bind : MBind M :=
  fun A B f c w => let '(a, w') := c w in f a w'.

Definition gets {A} (f : ResourceSyncer -> A) : M A :=
  fun w => (f (self w), w).

Definition modify (f : ResourceSyncer -> ResourceSyncer) : M unit :=
  fun w => (tt, mkWorld (f (self w)) (pending w)).

(** A statement that meets no failure from outside and runs on the
    connection that has the pragma. *)
Definition quiet : store.Env := store.mkEnv false 0 true.

(** The outcome of the next statement; a quiet one when none is listed. *)
Definition next_env : M store.Env :=
  fun w => match pending w with
           | [] => (quiet, w)
           | e :: es => (e, mkWorld (self w) es)
           end.

Definition set_sqlite (db : store.DB) (s : ResourceSyncer) : ResourceSyncer :=
  mkSyncer db (pods s) (pvcs s) (namespaces s) (nodes s) (replicaSets s).

(** A writing statement: on success the store is replaced. *)
Definition exec {A} (stmt : store.Env -> store.DB -> option (A * store.DB))
    : M (option A) :=
  e ← next_env;
  db ← gets sqlite;
  match stmt e db with
  | None => mret None
  | Some (a, db') => modify (set_sqlite db') ;; mret (Some a)
  end.

(** A reading statement. *)
Definition query {A} (q : store.Env -> store.DB -> option A) : M (option A) :=
  e ← next_env;
  db ← gets sqlite;
  mret (q e db).

(** A call of [getNamespaceID] that no other handler overlaps: the
    read of the cache, then on a miss the upsert and the write of the
    cache. *)
Definition getNamespaceID (name : string) : M Z :=
  c ← gets (fun s => namespaces s !! name);
  match c with
  | Some id => mret id
  | None =>
      r ← exec (fun e => store.UpsertNamespace e name);
      match r with
      | None => mret 0
      | Some id =>
          modify (fun s => mkSyncer (sqlite s) (pods s) (pvcs s)
                             (<[name := id]> (namespaces s))
                             (nodes s) (replicaSets s)) ;;
          mret id
      end
  end.

(** The first critical section of [getNodeID]: the read of the cache
    under the read lock. *)
Definition nodes_read (name : string) : M (option Z) :=
  gets (fun s => nodes s !! name).

(** What [getNodeID] does after its read has returned [c].  No lock is
    held between the read and the upsert; the cache is written under the
    write lock, after the upsert. *)
Definition nodes_fill (name uid : string) (c : option Z) : M Z :=
  match c with
  | Some id => mret id
  | None =>
      let uid := if String.eqb uid "" then "stub-" ++ name else uid in
      r ← exec (fun e => store.UpsertNode e uid name);
      match r with
      | None => mret 0
      | Some id =>
          modify (fun s => mkSyncer (sqlite s) (pods s) (pvcs s)
                             (namespaces s)
                             (<[name := id]> (nodes s)) (replicaSets s)) ;;
          mret id
      end
  end.

(** A call of [getNodeID] that no other handler overlaps. *)
Definition getNodeID (name uid : string) : M Z :=
  c ← nodes_read name;
  nodes_fill name uid c.

(** Two calls for one name, from handlers of different informers (the
    handlers of one informer run one after another, those of different
    informers concurrently), in the schedule where both reads come
    before the first upsert. *)
Definition getNodeID_overlapped (name uid1 uid2 : string) : M (Z * Z) :=
  c1 ← nodes_read name;
  c2 ← nodes_read name;
  id1 ← nodes_fill name uid1 c1;
  id2 ← nodes_fill name uid2 c2;
  mret (id1, id2).

Definition syncNode (n : Node) : M unit :=
  getNodeID (node_Name n) (node_UID n) ;; mret tt.

Definition syncDeployment (d : Namespaced) : M unit :=
  nsID ← getNamespaceID (obj_Namespace d);
  exec (fun e => store.UpsertDeployment e (obj_UID d) (obj_Name d) nsID) ;;
  mret tt.

Definition syncStatefulSet (sts : Namespaced) : M unit :=
  nsID ← getNamespaceID (obj_Namespace sts);
  exec (fun e => store.UpsertStatefulSet e (obj_UID sts) (obj_Name sts) nsID) ;;
  mret tt.

Definition syncDaemonSet (ds : Namespaced) : M unit :=
  nsID ← getNamespaceID (obj_Namespace ds);
  exec (fun e => store.UpsertDaemonSet e (obj_UID ds) (obj_Name ds) nsID) ;;
  mret tt.

(** The loop of [syncReplicaSet] over the owner references: the first
    Deployment owner found in the store is cached, and the loop ends. *)
Fixpoint syncReplicaSet_owners (rsUID : string)
    (owners : list OwnerReference) : M unit :=
  match owners with
  | [] => mret tt
  | owner :: rest =>
      if String.eqb (Kind owner) "Deployment" then
        r ← query (fun e => store.GetResourceID e "deployments"
                              (owner_UID owner));
        match r with
        | Some depID =>
            modify (fun s => mkSyncer (sqlite s) (pods s) (pvcs s)
                               (namespaces s) (nodes s)
                               (<[rsUID := depID]> (replicaSets s)))
        | None => syncReplicaSet_owners rsUID rest
        end
      else syncReplicaSet_owners rsUID rest
  end.

Definition syncReplicaSet (rs : ReplicaSet) : M unit :=
  syncReplicaSet_owners (rs_UID rs) (rs_OwnerReferences rs).

(** The controller links [depID, stsID, dsID] of a pod ([nil] = [None]). *)
Definition Links : Type := option Z * option Z * option Z.

(** The loop of [syncPod] over the owner references. *)
Fixpoint syncPod_owners (owners : list OwnerReference) (l : Links)
    : M Links :=
  match owners with
  | [] => mret l
  | owner :: rest =>
      let '(depID, stsID, dsID) := l in
      if String.eqb (Kind owner) "StatefulSet" then
        r ← query (fun e => store.GetResourceID e "statefulsets"
                              (owner_UID owner));
        syncPod_owners rest
          (depID, match r with Some id => Some id | None => stsID end, dsID)
      else if String.eqb (Kind owner) "DaemonSet" then
        r ← query (fun e => store.GetResourceID e "daemonsets"
                              (owner_UID owner));
        syncPod_owners rest
          (depID, stsID, match r with Some id => Some id | None => dsID end)
      else if String.eqb (Kind owner) "ReplicaSet" then
        c ← gets (fun s => replicaSets s !! owner_UID owner);
        syncPod_owners rest
          (match c with Some id => Some id | None => depID end, stsID, dsID)
      else syncPod_owners rest l
  end.

(** The second half of [syncPod], once namespace and node are
    resolved: the controller links, the upsert and the cache. *)
Definition syncPod_upsert (pod : Pod) (nsID nodeID : Z) : M unit :=
  let uid := pod_UID pod in
  '(depID, stsID, dsID) ← syncPod_owners (pod_OwnerReferences pod)
                            (None, None, None);
  r ← exec (fun e => store.UpsertPod e uid (pod_Name pod) nsID nodeID
                       depID stsID dsID);
  match r with
  | None => mret tt
  | Some id =>
      modify (fun s => mkSyncer (sqlite s) (<[uid := id]> (pods s))
                         (pvcs s) (namespaces s) (nodes s)
                         (replicaSets s))
  end.

Definition syncPod (pod : Pod) : M unit :=
  nsID ← getNamespaceID (pod_Namespace pod);
  if nsID =? 0 then mret tt
  else if negb (String.eqb (pod_NodeName pod) "") then
    nodeID ← getNodeID (pod_NodeName pod) "";
    if nodeID =? 0 then mret tt
    else syncPod_upsert pod nsID nodeID
  else mret tt.

Definition syncPVC (pvc : Namespaced) : M unit :=
  let uid := obj_UID pvc in
  nsID ← getNamespaceID (obj_Namespace pvc);
  r ← exec (fun e => store.UpsertPVC e uid (obj_Name pvc) nsID);
  match r with
  | None => mret tt
  | Some id =>
      modify (fun s => mkSyncer (sqlite s) (pods s) (<[uid := id]> (pvcs s))
                         (namespaces s) (nodes s) (replicaSets s))
  end.

Definition syncObject (obj : Object) : M unit :=
  match obj with
  | ONode o => syncNode o
  | OPod o => syncPod o
  | OPersistentVolumeClaim o => syncPVC o
  | ODeployment o => syncDeployment o
  | OStatefulSet o => syncStatefulSet o
  | ODaemonSet o => syncDaemonSet o
  | OReplicaSet o => syncReplicaSet o
  | OOther => mret tt
  end.

(** Add and update events handled one after another: no handler
    starts before the one before it has returned. *)
Fixpoint syncAll (objs : list Object) : M unit :=
  match objs with
  | [] => mret tt
  | o :: rest => syncObject o ;; syncAll rest
  end.

(** [GetResourceID(uid, rType)]: the lookup the ingestion uses. *)
Definition GetResourceID (s : ResourceSyncer) (uid rType : string)
    : Z * bool :=
  if String.eqb rType "pvc" then
    match pvcs s !! uid with Some id => (id, true) | None => (0, false) end
  else
    match pods s !! uid with Some id => (id, true) | None => (0, false) end.

End syncer.

(** ** Package [ingest]: the ingestion endpoint *)
Module ingest.

Class IDResolver (T : Type) : Type :=
  GetResourceID : T -> string -> string -> Z * bool.

#[global] Instance syncer_IDResolver : IDResolver syncer.ResourceSyncer :=
  syncer.GetResourceID.

Record RawMetric : Type := mkRaw {
  Type_ : string;
  PodID : string;
  PodUID : string;
  Volume : string;
  ContainerID : string;
  Key : string;
  Value : float64;
  Timestamp : Z
}.

Record IngestRequest : Type := mkIngestRequest {
  NodeName : string;
  Metrics : list RawMetric
}.

Record IngestionServer (T : Type) : Type := mkServer {
  buffer : buffer.RingBuffer;
  resolver : T
}.
Arguments mkServer {T} _ _.
Arguments buffer {T} _.
Arguments resolver {T} _.

Import goregexp.

Definition hexdigit_ (c : ascii) : bool :=
  in_range "0" "9" c || in_range "a" "f" c || in_range "A" "F" c
  || Ascii.eqb c "_".

Definition lowerhex (c : ascii) : bool :=
  in_range "0" "9" c || in_range "a" "f" c.

(** [pod([0-9a-fA-F_]+)(?:\.slice)?] *)
Definition podSliceRegex : re :=
  Cat (Lit "pod") (Cat (Group (Plus hexdigit_)) (Opt (Lit ".slice"))).

(** [[0-9a-f]{8}-[0-9a-f]{4}-[0-9a-f]{4}-[0-9a-f]{4}-[0-9a-f]{12}] *)
Definition uuidRegex : re :=
  Cat (Repeat 8 (Class lowerhex))
 (Cat (Lit "-") (Cat (Repeat 4 (Class lowerhex))
 (Cat (Lit "-") (Cat (Repeat 4 (Class lowerhex))
 (Cat (Lit "-") (Cat (Repeat 4 (Class lowerhex))
 (Cat (Lit "-") (Repeat 12 (Class lowerhex))))))))).

(** [^pvc-(<uuid>)$] *)
Definition pvcVolumeRegex : re :=
  Cat Bot (Cat (Lit "pvc-") (Cat (Group uuidRegex) Eot)).

(** The condition of the first [if] of the loop body; in Go [&&] binds
    tighter than [||]. *)
Definition isVolumeMetric (raw : RawMetric) : bool :=
  String.eqb (Key raw) "pvc_usage"
  || (gostrings.Contains (Key raw) "_mb"
      && negb (String.eqb (Volume raw) "")).

(** Step 1 of the loop body: the [uid] and [rType] of a metric. *)
Definition resolveUID (raw : RawMetric) : string * string :=
  if isVolumeMetric raw then
    let matches := FindStringSubmatch pvcVolumeRegex (Volume raw) in
    if 1 <? buffer.len matches then (nth 1 matches "", "pvc")
    else if negb (String.eqb (PodUID raw) "") then (PodUID raw, "pod")
    else ("", "pod")
  else
    if negb (String.eqb (PodID raw) "") then
      let matches := FindStringSubmatch podSliceRegex (PodID raw) in
      if 1 <? buffer.len matches then
        (gostrings.ReplaceAll (nth 1 matches "") "_" "-", "pod")
      else ("", "pod")
    else ("", "pod").

(** Step 2 of the loop body: the database id, 0 when unresolved. *)
Definition resolveID {T} `{IDResolver T} (res : T) (raw : RawMetric) : Z :=
  let '(uid, rType) := resolveUID raw in
  if negb (String.eqb uid "") then
    let '(id, ok) := GetResourceID res uid rType in
    if ok then id else 0
  else 0.

(** The sample the loop body hands to [buffer.Add]. *)
Definition toMetric {T} `{IDResolver T} (res : T) (raw : RawMetric)
    : buffer.Metric :=
  buffer.mkMetric (gotime.Unix (Timestamp raw)) (resolveID res raw)
                  (Key raw) (Value raw).

(** An HTTP request of the endpoint: its method and the decoded body
    ([None] when the body is not valid JSON for [IngestRequest]). *)
Record Request : Type := mkRequest {
  Method : string;
  Body : option IngestRequest
}.

Definition StatusAccepted : Z := 202.
Definition StatusBadRequest : Z := 400.
Definition StatusMethodNotAllowed : Z := 405.

(** Returns the status code and the server with its ring after the
    request. *)
Definition HandleIngest {T} `{IDResolver T} (s : IngestionServer T)
    (r : Request) : Z * IngestionServer T :=
  if negb (String.eqb (Method r) "POST") then (StatusMethodNotAllowed, s)
  else match Body r with
  | None => (StatusBadRequest, s)
  | Some req =>
      (StatusAccepted,
       mkServer
         (fold_left (fun b raw => buffer.Add (toMetric (resolver s) raw) b)
                    (Metrics req) (buffer s))
         (resolver s))
  end.

End ingest.

(** ** Package [api]: the live-metrics handler *)
Module api.

Record ContainerInfo : Type := mkContainerInfo {
  c_ID : string; CPUms : float64; MemMB : float64; MemLimitMB : float64
}.

Record PVCInfo : Type := mkPVCInfo {
  v_ID : Z; v_Name : string; VolumeName : string;
  TotalMB : float64; UsedMB : float64; FreeMB : float64
}.

Record LivePod : Type := mkLivePod {
  ID : Z; Name : string; UID : string; Namespace : string; Node : string;
  Deployment : option string;
  Containers : list ContainerInfo;
  PVCs : list PVCInfo
}.

Record LiveMetricsResponse : Type := mkLive {
  Timestamp : Z;
  Pods : list LivePod
}.

Record Server : Type := mkServer {
  sqlite : store.DB;
  ring : buffer.RingBuffer
}.

(** A request: its method and [r.URL.Query().Get]. *)
Record Request : Type := mkRequest {
  Method : string;
  QueryGet : string -> string
}.

Definition is_digit (c : ascii) : bool := goregexp.in_range "0" "9" c.

Fixpoint digits (s : string) (acc : Z) : option Z :=
  match s with
  | EmptyString => Some acc
  | String c s' =>
      if is_digit c
      then digits s' (acc * 10 + (Z.of_nat (nat_of_ascii c) - 48))
      else None
  end.

(** [strconv.ParseInt(s, 10, 64)]; [None] for a syntax or range error. *)
Definition ParseInt (s : string) : option Z :=
  match s with
  | EmptyString => None
  | String c s' =>
      let '(neg, body) :=
        if Ascii.eqb c "+" then (false, s')
        else if Ascii.eqb c "-" then (true, s')
        else (false, s) in
      match body with
      | EmptyString => None
      | String _ _ =>
          match digits body 0 with
          | None => None
          | Some un =>
              if neg then (if 2 ^ 63 <? un then None else Some (- un))
              else (if 2 ^ 63 <=? un then None else Some un)
          end
      end
  end.

Definition getQueryInt (r : Request) (param : string) : option Z :=
  let val := QueryGet r param in
  if String.eqb val "" then None else ParseInt val.

(** The conditions the handler adds to the WHERE clause. *)
Inductive Cond : Type :=
| DeploymentIs (id : Z)   (* p.deployment_id = ? *)
| NodeIs (id : Z)         (* p.node_id = ? *)
| PodIs (id : Z).         (* p.id = ? *)

Definition holds (c : Cond) (p : store.PodRow) : bool :=
  match c with
  | DeploymentIs id =>
      match store.p_deployment_id p with
      | Some d => d =? id
      | None => false
      end
  | NodeIs id => store.p_node_id p =? id
  | PodIs id => store.p_id p =? id
  end.

Definition whereClause (r : Request) : list Cond :=
  match getQueryInt r "deployment" with
  | Some i => [DeploymentIs i] | None => [] end ++
  match getQueryInt r "node" with
  | Some i => [NodeIs i] | None => [] end ++
  match getQueryInt r "pod" with
  | Some i => [PodIs i] | None => [] end.

(** A row of the SELECT: p.id, p.name, p.uid, ns.name, n.name, d.name. *)
Definition PodMeta : Type :=
  (Z * string * string * string * string * option string)%type.

Definition meta_name (x : PodMeta) : string :=
  let '(_, name, _, _, _, _) := x in name.

Fixpoint insert_by_name (x : PodMeta) (l : list PodMeta) : list PodMeta :=
  match l with
  | [] => [x]
  | y :: l' =>
      if String.leb (meta_name y) (meta_name x)
      then y :: insert_by_name x l'
      else x :: l
  end.

(** ORDER BY p.name (bytewise); rows of equal name keep their order. *)
Definition order_by_name (l : list PodMeta) : list PodMeta :=
  fold_left (fun acc x => insert_by_name x acc) l [].

(** The pod-metadata query: pods joined with their namespace and node,
    left-joined with their deployment, filtered and ordered by name.
    [None] when the statement fails. *)
Definition queryPods (e : store.Env) (conds : list Cond) (db : store.DB)
    : option (list PodMeta) :=
  if store.fault e then None else
  Some (order_by_name
    (flat_map (fun p =>
       flat_map (fun ns =>
         flat_map (fun n =>
           let ds := List.filter (fun d => match store.p_deployment_id p with
                                      | Some i => store.o_id d =? i
                                      | None => false
                                      end)
                            (store.rows (store.deployments db)) in
           let dnames := match ds with
                         | [] => [None]
                         | _ => map (fun d => Some (store.o_name d)) ds
                         end in
           if forallb (fun c => holds c p) conds then
             map (fun dn => (store.p_id p, store.p_name p, store.p_uid p,
                             store.ns_name ns, store.n_name n, dn)) dnames
           else [])
         (List.filter (fun n => store.n_id n =? store.p_node_id p)
                 (store.rows (store.nodes db))))
       (List.filter (fun ns => store.ns_id ns =? store.p_namespace_id p)
               (store.rows (store.namespaces db))))
     (store.rows (store.pods db)))).

(** The set of resource ids with a sample after the cutoff. *)
Definition activePodIDs (cutoffTime : gotime.Time)
    (allMetrics : list buffer.Metric) : gmap Z bool :=
  fold_left (fun acc m =>
               if gotime.After (buffer.Time m) cutoffTime
                  && (0 <? buffer.ResourceID m)
               then <[buffer.ResourceID m := true]> acc else acc)
            allMetrics ∅.

Definition is_active (active : gmap Z bool) (id : Z) : bool :=
  match active !! id with Some b => b | None => false end.

(** [containerMetrics["default"]], created when absent, then updated. *)
Definition touch_default (f : ContainerInfo -> ContainerInfo)
    (cm : gmap string ContainerInfo) : gmap string ContainerInfo :=
  let c := match cm !! "default" with
           | Some c => c
           | None => mkContainerInfo "default" float64_zero float64_zero
                                     float64_zero
           end in
  <["default" := f c]> cm.

(** One iteration of the aggregation loop for the pod [id]. *)
Definition aggregate_step (id : Z) (cutoffTime : gotime.Time)
    (acc : gmap string ContainerInfo * gmap Z PVCInfo) (m : buffer.Metric)
    : gmap string ContainerInfo * gmap Z PVCInfo :=
  let '(containerMetrics, pvcMetrics) := acc in
  if negb (buffer.ResourceID m =? id)
     || gotime.Before (buffer.Time m) cutoffTime then acc
  else if String.eqb (buffer.Type_ m) "cpu_ms" then
    (touch_default (fun c => mkContainerInfo (c_ID c) (buffer.Value m)
                               (MemMB c) (MemLimitMB c)) containerMetrics,
     pvcMetrics)
  else if String.eqb (buffer.Type_ m) "mem_mb" then
    (touch_default (fun c => mkContainerInfo (c_ID c) (CPUms c)
                               (buffer.Value m) (MemLimitMB c))
                   containerMetrics,
     pvcMetrics)
  else if String.eqb (buffer.Type_ m) "mem_limit_mb" then
    (touch_default (fun c => mkContainerInfo (c_ID c) (CPUms c) (MemMB c)
                               (buffer.Value m)) containerMetrics,
     pvcMetrics)
  else if String.eqb (buffer.Type_ m) "total_mb"
       || String.eqb (buffer.Type_ m) "used_mb"
       || String.eqb (buffer.Type_ m) "free_mb" then acc
  else acc.

(** The body of the loop over the rows, for a row of an active pod. *)
Definition livePod (x : PodMeta) (cutoffTime : gotime.Time)
    (allMetrics : list buffer.Metric) : LivePod :=
  let '(id, name, uid, ns, node, dep) := x in
  let '(containerMetrics, pvcMetrics) :=
    fold_left (aggregate_step id cutoffTime) allMetrics (∅, ∅) in
  mkLivePod id name uid ns node dep
            (map snd (map_to_list containerMetrics))
            (map snd (map_to_list pvcMetrics)).

Inductive Response : Type :=
| MethodNotAllowed                      (* 405 *)
| InternalServerError                   (* 500 *)
| OK (body : LiveMetricsResponse).      (* 200 *)

(** [now] is the clock reading the cutoff is computed from, [later]
    the one the response is stamped with, [e] the outcome of the query. *)
Definition handleLiveMetrics (s : Server) (r : Request)
    (now later : gotime.Time) (e : store.Env) : Response :=
  if negb (String.eqb (Method r) "GET") then MethodNotAllowed else
  let cutoffTime := gotime.Add now (-5 * gotime.Second) in
  let allMetrics := buffer.ReadAll (ring s) in
  let active := activePodIDs cutoffTime allMetrics in
  if buffer.len (map_to_list active) =? 0 then
    OK (mkLive (gotime.ToUnix later) [])
  else
    match queryPods e (whereClause r) (sqlite s) with
    | None => InternalServerError
    | Some rows =>
        OK (mkLive (gotime.ToUnix later)
              (map (fun x => livePod x cutoffTime allMetrics)
                   (List.filter (fun x : PodMeta =>
                              let '(id, _, _, _, _, _) := x in
                              is_active active id) rows)))
    end.

End api.

(** ** Package [store]: the metrics store (DuckDB) *)
Module duckdb.

Record MetricPoint : Type := mkPoint {
  Time : gotime.Time;
  ResourceID : Z;
  MetricType : string;
  Value : float64
}.

(** A row of the table [metrics], as the INSERT binds it. *)
Record Row : Type := mkRow {
  time : gotime.Time;
  resource_id : Z;
  metric_type : string;
  value : float64;
  agg_type : string
}.

(** The store is its one table; rows are kept in insertion order. *)
Definition DuckDBStore : Type := list Row.

(** The outcome of the next call on the connection; a quiet one when
    none is listed. *)
Definition next (es : list store.Env) : store.Env * list store.Env :=
  match es with
  | [] => (store.mkEnv false 0 true, [])
  | e :: es' => (e, es')
  end.

(** [VALUES (?, ?, ?, ?, 'raw')] *)
Definition insert_row (m : MetricPoint) : Row :=
  mkRow (Time m) (ResourceID m) (MetricType m) (Value m) "raw".

(** The loop over the metrics: [tx] holds the rows of the open
    transaction; [None] when an [Exec] fails. *)
Fixpoint exec_each (metrics : list MetricPoint) (es : list store.Env)
    (tx : list Row) : option (list Row * list store.Env) :=
  match metrics with
  | [] => Some (tx, es)
  | m :: rest =>
      let '(e, es') := next es in
      if store.fault e then None
      else exec_each rest es' (tx ++ [insert_row m])
  end.

(** Returns whether an error is returned, and the table afterwards.
    The calls on the connection are [Begin], [Prepare], one [Exec] per
    metric and [Commit]; the deferred [Rollback] drops the rows of a
    transaction that was not committed, a failed [Commit] commits
    nothing. *)
Definition BatchInsert (metrics : list MetricPoint) (es : list store.Env)
    (s : DuckDBStore) : bool * DuckDBStore :=
  if buffer.len metrics =? 0 then (false, s) else
  let '(e, es) := next es in
  if store.fault e then (true, s) else
  let '(e, es) := next es in
  if store.fault e then (true, s) else
  match exec_each metrics es [] with
  | None => (true, s)
  | Some (tx, es) =>
      let '(e, _) := next es in
      if store.fault e then (true, s) else (false, (s ++ tx)%list)
  end.

End duckdb.

(** ** Package [main]: the persist worker *)
Module main.

Definition toPoint (m : buffer.Metric) : duckdb.MetricPoint :=
  duckdb.mkPoint (buffer.Time m) (buffer.ResourceID m) (buffer.Type_ m)
                 (buffer.Value m).

(** One tick of the persist worker on the ring and the metrics store;
    [es] are the outcomes of the calls on the DuckDB connection.  An
    error of the insert is logged and the worker goes on. *)
Definition persist_tick (es : list store.Env)
    (st : buffer.RingBuffer * duckdb.DuckDBStore)
    : buffer.RingBuffer * duckdb.DuckDBStore :=
  let '(ring, duck) := st in
  let '(data, ring') := buffer.Flush ring in
  if 0 <? buffer.len data
  then (ring', snd (duckdb.BatchInsert (map toPoint data) es duck))
  else (ring', duck).

(** The state the goroutines of [main] share: the syncer with its
    identity store, the ring and the metrics store. *)
Record Consumer : Type := mkConsumer {
  sync : syncer.World;
  ring : buffer.RingBuffer;
  duck : duckdb.DuckDBStore
}.

(** What changes that state: an add or update event of a watch, a
    request to [/api/v1/ingest], a tick of the persist worker.  Each is
    taken as one step; the handlers of the dashboard only read. *)
Inductive Event : Type :=
| Watch (obj : syncer.Object)
| Post (r : ingest.Request)
| Tick (es : list store.Env).

(** The ingestion server holds the ring and the syncer by pointer: it
    sees their current state and its adds are adds to the shared ring. *)
Definition step (ev : Event) (c : Consumer) : Consumer :=
  match ev with
  | Watch obj =>
      mkConsumer (snd (syncer.syncObject obj (sync c))) (ring c) (duck c)
  | Post r =>
      let ingestion := ingest.mkServer (ring c) (syncer.self (sync c)) in
      mkConsumer (sync c)
                 (ingest.buffer (snd (ingest.HandleIngest ingestion r)))
                 (duck c)
  | Tick es =>
      let '(ring', duck') := persist_tick es (ring c, duck c) in
      mkConsumer (sync c) ring' duck'
  end.

Definition run (evs : list Event) (c : Consumer) : Consumer :=
  fold_left (fun c ev => step ev c) evs c.

(** The state [main] starts from, given the two stores as opened. *)
Definition start (sqlite : store.DB) (envs : list store.Env)
    (duck : duckdb.DuckDBStore) : option Consumer :=
  option_map
    (fun ring =>
       mkConsumer (syncer.mkWorld (syncer.NewResourceSyncer sqlite) envs)
                  ring duck)
    (buffer.NewRingBuffer 10000).

End main.

(** ** Package [api]: the list handlers *)
Module api_list.

Record Node : Type := mkNode {
  node_ID : Z; node_Name : string; node_UID : string
}.

Record Namespace : Type := mkNamespace {
  ns_ID : Z; ns_Name : string
}.

(** [Deployment] and [PVC] have the same fields. *)
Record Owned : Type := mkOwned {
  o_ID : Z; o_Name : string; o_UID : string;
  o_NamespaceID : Z; o_Namespace : string
}.

Record Pod : Type := mkPod {
  pod_ID : Z; pod_Name : string; pod_UID : string;
  pod_NamespaceID : Z; pod_Namespace : string;
  pod_NodeID : Z; pod_NodeName : string;
  pod_DeploymentID : option Z;
  pod_Deployment : option string
}.

Fixpoint insert_by {A} (key : A -> string) (x : A) (l : list A) : list A :=
  match l with
  | [] => [x]
  | y :: l' =>
      if String.leb (key y) (key x) then y :: insert_by key x l'
      else x :: l
  end.

(** ORDER BY a text column (bytewise). *)
Definition order_by {A} (key : A -> string) (l : list A) : list A :=
  fold_left (fun acc x => insert_by key x acc) l [].

Inductive Reply (A : Type) : Type :=
| MethodNotAllowed            (* 405 *)
| InternalServerError         (* 500 *)
| OK (body : list A).         (* 200 *)
Arguments MethodNotAllowed {A}.
Arguments InternalServerError {A}.
Arguments OK {A} _.

(** [e] is the outcome of the query. *)
Definition handleListNodes (s : api.Server) (r : api.Request)
    (e : store.Env) : Reply Node :=
  if negb (String.eqb (api.Method r) "GET") then MethodNotAllowed else
  if store.fault e then InternalServerError else
  OK (order_by node_Name
        (map (fun n => mkNode (store.n_id n) (store.n_name n) (store.n_uid n))
             (store.rows (store.nodes (api.sqlite s))))).

Definition handleListNamespaces (s : api.Server) (r : api.Request)
    (e : store.Env) : Reply Namespace :=
  if negb (String.eqb (api.Method r) "GET") then MethodNotAllowed else
  if store.fault e then InternalServerError else
  OK (order_by ns_Name
        (map (fun n => mkNamespace (store.ns_id n) (store.ns_name n))
             (store.rows (store.namespaces (api.sqlite s))))).

(** The query of the deployments and of the PVCs: the table joined
    with the namespaces, with the optional [WHERE namespace_id = ?]. *)
Definition queryOwned (t : store.Table store.OwnedRow)
    (nsID : option Z) (db : store.DB) : list Owned :=
  order_by o_Name
    (flat_map (fun d =>
       if match nsID with
          | Some i => store.o_namespace_id d =? i
          | None => true
          end
       then
         map (fun n => mkOwned (store.o_id d) (store.o_name d) (store.o_uid d)
                               (store.o_namespace_id d) (store.ns_name n))
             (List.filter (fun n => store.ns_id n =? store.o_namespace_id d)
                          (store.rows (store.namespaces db)))
       else [])
     (store.rows t)).

Definition handleListDeployments (s : api.Server) (r : api.Request)
    (e : store.Env) : Reply Owned :=
  if negb (String.eqb (api.Method r) "GET") then MethodNotAllowed else
  let nsID := api.getQueryInt r "namespace" in
  if store.fault e then InternalServerError else
  OK (queryOwned (store.deployments (api.sqlite s)) nsID (api.sqlite s)).

Definition handleListPVCs (s : api.Server) (r : api.Request)
    (e : store.Env) : Reply Owned :=
  if negb (String.eqb (api.Method r) "GET") then MethodNotAllowed else
  let nsID := api.getQueryInt r "namespace" in
  if store.fault e then InternalServerError else
  OK (queryOwned (store.pvcs (api.sqlite s)) nsID (api.sqlite s)).

(** The conditions of [handleListPods]: [p.deployment_id = ?],
    [p.namespace_id = ?] and [p.node_id = ?], each when the parameter
    is given. *)
Definition podFilter (r : api.Request) (p : store.PodRow) : bool :=
  match api.getQueryInt r "deployment" with
  | Some depID => match store.p_deployment_id p with
                  | Some d => d =? depID
                  | None => false
                  end
  | None => true
  end
  && match api.getQueryInt r "namespace" with
     | Some nsID => store.p_namespace_id p =? nsID
     | None => true
     end
  && match api.getQueryInt r "node" with
     | Some nodeID => store.p_node_id p =? nodeID
     | None => true
     end.

Definition handleListPods (s : api.Server) (r : api.Request)
    (e : store.Env) : Reply Pod :=
  if negb (String.eqb (api.Method r) "GET") then MethodNotAllowed else
  let db := api.sqlite s in
  if store.fault e then InternalServerError else
  OK (order_by pod_Name
    (flat_map (fun p =>
       flat_map (fun ns =>
         flat_map (fun n =>
           let ds := List.filter (fun d => match store.p_deployment_id p with
                                           | Some i => store.o_id d =? i
                                           | None => false
                                           end)
                                 (store.rows (store.deployments db)) in
           let dnames := match ds with
                         | [] => [None]
                         | _ => map (fun d => Some (store.o_name d)) ds
                         end in
           if podFilter r p then
             map (fun dn => mkPod (store.p_id p) (store.p_name p)
                              (store.p_uid p)
                              (store.p_namespace_id p) (store.ns_name ns)
                              (store.p_node_id p) (store.n_name n)
                              (store.p_deployment_id p) dn) dnames
           else [])
         (List.filter (fun n => store.n_id n =? store.p_node_id p)
                      (store.rows (store.nodes db))))
       (List.filter (fun ns => store.ns_id ns =? store.p_namespace_id p)
                    (store.rows (store.namespaces db))))
     (store.rows (store.pods db)))).

End api_list.

(** ** Sample data for the concrete runs *)

Definition sample (i : Z) : buffer.Metric :=
  buffer.mkMetric (gotime.Unix i) i "cpu_ms" float64_zero.

Definition demo_pod : syncer.Pod :=
  syncer.mkPod "p-1" "web-xyz" "ns-a" [] "host-1".

Definition demo_node : syncer.Node := syncer.mkNode "n-1" "host-1".

(** Outcomes for the three statements of the pod event, and one more. *)
Definition demo_envs : list store.Env :=
  [syncer.quiet; syncer.quiet; syncer.quiet; store.mkEnv false 77 true].

(** A pod that is not scheduled yet, in a namespace not seen before. *)
Definition unscheduled_pod : syncer.Pod :=
  syncer.mkPod "p-2" "pending" "ns-b" [] "".

Definition demo_uuid : string := "11111111-2222-3333-4444-555555555555".

(** A memory sample that carries a volume name. *)
Definition raw_mem_with_volume : ingest.RawMetric :=
  ingest.mkRaw "container" "pod4f2b" "" ("pvc-" ++ demo_uuid) "" "mem_mb"
               (S754_finite false 42 0) 2000.

(** A sample under the key "pvc_usage" without a volume name. *)
Definition raw_usage_no_volume : ingest.RawMetric :=
  ingest.mkRaw "pvc_usage" "pod4f2b" "" "" "" "pvc_usage"
               (S754_finite false 42 0) 2000.

(** The PVC sample of scenario S4. *)
Definition raw_pvc : ingest.RawMetric :=
  ingest.mkRaw "pvc_usage" "" "p-1" ("pvc-" ++ demo_uuid) "" "used_mb"
               (S754_finite false 42 0) 2000.

Definition raw_cgroup : ingest.RawMetric :=
  ingest.mkRaw "container"
    "kubepods-burstable-pod4f2b_3a19_4c_aa22_0f11e2d33c44.slice" "" "" ""
    "cpu_ms" (S754_finite false 123 0) 1000.

(** A ring of capacity 1 that is full, over a syncer that knows no pod. *)
Definition full_server : ingest.IngestionServer syncer.ResourceSyncer :=
  ingest.mkServer (buffer.mkRing [sample 1] 1)
                  (syncer.NewResourceSyncer store.empty_db).

Definition roomy_server : ingest.IngestionServer syncer.ResourceSyncer :=
  ingest.mkServer (buffer.mkRing [sample 1] 4)
                  (syncer.NewResourceSyncer store.empty_db).

Definition post (raws : list ingest.RawMetric) : ingest.Request :=
  ingest.mkRequest "POST" (Some (ingest.mkIngestRequest "host-1" raws)).

(** ** Vocabulary of the statements about the identity store *)

(** The foreign keys of the row the statement writes point to rows. *)
Definition keys_point (c : store.Upsert) (db : store.DB) : bool :=
  match c with
  | store.Namespace _ | store.Node _ _ => true
  | store.Deployment _ _ nsID | store.StatefulSet _ _ nsID
  | store.DaemonSet _ _ nsID | store.PVC _ _ nsID =>
      store.references store.ns_id (store.namespaces db) nsID
  | store.Pod _ _ nsID nodeID depID stsID dsID =>
      store.references store.ns_id (store.namespaces db) nsID
      && store.references store.n_id (store.nodes db) nodeID
      && store.references_opt store.o_id (store.deployments db) depID
      && store.references_opt store.o_id (store.statefulsets db) stsID
      && store.references_opt store.o_id (store.daemonsets db) dsID
  end.


(** ** Vocabulary of the statements about the syncer *)

(** [c] keeps the property [I] of the syncer, whatever it returns. *)
Definition stable {A} (I : syncer.ResourceSyncer -> Prop) (c : syncer.M A)
    : Prop :=
  forall w, I (syncer.self w) -> I (syncer.self (snd (c w))).

(** The [nodes] table with the [nodes] cache, and likewise for pods. *)
Definition nodes_view (s : syncer.ResourceSyncer)
    : store.Table store.NodeRow * gmap string Z :=
  (store.nodes (syncer.sqlite s), syncer.nodes s).

Definition pods_view (s : syncer.ResourceSyncer)
    : store.Table store.PodRow * gmap string Z :=
  (store.pods (syncer.sqlite s), syncer.pods s).

Definition node_rows (s : syncer.ResourceSyncer) : list store.NodeRow :=
  store.rows (store.nodes (syncer.sqlite s)).

(** The rows of the [nodes] table with the given name. *)
Definition rows_named (name : string) (s : syncer.ResourceSyncer)
    : list store.NodeRow :=
  List.filter (fun r => String.eqb (store.n_name r) name) (node_rows s).

(** The [nodes] table respects [uid UNIQUE], no two rows share a name,
    and the name of every row is bound in the [nodes] cache. *)
Definition nodes_inv (s : syncer.ResourceSyncer) : Prop :=
  List.NoDup (map store.n_uid (node_rows s))
  /\ List.NoDup (map store.n_name (node_rows s))
  /\ forall r, In r (node_rows s) ->
       is_Some (syncer.nodes s !! store.n_name r).

(** Every pod row has a resolved namespace and node. *)
Definition pods_resolved (s : syncer.ResourceSyncer) : Prop :=
  Forall (fun r => store.p_namespace_id r <> 0 /\ store.p_node_id r <> 0)
         (store.rows (store.pods (syncer.sqlite s))).

(** A syncer on a new store. *)
Definition world0 (envs : list store.Env) : syncer.World :=
  syncer.mkWorld (syncer.NewResourceSyncer store.empty_db) envs.

(** ** Vocabulary of the statements about the ingestion *)




Fixpoint all_bytes (p : ascii -> bool) (s : string) : bool :=
  match s with
  | EmptyString => true
  | String c s' => p c && all_bytes p s'
  end.

(** [n] bytes of the class. *)
Definition run_of (p : ascii -> bool) (n : nat) (s : string) : Prop :=
  String.length s = n /\ all_bytes p s = true.

(** The canonical form of a UID: lowercase hex groups of 8, 4, 4, 4 and
    12 digits, joined by hyphens. *)
Definition is_uuid (u : string) : Prop :=
  exists a b c d e,
    u = a ++ "-" ++ b ++ "-" ++ c ++ "-" ++ d ++ "-" ++ e
    /\ run_of ingest.lowerhex 8 a /\ run_of ingest.lowerhex 4 b
    /\ run_of ingest.lowerhex 4 c /\ run_of ingest.lowerhex 4 d
    /\ run_of ingest.lowerhex 12 e.


(** [n] bytes of the class at the front of [s], and what follows them. *)
Fixpoint take_run (p : ascii -> bool) (n : nat) (s : string) : option string :=
  match n with
  | O => Some s
  | S n' =>
      match s with
      | String c s' => if p c then take_run p n' s' else None
      | EmptyString => None
      end
  end.

(** A UID at the front of [s], and what follows it. *)
Definition cut_uuid (s : string) : option string :=
  s ← take_run ingest.lowerhex 8 s;
  s ← gostrings.CutPrefix s "-";
  s ← take_run ingest.lowerhex 4 s;
  s ← gostrings.CutPrefix s "-";
  s ← take_run ingest.lowerhex 4 s;
  s ← gostrings.CutPrefix s "-";
  s ← take_run ingest.lowerhex 4 s;
  s ← gostrings.CutPrefix s "-";
  take_run ingest.lowerhex 12 s.

(** ** Vocabulary of the statements about the live view *)

(** The pod with this id passes the filters of the request, and the rows
    of its namespace and of its node exist. *)
Definition selected (conds : list api.Cond) (db : store.DB) (id : Z) : Prop :=
  exists p ns n,
    In p (store.rows (store.pods db)) /\ store.p_id p = id
    /\ forallb (fun c => api.holds c p) conds = true
    /\ In ns (store.rows (store.namespaces db))
    /\ store.ns_id ns = store.p_namespace_id p
    /\ In n (store.rows (store.nodes db))
    /\ store.n_id n = store.p_node_id p.

(** The window holds a sample of this resource, other than resource 0,
    that is later than the cutoff. *)
Definition fresh (cutoffTime : gotime.Time) (ms : list buffer.Metric)
    (id : Z) : Prop :=
  0 < id /\ exists m, In m ms /\ buffer.ResourceID m = id
                      /\ gotime.After (buffer.Time m) cutoffTime = true.

Definition get (params : list (string * string)) : api.Request :=
  api.mkRequest "GET"
    (fun k => match find (fun kv => String.eqb (fst kv) k) params with
              | Some kv => snd kv
              | None => EmptyString
              end).

(** The store after the demo pod has been synced, and a window with one
    sample of that pod, taken at second 1000. *)
Definition live_server : api.Server :=
  api.mkServer
    (syncer.sqlite (syncer.self (snd (syncer.syncPod demo_pod (world0 [])))))
    (buffer.mkRing
       [buffer.mkMetric (gotime.Unix 1000) 1 "cpu_ms" (S754_finite false 123 0);
        buffer.mkMetric (gotime.Unix 1000) 1 "used_mb" (S754_finite false 42 0)]
       4).

(** The body of the live view of [live_server] one second later. *)
Definition live_body : api.LiveMetricsResponse :=
  match api.handleLiveMetrics live_server (get []) (gotime.Unix 1001)
          (gotime.Unix 1001) syncer.quiet with
  | api.OK body => body
  | _ => api.mkLive 0 []
  end.

(** ** Vocabulary of the statements about the schema *)

(** A table respects its constraints: the key column is UNIQUE, the ids
    are distinct, positive and at most the AUTOINCREMENT counter. *)
Definition table_wf {R} (id_of : R -> Z) (key : R -> string)
    (t : store.Table R) : Prop :=
  List.NoDup (map key (store.rows t))
  /\ List.NoDup (map id_of (store.rows t))
  /\ List.Forall (fun r => 0 < id_of r <= store.seq t) (store.rows t)
  /\ 0 <= store.seq t.

Definition db_wf (db : store.DB) : Prop :=
  table_wf store.ns_id store.ns_name (store.namespaces db)
  /\ table_wf store.n_id store.n_uid (store.nodes db)
  /\ table_wf store.o_id store.o_uid (store.deployments db)
  /\ table_wf store.o_id store.o_uid (store.statefulsets db)
  /\ table_wf store.o_id store.o_uid (store.daemonsets db)
  /\ table_wf store.p_id store.p_uid (store.pods db)
  /\ table_wf store.o_id store.o_uid (store.pvcs db).

(** The row of a table of [OwnedRow]s points to a namespace. *)
Definition owned_fk (db : store.DB) (r : store.OwnedRow) : Prop :=
  store.references store.ns_id (store.namespaces db)
    (store.o_namespace_id r) = true.

(** The five foreign keys of a pod row point to rows. *)
Definition pod_fk (db : store.DB) (r : store.PodRow) : Prop :=
  store.references store.ns_id (store.namespaces db)
    (store.p_namespace_id r) = true
  /\ store.references store.n_id (store.nodes db) (store.p_node_id r) = true
  /\ store.references_opt store.o_id (store.deployments db)
       (store.p_deployment_id r) = true
  /\ store.references_opt store.o_id (store.statefulsets db)
       (store.p_statefulset_id r) = true
  /\ store.references_opt store.o_id (store.daemonsets db)
       (store.p_daemonset_id r) = true.

(** Every foreign key of every row points to an existing row. *)
Definition fk_ok (db : store.DB) : Prop :=
  List.Forall (owned_fk db) (store.rows (store.deployments db))
  /\ List.Forall (owned_fk db) (store.rows (store.statefulsets db))
  /\ List.Forall (owned_fk db) (store.rows (store.daemonsets db))
  /\ List.Forall (owned_fk db) (store.rows (store.pvcs db))
  /\ List.Forall (pod_fk db) (store.rows (store.pods db)).

(** Every id of [t] is an id of [t']. *)
Definition keeps_ids {R} (id_of : R -> Z) (t t' : store.Table R) : Prop :=
  forall i, store.references id_of t i = true ->
            store.references id_of t' i = true.

(** No table of [db'] has lost an id of [db]. *)
Definition db_keeps_ids (db db' : store.DB) : Prop :=
  keeps_ids store.ns_id (store.namespaces db) (store.namespaces db')
  /\ keeps_ids store.n_id (store.nodes db) (store.nodes db')
  /\ keeps_ids store.o_id (store.deployments db) (store.deployments db')
  /\ keeps_ids store.o_id (store.statefulsets db) (store.statefulsets db')
  /\ keeps_ids store.o_id (store.daemonsets db) (store.daemonsets db')
  /\ keeps_ids store.p_id (store.pods db) (store.pods db')
  /\ keeps_ids store.o_id (store.pvcs db) (store.pvcs db').

(** The table and the uid an upsert writes; namespaces have no uid. *)
Definition upsert_target (c : store.Upsert) : option (string * string) :=
  match c with
  | store.Namespace _ => None
  | store.Node uid _ => Some ("nodes", uid)
  | store.Deployment uid _ _ => Some ("deployments", uid)
  | store.StatefulSet uid _ _ => Some ("statefulsets", uid)
  | store.DaemonSet uid _ _ => Some ("daemonsets", uid)
  | store.Pod uid _ _ _ _ _ _ => Some ("pods", uid)
  | store.PVC uid _ _ => Some ("pvcs", uid)
  end.

(** The id a namespace name resolves to in the store. *)
Definition namespace_id (name : string) (db : store.DB) : option Z :=
  option_map store.ns_id
    (find (fun r => String.eqb (store.ns_name r) name)
          (store.rows (store.namespaces db))).

(** Write-through caches: every entry of a cache is backed by the store.
    A pod or PVC uid resolves in its table to the cached id, a namespace
    name to the cached id, and the ids cached for node names and
    ReplicaSets are ids of node and deployment rows. *)
Definition caches_backed (s : syncer.ResourceSyncer) : Prop :=
  (forall uid id, syncer.pods s !! uid = Some id ->
     store.GetResourceID syncer.quiet "pods" uid (syncer.sqlite s) = Some id)
  /\ (forall uid id, syncer.pvcs s !! uid = Some id ->
        store.GetResourceID syncer.quiet "pvcs" uid (syncer.sqlite s)
        = Some id)
  /\ (forall name id, syncer.namespaces s !! name = Some id ->
        namespace_id name (syncer.sqlite s) = Some id)
  /\ (forall name id, syncer.nodes s !! name = Some id ->
        store.references store.n_id (store.nodes (syncer.sqlite s)) id = true)
  /\ (forall rs id, syncer.replicaSets s !! rs = Some id ->
        store.references store.o_id (store.deployments (syncer.sqlite s)) id
        = true).

(** The tables of the syncer's store keep their keys unique and their
    ids distinct and positive, and the caches are backed by the store.
    The foreign keys are left out: a statement that runs on a connection
    without the pragma writes them unchecked. *)
Definition coherent (s : syncer.ResourceSyncer) : Prop :=
  db_wf (syncer.sqlite s) /\ caches_backed s.

(** [c] keeps the property [J] of the syncer and the outcomes in stock. *)
Definition wstable {A} (J : syncer.World -> Prop) (c : syncer.M A) : Prop :=
  forall w, J w -> J (snd (c w)).

(** Every statement to come runs on a connection that enforces foreign
    keys, and the store has unique keys and no foreign key that points
    to no row. *)
Definition keys_enforced (w : syncer.World) : Prop :=
  List.Forall (fun e => store.foreign_keys e = true) (syncer.pending w)
  /\ db_wf (syncer.sqlite (syncer.self w))
  /\ fk_ok (syncer.sqlite (syncer.self w)).

(** The three tables a pod event may insert into have ids left. *)
Definition roomy (db : store.DB) : Prop :=
  store.seq (store.namespaces db) < max_int64
  /\ store.seq (store.nodes db) < max_int64
  /\ store.seq (store.pods db) < max_int64.

(** The links found by the loop point to rows. *)
Definition links_ok (db : store.DB) (l : syncer.Links) : Prop :=
  let '(dep, sts, ds) := l in
  store.references_opt store.o_id (store.deployments db) dep = true
  /\ store.references_opt store.o_id (store.statefulsets db) sts = true
  /\ store.references_opt store.o_id (store.daemonsets db) ds = true.

(** The syncer is coherent and resolves [uid] of kind [rType] to [id]. *)
Definition resolves (uid rType : string) (id : Z)
    (s : syncer.ResourceSyncer) : Prop :=
  coherent s /\ syncer.GetResourceID s uid rType = (id, true).

(** Events of scenario S1: a node, a deployment, its replica set and a
    pod of the replica set. *)
Definition s1_events : list syncer.Object :=
  [syncer.ONode demo_node;
   syncer.ODeployment (syncer.mkNamespaced "d-1" "web" "ns-a");
   syncer.OReplicaSet
     (syncer.mkReplicaSet "rs-1" [syncer.mkOwner "Deployment" "d-1"]);
   syncer.OPod (syncer.mkPod "p-1" "web-xyz" "ns-a"
                  [syncer.mkOwner "ReplicaSet" "rs-1"] "host-1")].

Definition s1_world : syncer.World :=
  snd (syncer.syncAll s1_events (world0 [])).

(** ** Vocabulary of the statements about the metrics store *)

(** One of the first [n] calls on the connection fails. *)
Definition fails_within (n : nat) (es : list store.Env) : Prop :=
  exists i, (i < n)%nat
            /\ store.fault (nth i es (store.mkEnv false 0 true)) = true.

(** The row a buffered sample is persisted as. *)
Definition persisted (m : buffer.Metric) : duckdb.Row :=
  duckdb.mkRow (buffer.Time m) (buffer.ResourceID m) (buffer.Type_ m)
               (buffer.Value m) "raw".

(** ** Vocabulary of the statements about the consumer as a whole *)

(** The id is 0 or one the syncer resolves some uid to. *)
Definition known (s : syncer.ResourceSyncer) (id : Z) : Prop :=
  id = 0 \/ exists uid rType, syncer.GetResourceID s uid rType = (id, true).

(** The id is 0 or the primary key of a pod or PVC row. *)
Definition stored (db : store.DB) (id : Z) : Prop :=
  id = 0
  \/ 0 < id
     /\ (store.references store.p_id (store.pods db) id = true
         \/ store.references store.o_id (store.pvcs db) id = true).

(** The syncer is coherent, the ring is within its capacity, and every
    resource id in the ring and in the metrics table is known. *)
Definition consumer_ok (c : main.Consumer) : Prop :=
  let s := syncer.self (main.sync c) in
  coherent s
  /\ buffer.len (buffer.metrics (main.ring c)) <= buffer.maxSize (main.ring c)
  /\ List.Forall (fun m => known s (buffer.ResourceID m))
                 (buffer.metrics (main.ring c))
  /\ List.Forall (fun r => known s (duckdb.resource_id r)) (main.duck c).

(** A run of scenario S1 with a sample of its pod, flushed. *)
Definition s1_run : list main.Event :=
  (map main.Watch s1_events
   ++ [main.Post (post [ingest.mkRaw "pvc_usage" "" "p-1" "data" ""
                          "used_mb" float64_zero 1700000000]);
       main.Tick []])%list.

(** The consumer as [main] starts it on empty stores. *)
Definition fresh_consumer : main.Consumer :=
  main.mkConsumer (world0 []) (buffer.mkRing [] 10000) [].

(** ** Vocabulary of the statements about the lists *)

(** Ascending in the text column [key]: every entry is at most each
    later one. *)
Definition sorted_by {A} (key : A -> string) (l : list A) : Prop :=
  StronglySorted (fun a b => String.leb (key a) (key b) = true) l.

(** The row of [t] with primary key [i]. *)
Definition row_of {R} (id_of : R -> Z) (t : store.Table R) (i : Z)
    : option R :=
  find (fun r => id_of r =? i) (store.rows t).

Definition namespace_name (db : store.DB) (i : Z) : string :=
  match row_of store.ns_id (store.namespaces db) i with
  | Some r => store.ns_name r
  | None => ""
  end.

Definition node_name (db : store.DB) (i : Z) : string :=
  match row_of store.n_id (store.nodes db) i with
  | Some r => store.n_name r
  | None => ""
  end.

Definition deployment_name (db : store.DB) (i : option Z) : option string :=
  match i with
  | Some i => option_map store.o_name
                (row_of store.o_id (store.deployments db) i)
  | None => None
  end.

(** A pod row with the names its foreign keys stand for. *)
Definition pod_entry (db : store.DB) (p : store.PodRow) : api_list.Pod :=
  api_list.mkPod (store.p_id p) (store.p_name p) (store.p_uid p)
    (store.p_namespace_id p) (namespace_name db (store.p_namespace_id p))
    (store.p_node_id p) (node_name db (store.p_node_id p))
    (store.p_deployment_id p) (deployment_name db (store.p_deployment_id p)).

Definition owned_entry (db : store.DB) (d : store.OwnedRow) : api_list.Owned :=
  api_list.mkOwned (store.o_id d) (store.o_name d) (store.o_uid d)
    (store.o_namespace_id d) (namespace_name db (store.o_namespace_id d)).

Definition node_entry (n : store.NodeRow) : api_list.Node :=
  api_list.mkNode (store.n_id n) (store.n_name n) (store.n_uid n).

Definition namespace_entry (n : store.NamespaceRow) : api_list.Namespace :=
  api_list.mkNamespace (store.ns_id n) (store.ns_name n).

(** The row is in the namespace the request asks for, if it asks. *)
Definition in_namespace (r : api.Request) (d : store.OwnedRow) : bool :=
  match api.getQueryInt r "namespace" with
  | Some i => store.o_namespace_id d =? i
  | None => true
  end.

(** The reply is a 200 whose body is ascending in [key] and holds
    exactly one entry per row of [rows]. *)
Definition lists {R B} (reply : api_list.Reply B) (key : B -> string)
    (entry : R -> B) (rows : list R) : Prop :=
  exists body, reply = api_list.OK body
               /\ sorted_by key body
               /\ Permutation body (map entry rows).

(** A GET without parameters. *)
Definition get_all : api.Request := api.mkRequest "GET" (fun _ => "").

(** The row of the metadata query for a pod row. *)
Definition pod_meta (db : store.DB) (p : store.PodRow) : api.PodMeta :=
  (store.p_id p, store.p_name p, store.p_uid p,
   namespace_name db (store.p_namespace_id p),
   node_name db (store.p_node_id p),
   deployment_name db (store.p_deployment_id p)).

(** The pod row passes the filters of the request and is active. *)
Definition shown (r : api.Request) (cutoffTime : gotime.Time)
    (ms : list buffer.Metric) (p : store.PodRow) : bool :=
  forallb (fun c => api.holds c p) (api.whereClause r)
  && api.is_active (api.activePodIDs cutoffTime ms) (store.p_id p).

(** ** Vocabulary of the statements about the container summary *)

(** The sample is of the resource and not older than the cutoff. *)
Definition relevant (id : Z) (cutoffTime : gotime.Time) (m : buffer.Metric)
    : bool :=
  (buffer.ResourceID m =? id)
  && negb (gotime.Before (buffer.Time m) cutoffTime).

Definition container_type (ty : string) : bool :=
  String.eqb ty "cpu_ms" || String.eqb ty "mem_mb"
  || String.eqb ty "mem_limit_mb".

(** The value of the last sample of the type, 0 when there is none. *)
Definition latest (ty : string) (ms : list buffer.Metric) : float64 :=
  List.last (map buffer.Value
            (List.filter (fun m => String.eqb (buffer.Type_ m) ty) ms))
       float64_zero.

(** One container named default with the latest values, when a
    relevant sample of a container type exists; none otherwise. *)
Definition container_summary (id : Z) (cutoffTime : gotime.Time)
    (ms : list buffer.Metric) : list api.ContainerInfo :=
  let rel := List.filter (relevant id cutoffTime) ms in
  if existsb (fun m => container_type (buffer.Type_ m)) rel
  then [api.mkContainerInfo "default" (latest "cpu_ms" rel)
          (latest "mem_mb" rel) (latest "mem_limit_mb" rel)]
  else [].

(** The map of containers that holds a summary. *)
Definition as_map (l : list api.ContainerInfo)
    : gmap string api.ContainerInfo :=
  match l with
  | c :: _ => {["default" := c]}
  | [] => ∅
  end.

(** A window with two CPU samples and a memory sample of pod 1. *)
Definition busy_server : api.Server :=
  api.mkServer
    (syncer.sqlite (syncer.self s1_world))
    (buffer.mkRing
       [buffer.mkMetric (gotime.Unix 1000) 1 "cpu_ms" (S754_finite false 5 0);
        buffer.mkMetric (gotime.Unix 1000) 1 "mem_mb" (S754_finite false 7 0);
        buffer.mkMetric (gotime.Unix 1001) 1 "cpu_ms" (S754_finite false 9 0)]
       8).

Definition busy_body : api.LiveMetricsResponse :=
  match api.handleLiveMetrics busy_server get_all (gotime.Unix 1001)
          (gotime.Unix 1001) syncer.quiet with
  | api.OK body => body
  | _ => api.mkLive 0 []
  end.

(** * Properties *)

(** ** The ring window *)
Section ring_facts.
Import buffer.

Lemma Add_full m rb :
  maxSize rb <= len (metrics rb) -> Add m rb = rb.
Proof.
  intros Hfull. unfold Add.
  destruct (Z.leb_spec (maxSize rb) (len (metrics rb))); [reflexivity | lia].
Qed.

Lemma Add_room m rb :
  len (metrics rb) < maxSize rb ->
  Add m rb = mkRing (metrics rb ++ [m])%list (maxSize rb).
Proof.
  intros Hroom. unfold Add.
  destruct (Z.leb_spec (maxSize rb) (len (metrics rb))); [lia | reflexivity].
Qed.

Lemma Add_maxSize m rb : maxSize (Add m rb) = maxSize rb.
Proof. unfold Add. destruct (_ <=? _); reflexivity. Qed.

Lemma AddAll_maxSize ms rb : maxSize (AddAll ms rb) = maxSize rb.
Proof.
  revert rb. induction ms as [|m ms IH]; intros rb; [reflexivity|].
  cbn. unfold AddAll in IH. rewrite IH. apply Add_maxSize.
Qed.

(** A run of adds keeps what was buffered and takes as many of the new
    samples, from the front, as there is room for. *)
Lemma AddAll_metrics ms rb :
  metrics (AddAll ms rb) =
  (metrics rb ++ firstn (Z.to_nat (maxSize rb - len (metrics rb))) ms)%list.
Proof.
  revert rb. induction ms as [|m ms IH]; intros rb.
  - cbn. rewrite firstn_nil, app_nil_r. reflexivity.
  - change (AddAll (m :: ms) rb) with (AddAll ms (Add m rb)). rewrite IH.
    destruct (Z.le_gt_cases (maxSize rb) (len (metrics rb))) as [Hfull|Hroom].
    + rewrite (Add_full m rb Hfull).
      replace (Z.to_nat (maxSize rb - len (metrics rb))) with 0%nat by lia.
      reflexivity.
    + rewrite (Add_room m rb) by lia. cbn [metrics maxSize].
      unfold len in *. rewrite length_app. cbn [length].
      replace (Z.to_nat (maxSize rb - Z.of_nat (length (metrics rb))))
        with (S (Z.to_nat (maxSize rb
                           - Z.of_nat (length (metrics rb) + 1)%nat)))
        by lia.
      cbn [firstn]. rewrite <- app_assoc. reflexivity.
Qed.

Lemma AddAll_app xs ys rb : AddAll (xs ++ ys)%list rb = AddAll ys (AddAll xs rb).
Proof. unfold AddAll. apply fold_left_app. Qed.

End ring_facts.

(** C4. Ring bound with drop-newest: on a ring window of capacity [N],
    after every prefix of a run of adds the occupancy is at most [N]; an
    add on a buffer holding [N] or more samples leaves it unchanged; and
    [ReadAll] after the run returns the first [N] samples of the run, in
    insertion order (all of them when the run is shorter). *)
Theorem ring_bound_drop_newest (N : Z) (rb : buffer.RingBuffer)
    (ms : list buffer.Metric) :
  buffer.NewRingBuffer N = Some rb ->
  (forall k : nat,
     buffer.len (buffer.ReadAll (buffer.AddAll (firstn k ms) rb)) <= N)
  /\ (forall (b : buffer.RingBuffer) (m : buffer.Metric),
        buffer.maxSize b = N ->
        N <= buffer.len (buffer.ReadAll b) -> buffer.Add m b = b)
  /\ buffer.ReadAll (buffer.AddAll ms rb) = firstn (Z.to_nat N) ms.
Proof.
  unfold buffer.NewRingBuffer. intros Hnew.
  destruct (Z.ltb_spec N 0) as [|HN]; [discriminate|].
  injection Hnew as <-. unfold buffer.ReadAll. repeat split.
  - intros k. rewrite AddAll_metrics. cbn.
    rewrite Z.sub_0_r. unfold buffer.len. rewrite length_firstn. lia.
  - intros b m Hcap Hfull. apply Add_full. lia.
  - rewrite AddAll_metrics. cbn. rewrite Z.sub_0_r. reflexivity.
Qed.

(** Capacity 4 and six adds: exactly the first four are read back. *)
Lemma ring_bound_drop_newest_witness :
  buffer.ReadAll
    (buffer.AddAll (map sample [1; 2; 3; 4; 5; 6]) (buffer.mkRing [] 4))
  = map sample [1; 2; 3; 4].
Proof.
  exact (proj2 (proj2 (ring_bound_drop_newest 4 (buffer.mkRing [] 4)
                         (map sample [1; 2; 3; 4; 5; 6]) eq_refl))).
Defined.

(** C5. Flush swap semantics: on every ring window, [Flush] returns the
    samples [ReadAll] would have returned just before and leaves an empty
    buffer of the same capacity; each sample buffered before the flush is
    in the returned slice, and none is in the buffer afterwards. *)
Theorem flush_swap (rb : buffer.RingBuffer) :
  let '(out, rb') := buffer.Flush rb in
  out = buffer.ReadAll rb
  /\ buffer.ReadAll rb' = []
  /\ buffer.maxSize rb' = buffer.maxSize rb
  /\ buffer.ReadAll rb = (out ++ buffer.ReadAll rb')%list
  /\ (forall m, In m (buffer.ReadAll rb) ->
        (In m out \/ In m (buffer.ReadAll rb'))
        /\ ~ (In m out /\ In m (buffer.ReadAll rb'))).
Proof.
  cbn. repeat split.
  - symmetry. apply app_nil_r.
  - left. assumption.
  - intros [_ []].
Qed.

(** ** The identity store *)
Section store_facts.
Import store.
Context {R : Type} (conflict : R -> bool) (id_of : R -> Z).

Lemma find_app_none (l : list R) (x : R) :
  find conflict l = None -> conflict x = true ->
  find conflict (l ++ [x])%list = Some x.
Proof.
  induction l as [|y l IH]; cbn; intros Hl Hx.
  - rewrite Hx. reflexivity.
  - destruct (conflict y); [discriminate | auto].
Qed.





End store_facts.

Section upsert_idempotence.
Import store.

(** A run is an upsert on the table of the statement, the other tables
    unchanged; when the connection enforces foreign keys, the keys of the
    row written point to rows. *)
Lemma run_inv c e db id db1 :
  run c e db = Some (id, db1) ->
  fault e = false
  /\ (foreign_keys e = true -> keys_point c db = true)
  /\ match c with
     | Namespace name =>
         exists t1,
           upsert (fun r => String.eqb (ns_name r) name) (fun r => r)
                  (fun id => mkNamespaceRow id name) ns_id (namespaces db)
           = Some (id, t1)
           /\ db1 = mkDB t1 (nodes db) (deployments db) (statefulsets db)
                         (daemonsets db) (pods db) (pvcs db)
     | Node uid name =>
         exists t1,
           upsert (fun r => String.eqb (n_uid r) uid)
                  (fun r => mkNodeRow (n_id r) (n_uid r) name
                                      (current_timestamp e))
                  (fun id => mkNodeRow id uid name (current_timestamp e))
                  n_id (nodes db) = Some (id, t1)
           /\ db1 = mkDB (namespaces db) t1 (deployments db)
                         (statefulsets db) (daemonsets db) (pods db)
                         (pvcs db)
     | Deployment uid name nsID =>
         exists t1,
           upsert (fun r => String.eqb (o_uid r) uid)
                  (fun r => mkOwnedRow (o_id r) (o_uid r) name nsID
                                       (current_timestamp e))
                  (fun id => mkOwnedRow id uid name nsID
                                        (current_timestamp e))
                  o_id (deployments db) = Some (id, t1)
           /\ db1 = mkDB (namespaces db) (nodes db) t1 (statefulsets db)
                         (daemonsets db) (pods db) (pvcs db)
     | StatefulSet uid name nsID =>
         exists t1,
           upsert (fun r => String.eqb (o_uid r) uid)
                  (fun r => mkOwnedRow (o_id r) (o_uid r) name nsID
                                       (current_timestamp e))
                  (fun id => mkOwnedRow id uid name nsID
                                        (current_timestamp e))
                  o_id (statefulsets db) = Some (id, t1)
           /\ db1 = mkDB (namespaces db) (nodes db) (deployments db) t1
                         (daemonsets db) (pods db) (pvcs db)
     | DaemonSet uid name nsID =>
         exists t1,
           upsert (fun r => String.eqb (o_uid r) uid)
                  (fun r => mkOwnedRow (o_id r) (o_uid r) name nsID
                                       (current_timestamp e))
                  (fun id => mkOwnedRow id uid name nsID
                                        (current_timestamp e))
                  o_id (daemonsets db) = Some (id, t1)
           /\ db1 = mkDB (namespaces db) (nodes db) (deployments db)
                         (statefulsets db) t1 (pods db) (pvcs db)
     | Pod uid name nsID nodeID depID stsID dsID =>
         exists t1,
           upsert (fun r => String.eqb (p_uid r) uid)
                  (fun r => mkPodRow (p_id r) (p_uid r) name nsID nodeID
                                     depID stsID dsID (current_timestamp e))
                  (fun id => mkPodRow id uid name nsID nodeID
                                      depID stsID dsID (current_timestamp e))
                  p_id (pods db) = Some (id, t1)
           /\ db1 = mkDB (namespaces db) (nodes db) (deployments db)
                         (statefulsets db) (daemonsets db) t1 (pvcs db)
     | PVC uid name nsID =>
         exists t1,
           upsert (fun r => String.eqb (o_uid r) uid)
                  (fun r => mkOwnedRow (o_id r) (o_uid r) name nsID
                                       (current_timestamp e))
                  (fun id => mkOwnedRow id uid name nsID
                                        (current_timestamp e))
                  o_id (pvcs db) = Some (id, t1)
           /\ db1 = mkDB (namespaces db) (nodes db) (deployments db)
                         (statefulsets db) (daemonsets db) (pods db) t1
     end.
Proof.
  destruct c; cbn [run keys_point];
    unfold UpsertNamespace, UpsertNode, UpsertDeployment, UpsertStatefulSet,
      UpsertDaemonSet, UpsertPod, UpsertPVC, upsert_owned;
    destruct (fault e); try discriminate;
    try (destruct (foreign_keys e); cbn [andb];
         [match goal with
          | |- context [negb ?b] => destruct b; cbn [negb]; try discriminate
          end|]);
    (destruct (upsert _ _ _ _ _) as [[i t1]|]; [|discriminate]);
    intros [= <- <-]; (split; [reflexivity|]);
    (split; [try reflexivity; try discriminate|]); eauto.
Qed.

End upsert_idempotence.


(** ** The syncer: how the steps compose *)
Section syncer_steps.
Import syncer.
Context (I : ResourceSyncer -> Prop).

Lemma stable_ret {A} (a : A) : stable I (mret a).
Proof. intros w Hw. exact Hw. Qed.

Lemma stable_bind {A B} (c : M A) (f : A -> M B) :
  stable I c -> (forall a, stable I (f a)) -> stable I (c ≫= f).
Proof.
  intros Hc Hf w Hw. unfold mbind, M_bind.
  specialize (Hc w Hw). destruct (c w) as [a w']. apply Hf, Hc.
Qed.

Lemma stable_gets {A} (f : ResourceSyncer -> A) : stable I (gets f).
Proof. intros w Hw. exact Hw. Qed.

Lemma stable_next_env : stable I next_env.
Proof. intros w Hw. unfold next_env. destruct (pending w); exact Hw. Qed.

Lemma stable_modify (f : ResourceSyncer -> ResourceSyncer) :
  (forall s, I s -> I (f s)) -> stable I (modify f).
Proof. intros Hf w Hw. apply Hf, Hw. Qed.

Lemma stable_query {A} (q : store.Env -> store.DB -> option A) :
  stable I (query q).
Proof.
  unfold query. apply stable_bind; [apply stable_next_env|]. intros e.
  apply stable_bind; [apply stable_gets|]. intros db. apply stable_ret.
Qed.

(** A statement keeps [I] when replacing the store by its result does. *)
Lemma stable_exec {A}
    (stmt : store.Env -> store.DB -> option (A * store.DB)) :
  (forall e s a db', stmt e (sqlite s) = Some (a, db') ->
                     I s -> I (set_sqlite db' s)) ->
  stable I (exec stmt).
Proof.
  intros Hstmt w Hw. unfold exec, mbind, M_bind.
  destruct (next_env w) as [e w1] eqn:He.
  assert (Hself : self w1 = self w).
  { unfold next_env in He. destruct (pending w); injection He as _ <-;
      reflexivity. }
  cbn. destruct (stmt e (sqlite (self w1))) as [[a db']|] eqn:Hs; cbn.
  - rewrite Hself in *. eapply Hstmt; eauto.
  - rewrite Hself. exact Hw.
Qed.

End syncer_steps.

(** ** Which tables a statement writes *)
Section frames.
Import store.

Local Ltac frame :=
  intros H;
  repeat match type of H with
         | (if ?b then _ else _) = _ => destruct b; [discriminate|]
         | match ?x with _ => _ end = _ =>
             destruct x as [[? ?]|]; [|discriminate]
         end;
  injection H as _ <-; repeat split.

Lemma UpsertNamespace_frame e name db id db' :
  UpsertNamespace e name db = Some (id, db') ->
  nodes db' = nodes db /\ pods db' = pods db.
Proof. unfold UpsertNamespace. frame. Qed.

Lemma UpsertNode_frame e uid name db id db' :
  UpsertNode e uid name db = Some (id, db') ->
  namespaces db' = namespaces db /\ pods db' = pods db.
Proof. unfold UpsertNode. frame. Qed.

Lemma UpsertDeployment_frame e uid name ns db id db' :
  UpsertDeployment e uid name ns db = Some (id, db') ->
  nodes db' = nodes db /\ pods db' = pods db.
Proof. unfold UpsertDeployment. frame. Qed.

Lemma UpsertStatefulSet_frame e uid name ns db id db' :
  UpsertStatefulSet e uid name ns db = Some (id, db') ->
  nodes db' = nodes db /\ pods db' = pods db.
Proof. unfold UpsertStatefulSet. frame. Qed.

Lemma UpsertDaemonSet_frame e uid name ns db id db' :
  UpsertDaemonSet e uid name ns db = Some (id, db') ->
  nodes db' = nodes db /\ pods db' = pods db.
Proof. unfold UpsertDaemonSet. frame. Qed.

Lemma UpsertPVC_frame e uid name ns db id db' :
  UpsertPVC e uid name ns db = Some (id, db') ->
  nodes db' = nodes db /\ pods db' = pods db.
Proof. unfold UpsertPVC. frame. Qed.

Lemma UpsertPod_frame e uid name ns nd dep sts ds db id db' :
  UpsertPod e uid name ns nd dep sts ds db = Some (id, db') ->
  nodes db' = nodes db /\ namespaces db' = namespaces db.
Proof. unfold UpsertPod. frame. Qed.

End frames.

Ltac stable_step :=
  lazymatch goal with
  | |- stable _ (mret _) => apply stable_ret
  | |- stable _ (_ ≫= _) => apply stable_bind; [|intros ?]
  | |- stable _ (syncer.gets _) => apply stable_gets
  | |- stable _ (syncer.query _) => apply stable_query
  | |- stable _ syncer.next_env => apply stable_next_env
  | |- stable _ (match ?x with _ => _ end) => destruct x
  end.

(** ** Steps that leave the nodes table and cache alone *)
Section nodes_frame.
Import syncer.
Context (v : store.Table store.NodeRow * gmap string Z).

Local Abbreviation keeps := (stable (fun s => nodes_view s = v)).

Local Ltac by_frame lem :=
  apply stable_exec;
  let H := fresh "Hstmt" in
  let Hs := fresh "Hs" in
  let Hn := fresh "Hn" in
  intros ? ? ? ? H Hs; apply lem in H as [Hn _];
  unfold nodes_view in *; cbn; rewrite Hn; exact Hs.

Lemma getNamespaceID_nodes name : keeps (getNamespaceID name).
Proof.
  unfold getNamespaceID. repeat stable_step.
  - by_frame UpsertNamespace_frame.
  - apply stable_modify. intros s Hs. exact Hs.
Qed.

Lemma syncDeployment_nodes d : keeps (syncDeployment d).
Proof.
  unfold syncDeployment. repeat stable_step.
  - apply getNamespaceID_nodes.
  - by_frame UpsertDeployment_frame.
Qed.

Lemma syncStatefulSet_nodes d : keeps (syncStatefulSet d).
Proof.
  unfold syncStatefulSet. repeat stable_step.
  - apply getNamespaceID_nodes.
  - by_frame UpsertStatefulSet_frame.
Qed.

Lemma syncDaemonSet_nodes d : keeps (syncDaemonSet d).
Proof.
  unfold syncDaemonSet. repeat stable_step.
  - apply getNamespaceID_nodes.
  - by_frame UpsertDaemonSet_frame.
Qed.

Lemma syncPVC_nodes d : keeps (syncPVC d).
Proof.
  unfold syncPVC. repeat stable_step.
  - apply getNamespaceID_nodes.
  - by_frame UpsertPVC_frame.
  - apply stable_modify. intros s Hs. exact Hs.
Qed.

Lemma syncReplicaSet_nodes rs : keeps (syncReplicaSet rs).
Proof.
  unfold syncReplicaSet.
  induction (rs_OwnerReferences rs) as [|o os IH]; cbn;
    repeat stable_step; try exact IH.
  apply stable_modify. intros s Hs. exact Hs.
Qed.

Lemma syncPod_owners_nodes os l : keeps (syncPod_owners os l).
Proof.
  revert l. induction os as [|o os IH]; intros l; cbn.
  - apply stable_ret.
  - destruct l as [[dep sts] ds]. repeat stable_step; apply IH.
Qed.

Lemma syncPod_upsert_nodes pod nsID nodeID :
  keeps (syncPod_upsert pod nsID nodeID).
Proof.
  unfold syncPod_upsert.
  apply stable_bind; [apply syncPod_owners_nodes|].
  intros [[dep sts] ds]. repeat stable_step.
  - by_frame UpsertPod_frame.
  - apply stable_modify. intros s Hs. exact Hs.
Qed.

End nodes_frame.

(** ** The node upsert and the rows of a name *)
Section node_upsert.
Import store.
Context (uid name : string) (ts : Z).

Let rename (r : NodeRow) : NodeRow :=
  if String.eqb (n_uid r) uid
  then mkNodeRow (n_id r) (n_uid r) name ts else r.

Lemma rename_uid r : n_uid (rename r) = n_uid r.
Proof. unfold rename. destruct (String.eqb _ _); reflexivity. Qed.

Lemma rename_names l z :
  In z (map n_name (map rename l)) -> In z (map n_name l) \/ z = name.
Proof.
  induction l as [|x l IH]; cbn; [tauto|]. intros [Hz|Hz].
  - unfold rename in Hz. destruct (String.eqb _ _); cbn in Hz; auto.
  - destruct (IH Hz); auto.
Qed.

Lemma rename_other l :
  ~ In uid (map n_uid l) -> map rename l = l.
Proof.
  induction l as [|x l IH]; cbn; [reflexivity|]. intros Hnot.
  rewrite IH by tauto. unfold rename.
  destruct (String.eqb_spec (n_uid x) uid); [tauto | reflexivity].
Qed.

Lemma rename_NoDup l :
  List.NoDup (map n_uid l) -> List.NoDup (map n_name l) ->
  ~ In name (map n_name l) ->
  List.NoDup (map n_name (map rename l)).
Proof.
  induction l as [|x l IH]; cbn; [constructor|].
  intros Hu Hn Hfresh.
  apply List.NoDup_cons_iff in Hu as [Hux Hu].
  apply List.NoDup_cons_iff in Hn as [Hnx Hn].
  apply List.NoDup_cons_iff. split; [|apply IH; tauto].
  unfold rename at 1. destruct (String.eqb_spec (n_uid x) uid) as [Heq|Hne].
  - cbn. rewrite rename_other by congruence. tauto.
  - intros Hin. apply rename_names in Hin as [Hin|Hin]; [tauto|].
    apply Hfresh. left. exact Hin.
Qed.

Lemma find_uid_none l :
  find (fun r => String.eqb (n_uid r) uid) l = None ->
  ~ In uid (map n_uid l).
Proof.
  intros Hfind Hin. apply in_map_iff in Hin as (r & Hr & Hin).
  apply (find_none _ _ Hfind) in Hin. cbn in Hin.
  rewrite Hr, String.eqb_refl in Hin. discriminate.
Qed.

(** A successful node upsert under a name no row carries yet: the
    table keeps unique uids and unique names, the returned id is that
    of a row with the given uid and name, and every other row was
    there before. *)
Lemma UpsertNode_rows e db id db' :
  current_timestamp e = ts ->
  UpsertNode e uid name db = Some (id, db') ->
  List.NoDup (map n_uid (rows (nodes db))) ->
  List.NoDup (map n_name (rows (nodes db))) ->
  ~ In name (map n_name (rows (nodes db))) ->
  List.NoDup (map n_uid (rows (nodes db')))
  /\ List.NoDup (map n_name (rows (nodes db')))
  /\ (exists r, In r (rows (nodes db'))
                /\ n_id r = id /\ n_uid r = uid /\ n_name r = name)
  /\ (forall r, In r (rows (nodes db')) ->
                n_name r = name \/ In r (rows (nodes db))).
Proof.
  intros Hts. unfold UpsertNode, upsert. rewrite Hts.
  destruct (fault e); [discriminate|].
  destruct (max_int64 <=? seq (nodes db)); [discriminate|]. cbv zeta.
  destruct (find _ (rows (nodes db))) as [r0|] eqn:Hfind.
  - intros [= <- <-] Hu Hn Hfresh. cbn [nodes rows].
    change (map _ (rows (nodes db))) with (map rename (rows (nodes db))).
    apply find_some in Hfind as [Hin Huid].
    apply String.eqb_eq in Huid. repeat split.
    + rewrite map_map. erewrite map_ext; [exact Hu|]. apply rename_uid.
    + apply rename_NoDup; assumption.
    + exists (rename r0). split; [apply in_map, Hin|].
      unfold rename. rewrite Huid, String.eqb_refl. cbn. auto.
    + intros r Hr. apply in_map_iff in Hr as (x & <- & Hx).
      unfold rename. destruct (String.eqb _ _); cbn; auto.
  - intros [= <- <-] Hu Hn Hfresh. cbn [nodes rows].
    apply find_uid_none in Hfind. rewrite !map_app. cbn [map].
    repeat split.
    + apply List.NoDup_app;
        [exact Hu | repeat constructor; cbn; tauto
        | intros z Hz [<-|[]]; tauto].
    + apply List.NoDup_app;
        [exact Hn | repeat constructor; cbn; tauto
        | intros z Hz [<-|[]]; tauto].
    + eexists. split; [apply in_or_app; right; left; reflexivity|]. cbn. auto.
    + intros r Hr. apply in_app_or in Hr as [Hr|[<-|[]]]; cbn; auto.
Qed.

End node_upsert.

(** ** Node resolution *)
Section node_resolution.
Import syncer.

Lemma filter_none {A} (f : A -> bool) (l : list A) :
  (forall y, In y l -> f y = false) -> List.filter f l = [].
Proof.
  induction l as [|x l IH]; cbn; intros Hf; [reflexivity|].
  rewrite (Hf x) by auto. apply IH. auto.
Qed.

(** Among rows of pairwise different keys, a key selects its row. *)
Lemma filter_unique {A} (key : A -> string) (l : list A) (r : A) :
  List.NoDup (map key l) -> In r l ->
  List.filter (fun x => String.eqb (key x) (key r)) l = [r].
Proof.
  induction l as [|x l IH]; cbn; intros Hnd Hr; [destruct Hr|].
  apply List.NoDup_cons_iff in Hnd as [Hx Hl]. destruct Hr as [->|Hr].
  - rewrite String.eqb_refl. f_equal. apply filter_none.
    intros y Hy. apply String.eqb_neq. intros Heq.
    apply Hx. rewrite <- Heq. apply in_map, Hy.
  - destruct (String.eqb_spec (key x) (key r)) as [Heq|Hne]; [|auto].
    exfalso. apply Hx. rewrite Heq. apply in_map, Hr.
Qed.

Lemma getNodeID_hit name uid w id :
  nodes (self w) !! name = Some id -> getNodeID name uid w = (id, w).
Proof.
  intros Hc. unfold getNodeID, nodes_read, nodes_fill, mbind, M_bind, gets. rewrite Hc. reflexivity.
Qed.

Lemma getNodeID_miss name uid w :
  nodes (self w) !! name = None ->
  getNodeID name uid w =
  let s := self w in
  let w' := mkWorld s (tl (pending w)) in
  match store.UpsertNode (hd quiet (pending w))
          (if String.eqb uid "" then "stub-" ++ name else uid) name
          (sqlite s) with
  | None => (0, w')
  | Some (id, db') =>
      (id, mkWorld (mkSyncer db' (pods s) (pvcs s) (namespaces s)
                             (<[name := id]> (nodes s)) (replicaSets s))
                   (tl (pending w)))
  end.
Proof.
  intros Hc. destruct w as [s es].
  unfold getNodeID, nodes_read, nodes_fill, mbind, M_bind, gets, exec, mbind, M_bind, next_env, gets.
  cbn in *. rewrite Hc.
  destruct es as [|e es]; cbn -[store.UpsertNode];
    destruct (store.UpsertNode _ _ _ _) as [[id db']|]; reflexivity.
Qed.

Lemma cache_miss_fresh name s :
  nodes_inv s -> nodes s !! name = None ->
  ~ In name (map store.n_name (node_rows s)).
Proof.
  intros (_ & _ & Hbound) Hc Hin.
  apply in_map_iff in Hin as (r & <- & Hr).
  apply Hbound in Hr as [i Hi]. congruence.
Qed.

(** A node upsert on a cache miss, with the cache write after it. *)
Lemma upsert_node_inv e uid name s id db' :
  nodes_inv s -> nodes s !! name = None ->
  store.UpsertNode e uid name (sqlite s) = Some (id, db') ->
  let s' := mkSyncer db' (pods s) (pvcs s) (namespaces s)
                     (<[name := id]> (nodes s)) (replicaSets s) in
  nodes_inv s'
  /\ exists r, rows_named name s' = [r]
               /\ store.n_id r = id /\ store.n_uid r = uid.
Proof.
  intros Hinv Hc Hup. pose proof (cache_miss_fresh _ _ Hinv Hc) as Hfresh.
  destruct Hinv as (Hu & Hn & Hbound).
  eapply UpsertNode_rows in Hup as (Hu' & Hn' & (r & Hr & Hid & Huid & Hname)
                                    & Hold); eauto.
  cbn. split.
  - repeat split; try assumption. unfold node_rows. cbn.
    intros r' Hr'. apply lookup_insert_is_Some.
    destruct (Hold r' Hr') as [Heq|Hin]; [left; congruence|].
    destruct (decide (name = store.n_name r')); [left; assumption|].
    right. split; [assumption|]. apply Hbound, Hin.
  - exists r. split; [|tauto]. unfold rows_named, node_rows. cbn.
    rewrite <- Hname. apply filter_unique; assumption.
Qed.

Lemma getNodeID_inv name uid : stable nodes_inv (getNodeID name uid).
Proof.
  intros w Hinv. destruct (nodes (self w) !! name) as [id|] eqn:Hc.
  - rewrite (getNodeID_hit _ _ _ _ Hc). exact Hinv.
  - rewrite (getNodeID_miss _ _ _ Hc). cbn zeta.
    destruct (store.UpsertNode _ _ _ _) as [[id db']|] eqn:Hup; cbn.
    + eapply upsert_node_inv in Hup as [Hinv' _]; eauto.
    + exact Hinv.
Qed.

End node_resolution.

(** ** No second row for a name *)
Section nodes_invariant.
Import syncer.

Lemma nodes_inv_view s s' :
  nodes_view s' = nodes_view s -> nodes_inv s -> nodes_inv s'.
Proof.
  unfold nodes_view, nodes_inv, node_rows. intros [= Ht Hc].
  rewrite Ht, Hc. trivial.
Qed.

Lemma frame_inv {A} (c : M A) :
  (forall v, stable (fun s => nodes_view s = v) c) -> stable nodes_inv c.
Proof.
  intros Hc w Hinv. apply (nodes_inv_view (self w)); [|exact Hinv].
  apply (Hc (nodes_view (self w))). reflexivity.
Qed.

Lemma syncPod_unfold pod w :
  syncPod pod w =
  let '(nsID, wa) := getNamespaceID (pod_Namespace pod) w in
  if nsID =? 0 then (tt, wa)
  else if negb (String.eqb (pod_NodeName pod) "") then
    let '(nodeID, wb) := getNodeID (pod_NodeName pod) "" wa in
    if nodeID =? 0 then (tt, wb) else syncPod_upsert pod nsID nodeID wb
  else (tt, wa).
Proof.
  unfold syncPod, mbind, M_bind.
  destruct (getNamespaceID _ w) as [nsID wa].
  destruct (nsID =? 0); [reflexivity|].
  destruct (negb _); [|reflexivity].
  destruct (getNodeID _ _ wa) as [nodeID wb].
  destruct (nodeID =? 0); reflexivity.
Qed.

Lemma syncPod_inv pod : stable nodes_inv (syncPod pod).
Proof.
  intros w Hinv. rewrite syncPod_unfold.
  pose proof (frame_inv _ (fun v => getNamespaceID_nodes v (pod_Namespace pod))
                w Hinv) as Ha.
  destruct (getNamespaceID _ w) as [nsID wa]. cbn [snd] in Ha.
  destruct (nsID =? 0); [exact Ha|].
  destruct (negb _); [|exact Ha].
  pose proof (getNodeID_inv (pod_NodeName pod) "" wa Ha) as Hb.
  destruct (getNodeID _ _ wa) as [nodeID wb]. cbn [snd] in Hb.
  destruct (nodeID =? 0); [exact Hb|].
  apply (frame_inv _ (fun v => syncPod_upsert_nodes v pod nsID nodeID)), Hb.
Qed.

Lemma syncObject_inv obj : stable nodes_inv (syncObject obj).
Proof.
  destruct obj; cbn.
  - unfold syncNode. apply stable_bind; [apply getNodeID_inv|].
    intros _. apply stable_ret.
  - apply syncPod_inv.
  - apply frame_inv. intros v. apply syncPVC_nodes.
  - apply frame_inv. intros v. apply syncDeployment_nodes.
  - apply frame_inv. intros v. apply syncStatefulSet_nodes.
  - apply frame_inv. intros v. apply syncDaemonSet_nodes.
  - apply frame_inv. intros v. apply syncReplicaSet_nodes.
  - apply stable_ret.
Qed.

Lemma syncAll_inv objs : stable nodes_inv (syncAll objs).
Proof.
  induction objs as [|o objs IH]; cbn.
  - apply stable_ret.
  - apply stable_bind; [apply syncObject_inv | intros _; exact IH].
Qed.

Lemma nodes_inv_new db :
  store.rows (store.nodes db) = [] -> nodes_inv (NewResourceSyncer db).
Proof.
  intros Hrows. unfold nodes_inv, node_rows. cbn. rewrite Hrows.
  repeat split; try constructor. intros r [].
Qed.

End nodes_invariant.

(** C1 (amended). Stub-to-real node reconciliation, for handlers that
    run one after another on a syncer whose nodes table has unique uids
    and unique names, the name of every row bound in the nodes cache (as
    in every state such a syncer reaches from a store whose nodes table
    is empty): when a Pod event names a node the cache has not seen and
    the stub path binds that name to an id, the table holds exactly one
    row for the name, with that id and the uid "stub-" + name. A Node
    event for the same name that follows is answered from the cache: it
    executes no statement and changes nothing, so the row keeps its stub
    uid and the cache keeps the id. Whatever events follow, handled one
    after another, no two rows of the nodes table share a name. *)
Theorem stub_then_real_node (w : syncer.World) (pod : syncer.Pod)
    (n : syncer.Node) (id : Z) :
  let name := syncer.node_Name n in
  let w1 := snd (syncer.syncPod pod w) in
  let w2 := snd (syncer.syncNode n w1) in
  nodes_inv (syncer.self w) ->
  syncer.pod_NodeName pod = name ->
  syncer.nodes (syncer.self w) !! name = None ->
  syncer.nodes (syncer.self w1) !! name = Some id ->
  (exists r, rows_named name (syncer.self w1) = [r]
             /\ store.n_id r = id
             /\ store.n_uid r = "stub-" ++ name)
  /\ w2 = w1
  /\ syncer.nodes (syncer.self w2) !! name = Some id
  /\ forall objs,
       List.NoDup (map store.n_name
                     (node_rows (syncer.self (snd (syncer.syncAll objs w2))))).
Proof.
  intros name w1 w2 Hinv Hpod Hmiss Hbound.
  assert (Hw2 : w2 = w1).
  { subst w2. unfold syncer.syncNode, mbind, syncer.M_bind.
    fold name. rewrite (getNodeID_hit _ _ _ _ Hbound). reflexivity. }
  assert (Hinv1 : nodes_inv (syncer.self w1)) by (apply syncPod_inv, Hinv).
  split; [|split; [exact Hw2|split]].
  - subst w1. rewrite syncPod_unfold in Hbound |- *.
    pose proof (getNamespaceID_nodes (nodes_view (syncer.self w))
                  (syncer.pod_Namespace pod) w eq_refl) as Hview.
    destruct (syncer.getNamespaceID _ w) as [nsID wa]. cbn [snd] in Hview.
    assert (Hmiss_a : syncer.nodes (syncer.self wa) !! name = None).
    { injection Hview as _ ->. exact Hmiss. }
    assert (Hinv_a : nodes_inv (syncer.self wa))
      by (eapply nodes_inv_view; eauto).
    destruct (nsID =? 0); [cbn in Hbound; congruence|].
    rewrite Hpod in *.
    destruct (negb _); [|cbn in Hbound; congruence].
    rewrite (getNodeID_miss _ _ _ Hmiss_a) in Hbound |- *. cbn zeta in *.
    rewrite String.eqb_refl in *.
    destruct (store.UpsertNode _ _ _ _) as [[id' db']|] eqn:Hup;
      [|cbn in Hbound; congruence].
    destruct (upsert_node_inv _ _ _ _ _ _ Hinv_a Hmiss_a Hup)
      as (_ & r & Hrows & Hid & Huid).
    set (wb := syncer.mkWorld _ _) in *.
    assert (Hview_b :
      nodes_view (syncer.self (snd (if id' =? 0 then (tt, wb)
        else syncer.syncPod_upsert pod nsID id' wb)))
      = nodes_view (syncer.self wb)).
    { destruct (id' =? 0); [reflexivity|].
      apply (syncPod_upsert_nodes (nodes_view (syncer.self wb))).
      reflexivity. }
    injection Hview_b as Ht Hc. rewrite Hc in Hbound. cbn in Hbound.
    rewrite lookup_insert_eq in Hbound. injection Hbound as <-.
    exists r. unfold rows_named, node_rows. rewrite Ht.
    split; [exact Hrows | split; assumption].
  - rewrite Hw2. exact Hbound.
  - intros objs. rewrite Hw2. apply (syncAll_inv objs w1 Hinv1).
Qed.

(** The premise on the table and the cache holds in every state that a
    syncer started on a store with an empty nodes table reaches by
    events handled one after another. *)
Lemma reachable_nodes_inv (db : store.DB) (envs : list store.Env)
    (objs : list syncer.Object) :
  store.rows (store.nodes db) = [] ->
  nodes_inv
    (syncer.self
       (snd (syncer.syncAll objs
               (syncer.mkWorld (syncer.NewResourceSyncer db) envs)))).
Proof. intros Hrows. apply syncAll_inv, nodes_inv_new. exact Hrows. Qed.

(** A new syncer over a store that already holds the stub row starts
    with an empty cache: there the Node event inserts a row of its own. *)
Example restart_second_row :
  let db := syncer.sqlite
              (syncer.self (snd (syncer.syncPod demo_pod (world0 [])))) in
  let w := syncer.mkWorld (syncer.NewResourceSyncer db) [] in
  node_rows (syncer.self (snd (syncer.syncNode demo_node w)))
  = [store.mkNodeRow 1 "stub-host-1" "host-1" 0;
     store.mkNodeRow 2 "n-1" "host-1" 0].
Proof. vm_compute. reflexivity. Qed.

(** Two handlers that resolve the same node name at once, the Pod
    handler without a uid and the Node handler with the real one: both
    miss the cache before either upserts, and each inserts a row of its
    own. *)
Example overlapped_second_row :
  let w := snd (syncer.getNodeID_overlapped "host-1" "" "n-1" (world0 [])) in
  node_rows (syncer.self w)
  = [store.mkNodeRow 1 "stub-host-1" "host-1" 0;
     store.mkNodeRow 2 "n-1" "host-1" 0]
  /\ syncer.nodes (syncer.self w) !! "host-1" = Some 2.
Proof. vm_compute. split; reflexivity. Qed.

(** ** Steps that leave the pods table and cache alone *)
Section pods_frame.
Import syncer.
Context (v : store.Table store.PodRow * gmap string Z).

Local Abbreviation keeps := (stable (fun s => pods_view s = v)).

Local Ltac by_frame lem :=
  apply stable_exec;
  let H := fresh "Hstmt" in
  let Hs := fresh "Hs" in
  let Hp := fresh "Hp" in
  intros ? ? ? ? H Hs; apply lem in H as [_ Hp];
  unfold pods_view in *; cbn; rewrite Hp; exact Hs.

Lemma getNamespaceID_pods name : keeps (getNamespaceID name).
Proof.
  unfold getNamespaceID. repeat stable_step.
  - by_frame UpsertNamespace_frame.
  - apply stable_modify. intros s Hs. exact Hs.
Qed.

Lemma getNodeID_pods name uid : keeps (getNodeID name uid).
Proof.
  unfold getNodeID, nodes_read, nodes_fill. repeat stable_step.
  - by_frame UpsertNode_frame.
  - apply stable_modify. intros s Hs. exact Hs.
Qed.

End pods_frame.

(** ** Pod rows are written resolved *)
Section pod_rows.
Import syncer.

Lemma upsert_Forall {R} (P : R -> Prop) conflict update new id_of
    (t t' : store.Table R) id :
  (forall r, P (update r)) -> (forall i, P (new i)) ->
  store.upsert conflict update new id_of t = Some (id, t') ->
  Forall P (store.rows t) -> Forall P (store.rows t').
Proof.
  intros Hupd Hnew. unfold store.upsert.
  destruct (max_int64 <=? store.seq t); [discriminate|]. cbv zeta.
  destruct (find conflict (store.rows t)).
  - intros [= _ <-] Hall. cbn. apply Forall_forall. intros x Hx.
    apply list_elem_of_In, in_map_iff in Hx as (y & <- & Hy).
    destruct (conflict y); [apply Hupd|].
    revert Hy. rewrite <- list_elem_of_In. revert y. apply Forall_forall, Hall.
  - intros [= _ <-] Hall. cbn. apply Forall_app. split; [exact Hall|].
    constructor; [apply Hnew | constructor].
Qed.

Lemma syncPod_owners_resolved os l : stable pods_resolved (syncPod_owners os l).
Proof.
  revert l. induction os as [|o os IH]; intros l; cbn.
  - apply stable_ret.
  - destruct l as [[dep sts] ds]. repeat stable_step; apply IH.
Qed.

Lemma syncPod_upsert_resolved pod nsID nodeID :
  nsID <> 0 -> nodeID <> 0 ->
  stable pods_resolved (syncPod_upsert pod nsID nodeID).
Proof.
  intros Hns Hnode. unfold syncPod_upsert.
  apply stable_bind; [apply syncPod_owners_resolved|].
  intros [[dep sts] ds]. repeat stable_step.
  - apply stable_exec. intros e s a db' Hstmt Hs.
    unfold pods_resolved in *. cbn.
    unfold store.UpsertPod in Hstmt.
    destruct (store.fault e); [discriminate|].
    destruct (store.foreign_keys e && _); [discriminate|].
    destruct (store.upsert _ _ _ _ _) as [[i t]|] eqn:Hup; [|discriminate].
    injection Hstmt as _ <-. cbn.
    eapply upsert_Forall in Hup; eauto; cbn; auto.
  - apply stable_modify. intros s Hs. exact Hs.
Qed.

Lemma pods_resolved_view s s' :
  pods_view s' = pods_view s -> pods_resolved s -> pods_resolved s'.
Proof. unfold pods_view, pods_resolved. intros [= -> _]. trivial. Qed.

End pod_rows.

(** C6 (amended). Pod upsert precondition. A Pod event never writes a
    pod row with namespace_id 0 or node_id 0: if every pod row is
    resolved before the event, every pod row is resolved after it. When
    namespace resolution returns 0, when spec.node_name is unset, and
    when node resolution returns 0, the pods table and the pods cache
    are left as they were. *)
Theorem pod_upsert_precondition (w : syncer.World) (pod : syncer.Pod) :
  let '(nsID, wa) := syncer.getNamespaceID (syncer.pod_Namespace pod) w in
  let '(nodeID, wb) := syncer.getNodeID (syncer.pod_NodeName pod) "" wa in
  let w1 := snd (syncer.syncPod pod w) in
  (pods_resolved (syncer.self w) -> pods_resolved (syncer.self w1))
  /\ (nsID = 0 \/ syncer.pod_NodeName pod = "" \/ nodeID = 0 ->
      pods_view (syncer.self w1) = pods_view (syncer.self w)).
Proof.
  rewrite syncPod_unfold.
  pose proof (getNamespaceID_pods (pods_view (syncer.self w))
                (syncer.pod_Namespace pod) w eq_refl) as Ha.
  destruct (syncer.getNamespaceID _ w) as [nsID wa]. cbn [snd] in Ha.
  pose proof (getNodeID_pods (pods_view (syncer.self wa))
                (syncer.pod_NodeName pod) "" wa eq_refl) as Hb.
  destruct (syncer.getNodeID _ _ wa) as [nodeID wb]. cbn [snd] in Hb.
  destruct (Z.eqb_spec nsID 0) as [Hns|Hns]; cbn [snd].
  { split; [intros H; eapply pods_resolved_view; eauto | auto]. }
  destruct (String.eqb_spec (syncer.pod_NodeName pod) "") as [Hnn|Hnn];
    cbn [negb snd].
  { split; [intros H; eapply pods_resolved_view; eauto | auto]. }
  destruct (Z.eqb_spec nodeID 0) as [Hnode|Hnode]; cbn [snd].
  { split; [intros H; eapply pods_resolved_view; [|exact H]; congruence
           | intros _; congruence]. }
  split; [|intros [?|[?|?]]; contradiction].
  intros H. apply syncPod_upsert_resolved; try assumption.
  eapply pods_resolved_view; [|exact H]. congruence.
Qed.

(** ** Strings *)
Section string_facts.

Lemma append_cons x (a b : string) : String x a ++ b = String x (a ++ b).
Proof. reflexivity. Qed.

Lemma append_nil_l (b : string) : "" ++ b = b.
Proof. reflexivity. Qed.

Lemma CutPrefix_spec s p rest :
  gostrings.CutPrefix s p = Some rest <-> s = p ++ rest.
Proof.
  revert s. induction p as [|a p IH]; intros s; cbn.
  - rewrite append_nil_l.
    split; [intros [= ->]; reflexivity | intros ->; reflexivity].
  - rewrite append_cons. destruct s as [|b s]; [split; discriminate|].
    destruct (Ascii.eqb_spec a b) as [->|Hne].
    + rewrite IH. split; [intros ->; reflexivity | intros [= ->]; reflexivity].
    + split; [discriminate | intros [= Hab _]; congruence].
Qed.

Lemma CutPrefix_app p rest : gostrings.CutPrefix (p ++ rest) p = Some rest.
Proof. apply CutPrefix_spec. reflexivity. Qed.

Lemma append_assoc (a b c : string) : (a ++ b) ++ c = a ++ (b ++ c).
Proof.
  induction a as [|x a IH]; [reflexivity|].
  rewrite !append_cons, IH. reflexivity.
Qed.

Lemma append_nil_r (a : string) : a ++ "" = a.
Proof.
  induction a as [|x a IH]; [reflexivity|].
  rewrite append_cons, IH. reflexivity.
Qed.

Lemma length_append (a b : string) :
  String.length (a ++ b) = (String.length a + String.length b)%nat.
Proof.
  induction a as [|x a IH]; [reflexivity|].
  rewrite append_cons. cbn. rewrite IH. reflexivity.
Qed.

Lemma substring_prefix (a b : string) :
  substring 0 (String.length a) (a ++ b) = a.
Proof.
  induction a as [|x a IH].
  - rewrite append_nil_l. destruct b; reflexivity.
  - rewrite append_cons. cbn. rewrite IH. reflexivity.
Qed.



Lemma Contains_spec s sub :
  gostrings.Contains s sub = true <-> exists pre post, s = pre ++ sub ++ post.
Proof.
  induction s as [|c s IH]; cbn.
  - rewrite orb_false_r. unfold gostrings.HasPrefix.
    destruct (gostrings.CutPrefix "" sub) as [rest|] eqn:Hcut.
    + apply CutPrefix_spec in Hcut. split; [|reflexivity].
      intros _. exists "", rest. exact Hcut.
    + split; [discriminate|]. intros (pre & post & Heq).
      destruct pre; [|discriminate]. rewrite append_nil_l in Heq.
      apply CutPrefix_spec in Heq. congruence.
  - rewrite orb_true_iff, IH. unfold gostrings.HasPrefix.
    destruct (gostrings.CutPrefix (String c s) sub) as [rest|] eqn:Hcut.
    + apply CutPrefix_spec in Hcut. split; [|auto].
      intros _. exists "", rest. exact Hcut.
    + split.
      * intros [|(pre & post & ->)]; [discriminate|].
        exists (String c pre), post. reflexivity.
      * intros (pre & post & Heq). right. destruct pre as [|x pre].
        -- rewrite append_nil_l in Heq.
           apply CutPrefix_spec in Heq. congruence.
        -- rewrite append_cons in Heq. injection Heq as -> ->. eauto.
Qed.

End string_facts.

(** ** The two patterns *)
Section regexp_facts.
Import goregexp.


Lemma m_repeat_class {A} n p pos s cap
    (k : nat -> string -> option string -> option A) :
  m (Repeat n (Class p)) pos s cap k
  = match take_run p n s with
    | Some rest => k (pos + n)%nat rest cap
    | None => None
    end.
Proof.
  revert pos s. induction n as [|n IH]; intros pos s.
  - cbn. rewrite Nat.add_0_r. reflexivity.
  - cbn in IH |- *. destruct s as [|c s]; [reflexivity|].
    destruct (p c); [|reflexivity].
    rewrite IH, Nat.add_succ_r. reflexivity.
Qed.

Lemma take_run_spec p n s rest :
  take_run p n s = Some rest <-> exists a, s = a ++ rest /\ run_of p n a.
Proof.
  revert s. induction n as [|n IH]; intros s; cbn.
  - split.
    + intros [= ->]. exists "". repeat split.
    + intros (a & -> & Hlen & _). destruct a; [reflexivity|discriminate].
  - destruct s as [|c s].
    + split; [discriminate|]. intros (a & Heq & Hlen & _).
      destruct a; discriminate.
    + destruct (p c) eqn:Hc.
      * rewrite IH. split.
        -- intros (a & -> & Hlen & Hall). exists (String c a).
           unfold run_of. cbn. rewrite Hc, Hall, Hlen. auto.
        -- intros (a & Heq & Hlen & Hall). destruct a as [|x a];
             [discriminate|]. rewrite append_cons in Heq.
           injection Heq as <- ->. cbn in Hlen, Hall.
           rewrite Hc in Hall. exists a. unfold run_of. auto.
      * split; [discriminate|]. intros (a & Heq & Hlen & Hall).
        destruct a as [|x a]; [discriminate|].
        rewrite append_cons in Heq. injection Heq as <- ->.
        cbn in Hall. rewrite Hc in Hall. discriminate.
Qed.

End regexp_facts.

Section uuid_pattern.
Import goregexp ingest.

Lemma m_Cat {A} r1 r2 pos s cap
    (k : nat -> string -> option string -> option A) :
  m (Cat r1 r2) pos s cap k
  = m r1 pos s cap (fun pos' s' cap' => m r2 pos' s' cap' k).
Proof. reflexivity. Qed.

Lemma m_Lit {A} l pos s cap
    (k : nat -> string -> option string -> option A) :
  m (Lit l) pos s cap k
  = match gostrings.CutPrefix s l with
    | Some s' => k (pos + String.length l)%nat s' cap
    | None => None
    end.
Proof. reflexivity. Qed.

Lemma m_Bot {A} s cap (k : nat -> string -> option string -> option A) :
  m Bot 0 s cap k = k 0%nat s cap.
Proof. reflexivity. Qed.

Lemma m_Group {A} r pos s cap
    (k : nat -> string -> option string -> option A) :
  m (Group r) pos s cap k
  = m r pos s cap
      (fun pos' s' _ => k pos' s' (Some (substring 0 (pos' - pos) s))).
Proof. reflexivity. Qed.

Lemma m_uuid {A} pos s cap
    (k : nat -> string -> option string -> option A) :
  m uuidRegex pos s cap k
  = match cut_uuid s with
    | Some rest => k (pos + 36)%nat rest cap
    | None => None
    end.
Proof.
  unfold uuidRegex, cut_uuid.
  repeat (rewrite m_Cat;
          first [rewrite m_repeat_class | rewrite m_Lit];
          match goal with
          | |- context [take_run ?p ?n ?x] =>
              destruct (take_run p n x); cbn [mbind option_bind];
              [|reflexivity]
          | |- context [gostrings.CutPrefix ?x ?l] =>
              destruct (gostrings.CutPrefix x l); cbn [mbind option_bind];
              [|reflexivity]
          end).
  rewrite m_repeat_class. destruct (take_run _ _ _); [|reflexivity].
  f_equal. cbn. lia.
Qed.

Lemma take_run_app p n a rest :
  run_of p n a -> take_run p n (a ++ rest) = Some rest.
Proof. intros Ha. apply take_run_spec. eauto. Qed.

Lemma cut_uuid_spec s rest :
  cut_uuid s = Some rest <-> exists u, is_uuid u /\ s = u ++ rest.
Proof.
  unfold cut_uuid. split.
  - intros H.
    repeat match type of H with
           | (?x ≫= _) = Some _ =>
               let E := fresh "E" in
               destruct x eqn:E; cbn [mbind option_bind] in H;
               [|discriminate]
           end.
    repeat match goal with
           | E : take_run _ _ _ = Some _ |- _ =>
               apply take_run_spec in E as (? & -> & ?)
           | E : gostrings.CutPrefix _ _ = Some _ |- _ =>
               apply CutPrefix_spec in E as ->
           end.
    match goal with
    | |- exists u, _ /\ ?a ++ "-" ++ ?b ++ "-" ++ ?c ++ "-" ++ ?d ++ "-"
                        ++ ?e ++ _ = _ =>
        exists (a ++ "-" ++ b ++ "-" ++ c ++ "-" ++ d ++ "-" ++ e)
    end.
    split; [unfold is_uuid; eauto 12|].
    rewrite !append_assoc. reflexivity.
  - intros (u & (a & b & c & d & e & -> & Ha & Hb & Hc & Hd & He) & ->).
    rewrite !append_assoc.
    rewrite (take_run_app _ _ _ _ Ha). cbn [mbind option_bind].
    rewrite CutPrefix_app. cbn [mbind option_bind].
    rewrite (take_run_app _ _ _ _ Hb). cbn [mbind option_bind].
    rewrite CutPrefix_app. cbn [mbind option_bind].
    rewrite (take_run_app _ _ _ _ Hc). cbn [mbind option_bind].
    rewrite CutPrefix_app. cbn [mbind option_bind].
    rewrite (take_run_app _ _ _ _ Hd). cbn [mbind option_bind].
    rewrite CutPrefix_app. cbn [mbind option_bind].
    apply take_run_app, He.
Qed.

Lemma is_uuid_length u : is_uuid u -> String.length u = 36%nat.
Proof.
  intros (a & b & c & d & e & -> & [Ha _] & [Hb _] & [Hc _] & [Hd _]
          & [He _]).
  rewrite !length_append, Ha, Hb, Hc, Hd, He. reflexivity.
Qed.

End uuid_pattern.

Section volume_pattern.
Import goregexp ingest.

Let K : nat -> string -> option string -> option (nat * option string) :=
  fun pos' _ cap => Some (pos', cap).

Lemma m_pvc v :
  m pvcVolumeRegex 0 v None K
  = match gostrings.CutPrefix v "pvc-" with
    | Some s1 =>
        match cut_uuid s1 with
        | Some EmptyString => Some (40%nat, Some (substring 0 36 s1))
        | _ => None
        end
    | None => None
    end.
Proof.
  unfold pvcVolumeRegex. rewrite m_Cat, m_Bot.
  rewrite m_Cat, m_Lit. destruct (gostrings.CutPrefix v "pvc-") as [s1|];
    [|reflexivity].
  rewrite m_Cat, m_Group, m_uuid.
  destruct (cut_uuid s1) as [[|c rest]|]; reflexivity.
Qed.

Lemma find_from_pvc_later pos s :
  pos <> 0%nat -> find_from pvcVolumeRegex pos s = None.
Proof.
  revert pos. induction s as [|c s IH]; intros pos Hpos;
    destruct pos as [|pos]; try contradiction; cbn.
  - reflexivity.
  - apply IH. discriminate.
Qed.

(** A volume name matches the pattern exactly when it is "pvc-"
    followed by a UID, and the group is that UID. *)
Lemma pvc_match u :
  is_uuid u ->
  FindStringSubmatch pvcVolumeRegex ("pvc-" ++ u) = ["pvc-" ++ u; u].
Proof.
  intros Hu. unfold FindStringSubmatch.
  assert (Hcut : cut_uuid u = Some "").
  { apply cut_uuid_spec. exists u. rewrite append_nil_r. auto. }
  assert (Hm : m pvcVolumeRegex 0 ("pvc-" ++ u) None K
               = Some (40%nat, Some u)).
  { rewrite m_pvc, CutPrefix_app, Hcut.
    pose proof (substring_prefix u "") as Hsub.
    rewrite append_nil_r, (is_uuid_length u Hu) in Hsub.
    rewrite Hsub. reflexivity. }
  assert (Hf : find_from pvcVolumeRegex 0 ("pvc-" ++ u)
               = Some (0%nat, 40%nat, Some u)).
  { change ("pvc-" ++ u) with (String "p" ("vc-" ++ u)) in *.
    cbn [find_from]. fold K. rewrite Hm. reflexivity. }
  rewrite Hf. f_equal.
  pose proof (substring_prefix ("pvc-" ++ u) "") as Hsub.
  rewrite append_nil_r, length_append, (is_uuid_length u Hu) in Hsub.
  exact Hsub.
Qed.

Lemma pvc_no_match v :
  (forall u, is_uuid u -> v <> "pvc-" ++ u) ->
  FindStringSubmatch pvcVolumeRegex v = [].
Proof.
  intros Hv. unfold FindStringSubmatch.
  assert (Hm : m pvcVolumeRegex 0 v None K = None).
  { rewrite m_pvc.
    destruct (gostrings.CutPrefix v "pvc-") as [s1|] eqn:Hcut;
      [|reflexivity].
    apply CutPrefix_spec in Hcut.
    destruct (cut_uuid s1) as [[|c rest]|] eqn:Hu; try reflexivity.
    apply cut_uuid_spec in Hu as (u & Hu & ->).
    rewrite append_nil_r in Hcut. destruct (Hv u Hu Hcut). }
  destruct v as [|c v]; cbn [find_from]; fold K; rewrite Hm.
  - reflexivity.
  - rewrite find_from_pvc_later by discriminate. reflexivity.
Qed.

End volume_pattern.

Section pod_pattern.
Import goregexp ingest.

Let K : nat -> string -> option string -> option (nat * option string) :=
  fun pos' _ cap => Some (pos', cap).




End pod_pattern.

(** ** The ingestion endpoint *)

(** C2, as the claim states it, fails: a sample with key "mem_mb" and a
    volume name is treated as a volume metric (here it even resolves as
    a PVC), although its key is none of the four listed; and a sample
    with key "pvc_usage" and no volume name is treated as a volume
    metric too, so that its pod_id is not decoded. *)
Lemma volume_classification_counterexample :
  (ingest.isVolumeMetric raw_mem_with_volume = true
   /\ ingest.resolveUID raw_mem_with_volume = (demo_uuid, "pvc")
   /\ ~ In (ingest.Key raw_mem_with_volume)
           ["pvc_usage"; "total_mb"; "used_mb"; "free_mb"])
  /\ (ingest.isVolumeMetric raw_usage_no_volume = true
      /\ ingest.resolveUID raw_usage_no_volume = ("", "pod")
      /\ ingest.Volume raw_usage_no_volume = "").
Proof.
  repeat split; try reflexivity.
  cbn. intros [H|[H|[H|[H|[]]]]]; discriminate.
Qed.

(** C2 (amended). Ingest volume/PVC classification: a metric is treated
    as a volume/PVC metric exactly when its key is "pvc_usage", or its
    key contains "_mb" and its volume is not empty. For such a metric,
    a volume of the form "pvc-" + UID (lowercase hex groups of 8, 4, 4, 4
    and 12 digits) resolves to that UID with kind "pvc"; any other volume
    falls back to pod_uid with kind "pod", and with an empty pod_uid the
    metric resolves to no resource (id 0). *)
Theorem volume_classification (raw : ingest.RawMetric) :
  (ingest.isVolumeMetric raw = true <->
     ingest.Key raw = "pvc_usage"
     \/ ((exists pre post, ingest.Key raw = pre ++ "_mb" ++ post)
         /\ ingest.Volume raw <> ""))
  /\ (ingest.isVolumeMetric raw = true ->
      (forall u, is_uuid u -> ingest.Volume raw = "pvc-" ++ u ->
                 ingest.resolveUID raw = (u, "pvc"))
      /\ ((forall u, is_uuid u -> ingest.Volume raw <> "pvc-" ++ u) ->
          ingest.resolveUID raw = (ingest.PodUID raw, "pod")
          /\ (ingest.PodUID raw = "" ->
              forall (T : Type) (R : ingest.IDResolver T) (res : T),
                ingest.resolveID res raw = 0))).
Proof.
  split.
  - unfold ingest.isVolumeMetric.
    rewrite orb_true_iff, andb_true_iff, String.eqb_eq, Contains_spec,
      negb_true_iff, String.eqb_neq. reflexivity.
  - intros Hvol. unfold ingest.resolveID, ingest.resolveUID. rewrite Hvol.
    split.
    + intros u Hu ->. rewrite (pvc_match u Hu). reflexivity.
    + intros Hno. rewrite (pvc_no_match _ Hno). cbn.
      destruct (String.eqb_spec (ingest.PodUID raw) "") as [->|Hne]; cbn.
      * split; [reflexivity|]. reflexivity.
      * split; [reflexivity|]. intros Heq. contradiction.
Qed.

Lemma demo_uuid_is_uuid : is_uuid demo_uuid.
Proof.
  exists "11111111", "2222", "3333", "4444", "555555555555".
  repeat split.
Qed.

(** The PVC sample of scenario S4 resolves to the UID in its volume. *)
Lemma volume_classification_witness :
  ingest.resolveUID raw_pvc = (demo_uuid, "pvc").
Proof.
  exact (proj1 (proj2 (volume_classification raw_pvc) eq_refl)
           demo_uuid demo_uuid_is_uuid eq_refl).
Defined.



Section time_facts.

Lemma wrap64_small z : - 2 ^ 63 <= z < 2 ^ 63 -> wrap64 z = z.
Proof.
  intros Hz. unfold wrap64. rewrite Z.mod_small; lia.
Qed.

Lemma wrap64_shift z k : wrap64 (wrap64 (z + k) - k) = wrap64 z.
Proof.
  unfold wrap64.
  replace ((z + k + 2 ^ 63) mod 2 ^ 64 - 2 ^ 63 - k + 2 ^ 63)
    with ((z + k + 2 ^ 63) mod 2 ^ 64 - k) by lia.
  rewrite Zminus_mod_idemp_l. f_equal. f_equal. lia.
Qed.

(** The seconds of a sample are those of the metric it was built from. *)
Lemma ToUnix_Unix ts :
  - 2 ^ 63 <= ts < 2 ^ 63 -> gotime.ToUnix (gotime.Unix ts) = ts.
Proof.
  intros Hts. unfold gotime.ToUnix, gotime.Unix. cbn [gotime.sec].
  rewrite wrap64_shift. apply wrap64_small, Hts.
Qed.

End time_facts.

Lemma ingest_fold {T : Type} {R : ingest.IDResolver T} (res : T)
    (raws : list ingest.RawMetric) (b : buffer.RingBuffer) :
  fold_left (fun b raw => buffer.Add (ingest.toMetric res raw) b) raws b
  = buffer.AddAll (map (ingest.toMetric res) raws) b.
Proof.
  unfold buffer.AddAll. revert b.
  induction raws as [|raw raws IH]; intros b; cbn; [reflexivity | apply IH].
Qed.

(** For the syncer, a miss of the resolver is a miss of the cache of
    the kind. *)
Lemma syncer_miss (s : syncer.ResourceSyncer) (uid rType : string) :
  snd (ingest.GetResourceID s uid rType) = false
  <-> (if String.eqb rType "pvc" then syncer.pvcs s !! uid
       else syncer.pods s !! uid) = None.
Proof.
  unfold ingest.GetResourceID, ingest.syncer_IDResolver, syncer.GetResourceID.
  destruct (String.eqb rType "pvc");
    [destruct (syncer.pvcs s !! uid) | destruct (syncer.pods s !! uid)];
    cbn; split; congruence.
Qed.

(** C7, as the claim states it, fails on a full ring: the batch gets its
    202, but the sample of the unresolved metric is not appended. *)
Lemma resolution_miss_counterexample :
  let '(code, s') := ingest.HandleIngest full_server (post [raw_cgroup]) in
  ingest.resolveID (ingest.resolver full_server) raw_cgroup = 0
  /\ code = 202
  /\ buffer.ReadAll (ingest.buffer s') = [sample 1]
  /\ ~ In (ingest.toMetric (ingest.resolver full_server) raw_cgroup)
          (buffer.ReadAll (ingest.buffer s')).
Proof.
  vm_compute. repeat split. intros [H|[]]. discriminate.
Qed.

(** C7 (amended). Resolution-miss safety: every well-formed POST batch is
    answered 202, and each of its metrics is handed to the ring window's
    add, in order. For a metric whose UID could not be determined, or is
    not known to the resolver, the sample handed over has resource id 0
    and the metric's key, value and timestamp. The ring appends the
    samples for which it has room and drops the others; when it has room
    for the whole batch, all of them are appended, in arrival order. *)
Theorem resolution_miss_safety {T : Type} {R : ingest.IDResolver T}
    (s : ingest.IngestionServer T) (req : ingest.IngestRequest) :
  let '(code, s') :=
    ingest.HandleIngest s (ingest.mkRequest "POST" (Some req)) in
  let offered := map (ingest.toMetric (ingest.resolver s))
                     (ingest.Metrics req) in
  code = 202
  /\ ingest.buffer s' = buffer.AddAll offered (ingest.buffer s)
  /\ (forall raw, In raw (ingest.Metrics req) ->
        fst (ingest.resolveUID raw) = ""
        \/ snd (ingest.GetResourceID (ingest.resolver s)
                  (fst (ingest.resolveUID raw))
                  (snd (ingest.resolveUID raw))) = false ->
        ingest.toMetric (ingest.resolver s) raw
        = buffer.mkMetric (gotime.Unix (ingest.Timestamp raw)) 0
                          (ingest.Key raw) (ingest.Value raw)
        /\ (- 2 ^ 63 <= ingest.Timestamp raw < 2 ^ 63 ->
            gotime.ToUnix (gotime.Unix (ingest.Timestamp raw))
            = ingest.Timestamp raw))
  /\ (buffer.len (buffer.ReadAll (ingest.buffer s)) + buffer.len offered
      <= buffer.maxSize (ingest.buffer s) ->
      buffer.ReadAll (ingest.buffer s')
      = (buffer.ReadAll (ingest.buffer s) ++ offered)%list).
Proof.
  cbn. rewrite ingest_fold. split; [reflexivity|]. split; [reflexivity|]. split.
  - intros raw _ Hmiss. split; [|apply ToUnix_Unix].
    unfold ingest.toMetric, ingest.resolveID. f_equal.
    destruct (ingest.resolveUID raw) as [uid rType]. cbn in Hmiss.
    destruct Hmiss as [->|Hmiss]; [reflexivity|].
    destruct (negb _); [|reflexivity].
    destruct (ingest.GetResourceID _ uid rType) as [id ok]. cbn in Hmiss.
    rewrite Hmiss. reflexivity.
  - intros Hroom. unfold buffer.ReadAll in *. rewrite AddAll_metrics. f_equal.
    apply firstn_all2. unfold buffer.len in *. lia.
Qed.

(** With room in the ring the unresolved sample is appended. *)
Lemma resolution_miss_safety_witness :
  buffer.ReadAll
    (ingest.buffer (snd (ingest.HandleIngest roomy_server (post [raw_cgroup]))))
  = [sample 1;
     buffer.mkMetric (gotime.Unix 1000) 0 "cpu_ms" (S754_finite false 123 0)].
Proof.
  refine (proj2 (proj2 (proj2
            (resolution_miss_safety roomy_server
               (ingest.mkIngestRequest "host-1" [raw_cgroup])))) _).
  vm_compute. discriminate.
Defined.

(** ** The live view *)
Section live_facts.
Import api.

Lemma is_active_insert (acc : gmap Z bool) i id :
  is_active (<[i := true]> acc) id = true
  <-> i = id \/ is_active acc id = true.
Proof.
  unfold is_active. destruct (decide (i = id)) as [->|Hne].
  - rewrite lookup_insert_eq. tauto.
  - rewrite lookup_insert_ne by assumption. tauto.
Qed.

Lemma fresh_cons cutoff m ms id :
  fresh cutoff (m :: ms) id
  <-> (gotime.After (buffer.Time m) cutoff
       && (0 <? buffer.ResourceID m) = true
       /\ buffer.ResourceID m = id)
      \/ fresh cutoff ms id.
Proof.
  unfold fresh. rewrite andb_true_iff, Z.ltb_lt. split.
  - intros (Hid & m' & [<-|Hin] & Hres & Ha).
    + left. repeat split; [exact Ha | lia | exact Hres].
    + right. split; [exact Hid|]. exists m'. auto.
  - intros [((Ha & Hpos) & Hres)|(Hid & m' & Hin & Hm')].
    + split; [lia|]. exists m. cbn. auto.
    + split; [exact Hid|]. exists m'. cbn. tauto.
Qed.

Lemma active_fold cutoff ms (acc : gmap Z bool) id :
  is_active
    (fold_left (fun acc m =>
                  if gotime.After (buffer.Time m) cutoff
                     && (0 <? buffer.ResourceID m)
                  then <[buffer.ResourceID m := true]> acc else acc)
               ms acc) id = true
  <-> is_active acc id = true \/ fresh cutoff ms id.
Proof.
  revert acc. induction ms as [|m ms IH]; intros acc; cbn [fold_left].
  - unfold fresh. split; [auto|]. intros [H|(_ & m & [] & _)]. exact H.
  - rewrite IH, fresh_cons.
    destruct (gotime.After (buffer.Time m) cutoff
              && (0 <? buffer.ResourceID m)).
    + rewrite is_active_insert. intuition.
    + intuition discriminate.
Qed.

Lemma activePodIDs_spec cutoff ms id :
  is_active (activePodIDs cutoff ms) id = true <-> fresh cutoff ms id.
Proof.
  unfold activePodIDs. rewrite active_fold. unfold is_active at 1.
  rewrite lookup_empty. split; [intros [H|H]; [discriminate | exact H] | auto].
Qed.

Lemma insert_by_name_In x y l :
  In y (insert_by_name x l) <-> y = x \/ In y l.
Proof.
  induction l as [|z l IH]; cbn; [intuition congruence|].
  destruct (String.leb _ _); cbn; rewrite ?IH; intuition congruence.
Qed.

Lemma order_by_name_In x l : In x (order_by_name l) <-> In x l.
Proof.
  unfold order_by_name.
  assert (H : forall acc, In x (fold_left (fun acc y => insert_by_name y acc)
                                          l acc)
                          <-> In x acc \/ In x l).
  { induction l as [|y l IH]; intros acc; cbn; [tauto|].
    rewrite IH, insert_by_name_In. intuition congruence. }
  rewrite H. cbn. tauto.
Qed.

Lemma aggregate_pvcs id cutoff ms acc :
  snd (fold_left (aggregate_step id cutoff) ms acc) = snd acc.
Proof.
  revert acc. induction ms as [|m ms IH]; intros acc; cbn [fold_left];
    [reflexivity|].
  rewrite IH. destruct acc as [cm pm]. unfold aggregate_step.
  repeat match goal with
         | |- context [if ?b then _ else _] => destruct b
         end; reflexivity.
Qed.

Lemma livePod_ID x cutoff ms :
  ID (livePod x cutoff ms) = let '(id, _, _, _, _, _) := x in id.
Proof.
  destruct x as [[[[[id name] uid] ns] node] dep]. unfold livePod.
  destruct (fold_left _ ms _). reflexivity.
Qed.

Lemma livePod_PVCs x cutoff ms : PVCs (livePod x cutoff ms) = [].
Proof.
  destruct x as [[[[[id name] uid] ns] node] dep]. unfold livePod.
  pose proof (aggregate_pvcs id cutoff ms (∅, ∅)) as Hp.
  destruct (fold_left _ ms _) as [cm pm]. cbn in Hp |- *. subst pm.
  rewrite map_to_list_empty. reflexivity.
Qed.

End live_facts.

(** C10. In every 200 response of the live view the pvcs list of every
    pod is empty: the aggregation never puts an entry into the map the
    list is built from. *)
Theorem live_pvcs_empty (s : api.Server) (r : api.Request)
    (now later : gotime.Time) (e : store.Env) (body : api.LiveMetricsResponse) :
  api.handleLiveMetrics s r now later e = api.OK body ->
  forall lp, In lp (api.Pods body) -> api.PVCs lp = [].
Proof.
  unfold api.handleLiveMetrics. intros Hresp lp Hin.
  destruct (negb _); [discriminate|].
  destruct (_ =? 0).
  - injection Hresp as <-. destruct Hin.
  - destruct (api.queryPods _ _ _) as [rows|]; [|discriminate].
    injection Hresp as <-. cbn in Hin.
    apply in_map_iff in Hin as (x & <- & _). apply livePod_PVCs.
Qed.

(** A window with a recent "used_mb" sample of the pod: no PVC entry. *)
Lemma live_pvcs_empty_witness :
  api.Pods live_body <> []
  /\ List.Forall (fun lp => api.PVCs lp = []) (api.Pods live_body).
Proof.
  split; [vm_compute; discriminate|].
  apply List.Forall_forall.
  apply (live_pvcs_empty live_server (get []) (gotime.Unix 1001)
           (gotime.Unix 1001) syncer.quiet live_body).
  vm_compute. reflexivity.
Defined.

Section live_query.
Import api.

Lemma queryPods_ids e conds db rows id :
  queryPods e conds db = Some rows ->
  (exists x : PodMeta, In x rows /\ (let '(i, _, _, _, _, _) := x in i) = id)
  <-> selected conds db id.
Proof.
  unfold queryPods. destruct (store.fault e); [discriminate|].
  intros [= <-]. unfold selected. split.
  - intros (x & Hx & Hid). apply (proj1 (order_by_name_In _ _)) in Hx.
    apply in_flat_map in Hx as (p & Hp & Hx).
    apply in_flat_map in Hx as (ns & Hns & Hx).
    apply in_flat_map in Hx as (n & Hn & Hx).
    apply filter_In in Hns as [Hns Hnsid]. apply filter_In in Hn as [Hn Hnid].
    destruct (forallb _ conds) eqn:Hconds; [|destruct Hx].
    apply in_map_iff in Hx as (dn & <- & _). cbn in Hid.
    exists p, ns, n. repeat split; auto; lia.
  - intros (p & ns & n & Hp & Hid & Hconds & Hns & Hnsid & Hn & Hnid).
    set (ds := List.filter (fun d => match store.p_deployment_id p with
                                     | Some i => store.o_id d =? i
                                     | None => false
                                     end)
                           (store.rows (store.deployments db))).
    set (dn := match ds with
               | [] => None
               | d :: _ => Some (store.o_name d)
               end).
    exists (store.p_id p, store.p_name p, store.p_uid p,
            store.ns_name ns, store.n_name n, dn).
    split; [|exact Hid]. apply (proj2 (order_by_name_In _ _)).
    apply in_flat_map. exists p. split; [exact Hp|].
    apply in_flat_map. exists ns.
    split; [apply filter_In; split; [exact Hns | lia]|].
    apply in_flat_map. exists n.
    split; [apply filter_In; split; [exact Hn | lia]|].
    rewrite Hconds. apply in_map_iff. exists dn. split; [reflexivity|].
    fold ds. subst dn. destruct ds; cbn; auto.
Qed.

(** In seconds: a sample is later than the cutoff when it is less than
    five seconds behind the second of the clock reading. *)
Lemma After_cutoff now ts :
  0 <= gotime.nsec now < gotime.Second ->
  - 2 ^ 63 <= ts + gotime.unixToInternal < 2 ^ 63 ->
  gotime.After (gotime.Unix ts) (gotime.Add now (-5 * gotime.Second)) = true
  <-> (gotime.sec now - gotime.unixToInternal) - ts < 5.
Proof.
  intros Hns Hts. unfold gotime.Unix. rewrite (wrap64_small _ Hts).
  unfold gotime.Add.
  change (Z.quot (-5 * gotime.Second) gotime.Second) with (-5).
  change (Z.rem (-5 * gotime.Second) gotime.Second) with 0.
  rewrite Z.add_0_r.
  destruct (Z.leb_spec gotime.Second (gotime.nsec now)); [lia|].
  destruct (Z.ltb_spec (gotime.nsec now) 0); [lia|].
  unfold gotime.After. cbn [gotime.sec gotime.nsec].
  rewrite orb_true_iff, andb_true_iff, !Z.ltb_lt. lia.
Qed.

End live_query.

(** C3, as the claim states it, fails at the boundary: the pod's most
    recent sample is exactly 5 seconds older than the response timestamp
    (1005 - 1000 <= 5), no filter is given, and the pod is not returned. *)
Lemma live_view_freshness_counterexample :
  api.handleLiveMetrics live_server (get []) (gotime.Unix 1005)
    (gotime.Unix 1005) syncer.quiet
  = api.OK (api.mkLive 1005 [])
  /\ map store.p_id (store.rows (store.pods (api.sqlite live_server))) = [1]
  /\ map (fun m => (buffer.ResourceID m, gotime.ToUnix (buffer.Time m)))
         (buffer.ReadAll (api.ring live_server))
     = [(1, 1000); (1, 1000)]
  /\ 1005 - 1000 <= 5.
Proof. vm_compute. repeat split. discriminate. Qed.

(** C3 (amended). Live-view freshness: a GET whose query does not fail
    is answered with the timestamp of the response and exactly the pods
    that pass the deployment/node/pod filters (and have their namespace
    and node rows) and have a sample in the ring window, under their id
    and not under resource 0, that is later than the clock reading minus
    5 seconds. A sample taken at second [ts] is that late when the second
    of the clock reading is less than 5 ahead of [ts]; a sample exactly
    5 seconds old does not count. *)
Theorem live_view_freshness (s : api.Server) (r : api.Request)
    (now later : gotime.Time) (e : store.Env) :
  api.Method r = "GET" ->
  store.fault e = false ->
  let cutoffTime := gotime.Add now (-5 * gotime.Second) in
  exists pods,
    api.handleLiveMetrics s r now later e
    = api.OK (api.mkLive (gotime.ToUnix later) pods)
    /\ (forall id,
          (exists lp, In lp pods /\ api.ID lp = id)
          <-> selected (api.whereClause r) (api.sqlite s) id
              /\ fresh cutoffTime (buffer.ReadAll (api.ring s)) id)
    /\ (forall ts,
          0 <= gotime.nsec now < gotime.Second ->
          - 2 ^ 63 <= ts + gotime.unixToInternal < 2 ^ 63 ->
          gotime.After (gotime.Unix ts) cutoffTime = true
          <-> (gotime.sec now - gotime.unixToInternal) - ts < 5).
Proof.
  intros Hget Hfault cutoffTime. unfold api.handleLiveMetrics.
  rewrite Hget. cbn [String.eqb Ascii.eqb Bool.eqb negb]. fold cutoffTime.
  set (ms := buffer.ReadAll (api.ring s)).
  set (active := api.activePodIDs cutoffTime ms).
  destruct (Z.eqb_spec (buffer.len (map_to_list active)) 0) as [Hempty|_].
  - exists []. split; [reflexivity|]. split; [|apply After_cutoff].
    assert (Hnone : active = ∅).
    { apply map_to_list_empty_iff. unfold buffer.len in Hempty.
      destruct (map_to_list active); [reflexivity|discriminate]. }
    intros id. split; [intros (lp & [] & _)|]. intros [_ Hfresh].
    apply activePodIDs_spec in Hfresh. fold active in Hfresh.
    rewrite Hnone in Hfresh. discriminate.
  - destruct (api.queryPods e (api.whereClause r) (api.sqlite s))
      as [rows|] eqn:Hq.
    2:{ unfold api.queryPods in Hq. rewrite Hfault in Hq. discriminate. }
    eexists. split; [reflexivity|]. split; [|apply After_cutoff].
    intros id. rewrite <- (queryPods_ids _ _ _ _ id Hq).
    rewrite <- activePodIDs_spec. fold active. split.
    + intros (lp & Hin & Hid). apply in_map_iff in Hin as (x & <- & Hx).
      apply filter_In in Hx as [Hx Hact]. rewrite livePod_ID in Hid.
      destruct x as [[[[[i name] uid] ns] node] dep]. subst i.
      split; [exists (id, name, uid, ns, node, dep); auto | exact Hact].
    + intros [(x & Hx & Hid) Hact].
      exists (api.livePod x cutoffTime ms). split.
      * apply in_map_iff. exists x. split; [reflexivity|].
        apply filter_In. split; [exact Hx|].
        destruct x as [[[[[i name] uid] ns] node] dep]. subst i. exact Hact.
      * rewrite livePod_ID. exact Hid.
Qed.

(** One second earlier the same pod is returned. *)
Lemma live_view_freshness_witness :
  exists pods,
    api.handleLiveMetrics live_server (get []) (gotime.Unix 1004)
      (gotime.Unix 1004) syncer.quiet
    = api.OK (api.mkLive 1004 pods)
    /\ exists lp, In lp pods /\ api.ID lp = 1.
Proof.
  destruct (live_view_freshness live_server (get []) (gotime.Unix 1004)
              (gotime.Unix 1004) syncer.quiet eq_refl eq_refl)
    as (pods & Hresp & Hpods & _).
  exists pods. split; [exact Hresp|]. apply Hpods. split.
  - exists (store.mkPodRow 1 "p-1" "web-xyz" 1 1 None None None 0),
      (store.mkNamespaceRow 1 "ns-a"),
      (store.mkNodeRow 1 "stub-host-1" "host-1" 0).
    vm_compute. tauto.
  - split; [lia|]. eexists. split; [left; reflexivity|]. vm_compute. tauto.
Defined.

(** The window does not record whether an id is a pod's or a PVC's: a
    recent sample of the PVC with id 1 makes the pod with id 1 appear in
    the live view, without any sample of its own. *)
Example pvc_sample_activates_pod :
  let w := snd (syncer.syncAll
                  [syncer.OPersistentVolumeClaim
                     (syncer.mkNamespaced demo_uuid "data" "ns-a");
                   syncer.OPod demo_pod] (world0 [])) in
  let ing := ingest.mkServer (buffer.mkRing [] 4) (syncer.self w) in
  let ring := ingest.buffer (snd (ingest.HandleIngest ing (post [raw_pvc]))) in
  map (fun m => (buffer.ResourceID m, buffer.Type_ m)) (buffer.ReadAll ring)
  = [(1, "used_mb")]
  /\ match api.handleLiveMetrics
             (api.mkServer (syncer.sqlite (syncer.self w)) ring) (get [])
             (gotime.Unix 2001) (gotime.Unix 2001) syncer.quiet with
     | api.OK body =>
         map (fun lp => (api.ID lp, api.UID lp, api.Containers lp))
             (api.Pods body) = [(1, "p-1", [])]
     | _ => False
     end.
Proof. vm_compute. split; reflexivity. Qed.

(** ** Concrete runs of the syncer and the store *)

(** C1, as the claim states it, fails: after the stub row for "host-1"
    has been created by a Pod event, the Node event with the real uid
    "n-1" executes no statement (the outcome in stock for the next
    statement is still there), so the row is not updated: it keeps its
    stub uid and its timestamp, and no row carries the uid "n-1". *)
Lemma stub_then_real_node_counterexample :
  let w1 := snd (syncer.syncPod demo_pod (world0 demo_envs)) in
  let w2 := snd (syncer.syncNode demo_node w1) in
  node_rows (syncer.self w1) = [store.mkNodeRow 1 "stub-host-1" "host-1" 0]
  /\ node_rows (syncer.self w2) = [store.mkNodeRow 1 "stub-host-1" "host-1" 0]
  /\ store.GetResourceID syncer.quiet "nodes" "n-1"
       (syncer.sqlite (syncer.self w2)) = None
  /\ syncer.pending w2 = [store.mkEnv false 77 true].
Proof. vm_compute. repeat split. Qed.

Lemma stub_then_real_node_witness :
  let w1 := snd (syncer.syncPod demo_pod (world0 demo_envs)) in
  let w2 := snd (syncer.syncNode demo_node w1) in
  (exists r, rows_named "host-1" (syncer.self w1) = [r]
             /\ store.n_id r = 1
             /\ store.n_uid r = "stub-host-1")
  /\ w2 = w1.
Proof.
  destruct (stub_then_real_node (world0 demo_envs) demo_pod demo_node 1)
    as (Hrow & Hsame & _).
  - apply nodes_inv_new. reflexivity.
  - reflexivity.
  - reflexivity.
  - vm_compute. reflexivity.
  - split; [exact Hrow | exact Hsame].
Defined.

(** C6, as the claim states it, fails: the event of an unscheduled pod
    in a namespace not seen before is skipped, yet the identity store
    has changed, by the row of the namespace. *)
Lemma pod_upsert_precondition_counterexample :
  let w1 := snd (syncer.syncPod unscheduled_pod (world0 [])) in
  syncer.pod_NodeName unscheduled_pod = ""
  /\ store.rows (store.namespaces (syncer.sqlite (syncer.self (world0 []))))
     = []
  /\ store.rows (store.namespaces (syncer.sqlite (syncer.self w1)))
     = [store.mkNamespaceRow 1 "ns-b"]
  /\ syncer.sqlite (syncer.self w1)
     <> syncer.sqlite (syncer.self (world0 [])).
Proof. vm_compute. repeat split. discriminate. Qed.

Lemma pod_upsert_precondition_witness :
  pods_view (syncer.self (snd (syncer.syncPod unscheduled_pod (world0 []))))
  = pods_view (syncer.self (world0 [])).
Proof.
  pose proof (pod_upsert_precondition (world0 []) unscheduled_pod) as H.
  destruct (syncer.getNamespaceID _ (world0 [])) as [nsID wa].
  destruct (syncer.getNodeID _ _ wa) as [nodeID wb].
  apply (proj2 H). right. left. reflexivity.
Defined.

(** An upsert that ends in an update uses up an id: the node upserted
    after a repeated upsert gets the id 3, not 2. *)
Example upsert_skips_id :
  let node uid db := store.run (store.Node uid "host-1") syncer.quiet db in
  exists db1 db2 db3,
    node "n-1" store.empty_db = Some (1, db1)
    /\ node "n-1" db1 = Some (1, db2)
    /\ node "n-2" db2 = Some (3, db3).
Proof. do 3 eexists. repeat split; reflexivity. Qed.



Lemma flush_swap_witness :
  fst (buffer.Flush (buffer.mkRing [sample 1; sample 2] 4))
  = [sample 1; sample 2]
  /\ buffer.ReadAll (snd (buffer.Flush (buffer.mkRing [sample 1; sample 2] 4)))
     = [].
Proof.
  pose proof (flush_swap (buffer.mkRing [sample 1; sample 2] 4)) as H.
  cbn in H. destruct H as (H1 & H2 & _). split; [exact H1 | exact H2].
Defined.

(** ** The schema is kept *)
Section schema_facts.
Import store.
Context {R : Type} (id_of : R -> Z) (key : R -> string) (k : string).
Context (update : R -> R) (new : Z -> R).
Context (Hupd_id : forall r, id_of (update r) = id_of r).
Context (Hupd_key : forall r, key (update r) = key r).
Context (Hnew_id : forall i, id_of (new i) = i).
Context (Hnew_key : forall i, key (new i) = k).

Let conflict (r : R) : bool := String.eqb (key r) k.
Let step (r : R) : R := if conflict r then update r else r.

Lemma step_id r : id_of (step r) = id_of r.
Proof. unfold step. destruct (conflict r); auto. Qed.

Lemma step_key r : key (step r) = key r.
Proof. unfold step. destruct (conflict r); auto. Qed.

Lemma find_key_none (l : list R) :
  find conflict l = None -> ~ In k (map key l).
Proof.
  intros Hfind Hin. apply in_map_iff in Hin as (r & Hr & Hin).
  apply (find_none _ _ Hfind) in Hin. unfold conflict in Hin.
  rewrite Hr, String.eqb_refl in Hin. discriminate.
Qed.

(** An upsert keeps the constraints of its table and returns a
    positive id. *)
Lemma upsert_wf t id t' :
  table_wf id_of key t ->
  upsert conflict update new id_of t = Some (id, t') ->
  table_wf id_of key t' /\ 0 < id.
Proof.
  intros (Hkeys & Hids & Hrange & Hseq). unfold upsert.
  destruct (Z.leb_spec max_int64 (seq t)); [discriminate|]. cbv zeta.
  destruct (find conflict (rows t)) as [r|] eqn:Hfind.
  - intros [= <- <-]. unfold table_wf. cbn. fold step. split.
    + split; [|split; [|split; [|lia]]].
      * rewrite map_map. erewrite map_ext; [exact Hkeys | apply step_key].
      * rewrite map_map. erewrite map_ext; [exact Hids | apply step_id].
      * apply List.Forall_forall. intros x Hx.
        apply in_map_iff in Hx as (y & <- & Hy). rewrite step_id.
        apply (proj1 (List.Forall_forall _ _) Hrange) in Hy. lia.
    + apply find_some in Hfind as [Hin _].
      apply (proj1 (List.Forall_forall _ _) Hrange r Hin).
  - intros [= <- <-]. unfold table_wf. cbn. split; [|lia].
    apply find_key_none in Hfind. rewrite !map_app. cbn [map].
    rewrite Hnew_id, Hnew_key. repeat split.
    + apply List.NoDup_app;
        [exact Hkeys | repeat constructor; cbn; tauto
        | intros z Hz [<-|[]]; tauto].
    + apply List.NoDup_app;
        [exact Hids | repeat constructor; cbn; tauto|].
      intros z Hz [<-|[]]. apply in_map_iff in Hz as (y & Hy & Hin).
      apply (proj1 (List.Forall_forall _ _) Hrange) in Hin. lia.
    + apply List.Forall_app. split.
      * apply List.Forall_forall. intros x Hx.
        apply (proj1 (List.Forall_forall _ _) Hrange) in Hx. lia.
      * constructor; [rewrite Hnew_id; lia | constructor].
    + lia.
Qed.

(** An upsert keeps every id of its table. *)
Lemma upsert_references t id t' i :
  upsert conflict update new id_of t = Some (id, t') ->
  references id_of t i = true -> references id_of t' i = true.
Proof.
  unfold upsert, references.
  destruct (max_int64 <=? seq t); [discriminate|]. cbv zeta.
  destruct (find conflict (rows t)).
  - intros [= _ <-]. cbn. fold step. rewrite !existsb_exists.
    intros (x & Hx & Hi). exists (step x).
    split; [apply in_map, Hx | rewrite step_id; exact Hi].
  - intros [= _ <-]. cbn. rewrite existsb_app. intros ->. reflexivity.
Qed.

(** The returned id is in the table afterwards. *)
Lemma upsert_references_id t id t' :
  upsert conflict update new id_of t = Some (id, t') ->
  references id_of t' id = true.
Proof.
  unfold upsert, references.
  destruct (max_int64 <=? seq t); [discriminate|]. cbv zeta.
  destruct (find conflict (rows t)) as [r|] eqn:Hfind.
  - intros [= <- <-]. cbn. fold step. apply existsb_exists.
    apply find_some in Hfind as [Hin _]. exists (step r).
    split; [apply in_map, Hin | rewrite step_id; apply Z.eqb_refl].
  - intros [= <- <-]. cbn. rewrite existsb_app. cbn.
    rewrite Hnew_id, Z.eqb_refl. apply orb_true_iff. right. reflexivity.
Qed.

Lemma find_map_same (P : R -> bool) (f : R -> R) (l : list R) :
  (forall r, P (f r) = P r) ->
  find P (map f l) = option_map f (find P l).
Proof.
  intros Hf. induction l as [|x l IH]; cbn; [reflexivity|].
  rewrite Hf. destruct (P x); [reflexivity | exact IH].
Qed.

Lemma find_app_some (P : R -> bool) (l l' : list R) r :
  find P l = Some r -> find P (l ++ l')%list = Some r.
Proof.
  induction l as [|x l IH]; cbn; [discriminate|].
  destruct (P x); auto.
Qed.

(** A key that resolves to an id before an upsert on the table, of
    that key or another, resolves to the same id after it. *)
Lemma upsert_find_stable k0 t id t' i :
  upsert conflict update new id_of t = Some (id, t') ->
  option_map id_of (find (fun r => String.eqb (key r) k0) (rows t)) = Some i ->
  option_map id_of (find (fun r => String.eqb (key r) k0) (rows t')) = Some i.
Proof.
  unfold upsert.
  destruct (max_int64 <=? seq t); [discriminate|]. cbv zeta.
  destruct (find conflict (rows t)).
  - intros [= _ <-]. cbn. fold step. rewrite find_map_same.
    + destruct (find _ (rows t)); cbn; [|discriminate].
      rewrite step_id. trivial.
    + intros x. rewrite step_key. reflexivity.
  - intros [= _ <-]. cbn.
    destruct (find _ (rows t)) as [x|] eqn:Hfind; [|discriminate].
    rewrite (find_app_some _ _ _ _ Hfind). trivial.
Qed.

(** The key of an upsert resolves to the returned id after it. *)
Lemma upsert_find_key t id t' :
  upsert conflict update new id_of t = Some (id, t') ->
  option_map id_of (find conflict (rows t')) = Some id.
Proof.
  unfold upsert.
  destruct (max_int64 <=? seq t); [discriminate|]. cbv zeta.
  destruct (find conflict (rows t)) as [r|] eqn:Hfind.
  - intros [= <- <-]. cbn. fold step. rewrite find_map_same.
    + fold conflict. rewrite Hfind. cbn. rewrite step_id. reflexivity.
    + intros x. unfold conflict. rewrite step_key. reflexivity.
  - intros [= <- <-]. cbn.
    rewrite (find_app_none conflict (rows t) (new (seq t + 1)) Hfind).
    + cbn. rewrite Hnew_id. reflexivity.
    + unfold conflict. rewrite Hnew_key. apply String.eqb_refl.
Qed.

End schema_facts.

Section schema_kept.
Import store.

Lemma keeps_ids_refl {R} (id_of : R -> Z) t : keeps_ids id_of t t.
Proof. intros i Hi. exact Hi. Qed.

Lemma references_opt_keeps {R} (id_of : R -> Z) t t' o :
  keeps_ids id_of t t' ->
  references_opt id_of t o = true -> references_opt id_of t' o = true.
Proof. intros Hk. destruct o; cbn; auto. Qed.

Lemma owned_fk_keeps db db' l :
  keeps_ids ns_id (namespaces db) (namespaces db') ->
  List.Forall (owned_fk db) l -> List.Forall (owned_fk db') l.
Proof.
  intros Hk. apply List.Forall_impl. intros r Hr. apply Hk, Hr.
Qed.

Lemma pod_fk_keeps db db' l :
  db_keeps_ids db db' ->
  List.Forall (pod_fk db) l -> List.Forall (pod_fk db') l.
Proof.
  intros (Hns & Hn & Hd & Hs & Hds & _). apply List.Forall_impl.
  intros r (H1 & H2 & H3 & H4 & H5).
  repeat split; eauto using references_opt_keeps.
Qed.

Local Ltac conj :=
  unfold db_wf, fk_ok;
  cbn [namespaces nodes deployments statefulsets daemonsets pods pvcs];
  repeat match goal with |- _ /\ _ => split end.

(** The table an upsert wrote keeps its constraints and its ids. *)
Local Ltac table_kept db id_of key k W Hup :=
  let Wt := fresh "Wt" in
  let Hid := fresh "Hid" in
  let Hk := fresh "Hk" in
  let Hdb := fresh "Hdb" in
  assert (table_wf id_of key _ /\ 0 < _) as [Wt Hid]
    by (eapply (upsert_wf id_of key k); [| | | |exact W|exact Hup];
        reflexivity);
  assert (Hk : keeps_ids id_of _ _)
    by (intros ?; eapply (upsert_references id_of key k); [|exact Hup];
        reflexivity);
  match goal with
  | |- db_wf ?d /\ _ =>
      assert (Hdb : db_keeps_ids db d)
        by (unfold db_keeps_ids;
            cbn [namespaces nodes deployments statefulsets daemonsets pods
                 pvcs];
            auto 10 using keeps_ids_refl)
  end;
  split; [conj; assumption|];
  split; [exact Hdb|];
  split; [exact Hid|].

(** The foreign keys of the rows that were there still point to rows. *)
Local Ltac old_keys Hdb :=
  first [ eapply owned_fk_keeps; [apply Hdb | assumption]
        | eapply pod_fk_keeps; [exact Hdb | assumption] ].

(** Every upsert keeps the keys and ids of the schema, keeps every id
    handed out before, and returns a positive id.  On a connection that
    enforces foreign keys it also keeps every foreign key pointing to a
    row. *)
Lemma run_kept c e db id db' :
  run c e db = Some (id, db') ->
  db_wf db ->
  db_wf db' /\ db_keeps_ids db db' /\ 0 < id
  /\ (foreign_keys e = true -> fk_ok db -> fk_ok db').
Proof.
  intros Hrun Hwf.
  pose proof (run_inv _ _ _ _ _ Hrun) as (_ & Hkeys & Hshape).
  destruct Hwf as (Wns & Wn & Wd & Ws & Wds & Wp & Wv).
  destruct c; destruct Hshape as (t1 & Hup & ->); cbn [keys_point] in Hkeys.
  - table_kept db ns_id ns_name name Wns Hup.
    intros _ (Fd & Fs & Fds & Fv & Fp). conj; old_keys Hdb.
  - table_kept db n_id n_uid uid Wn Hup.
    intros _ (Fd & Fs & Fds & Fv & Fp). conj; try assumption; old_keys Hdb.
  - table_kept db o_id o_uid uid Wd Hup.
    intros He (Fd & Fs & Fds & Fv & Fp). specialize (Hkeys He).
    conj; try assumption; try old_keys Hdb.
    eapply upsert_Forall; [| |exact Hup|exact Fd]; intros; exact Hkeys.
  - table_kept db o_id o_uid uid Ws Hup.
    intros He (Fd & Fs & Fds & Fv & Fp). specialize (Hkeys He).
    conj; try assumption; try old_keys Hdb.
    eapply upsert_Forall; [| |exact Hup|exact Fs]; intros; exact Hkeys.
  - table_kept db o_id o_uid uid Wds Hup.
    intros He (Fd & Fs & Fds & Fv & Fp). specialize (Hkeys He).
    conj; try assumption; try old_keys Hdb.
    eapply upsert_Forall; [| |exact Hup|exact Fds]; intros; exact Hkeys.
  - table_kept db p_id p_uid uid Wp Hup.
    intros He (Fd & Fs & Fds & Fv & Fp). specialize (Hkeys He).
    apply andb_true_iff in Hkeys as [Hkeys H5].
    apply andb_true_iff in Hkeys as [Hkeys H4].
    apply andb_true_iff in Hkeys as [Hkeys H3].
    apply andb_true_iff in Hkeys as [H1 H2].
    conj; try assumption; try old_keys Hdb.
    eapply upsert_Forall; [| |exact Hup|exact Fp];
      intros; unfold pod_fk; cbn; auto.
  - table_kept db o_id o_uid uid Wv Hup.
    intros He (Fd & Fs & Fds & Fv & Fp). specialize (Hkeys He).
    conj; try assumption; try old_keys Hdb.
    eapply upsert_Forall; [| |exact Hup|exact Fv]; intros; exact Hkeys.
Qed.

Lemma empty_db_wf : db_wf empty_db /\ fk_ok empty_db.
Proof.
  unfold db_wf, fk_ok, table_wf. cbn.
  repeat split; try constructor; try lia.
Qed.

End schema_kept.

(** ** Lookups by uid *)
Section lookups.
Import store.

(** A successful run is an upsert on one table, the others unchanged. *)
Ltac invert_run Hrun Hup :=
  cbn in Hrun;
  repeat match type of Hrun with
         | context [UpsertNamespace] => unfold UpsertNamespace in Hrun
         | context [UpsertNode] => unfold UpsertNode in Hrun
         | context [UpsertDeployment] => unfold UpsertDeployment in Hrun
         | context [UpsertStatefulSet] => unfold UpsertStatefulSet in Hrun
         | context [UpsertDaemonSet] => unfold UpsertDaemonSet in Hrun
         | context [UpsertPod] => unfold UpsertPod in Hrun
         | context [UpsertPVC] => unfold UpsertPVC in Hrun
         | context [upsert_owned] => unfold upsert_owned in Hrun
         end;
  repeat match type of Hrun with
         | (if ?b then _ else _) = _ => destruct b; [discriminate|]
         | (if negb ?b then _ else _) = _ =>
             destruct b; cbn [negb] in Hrun; [|discriminate]
         end;
  match type of Hrun with
  | match ?u with _ => _ end = _ =>
      destruct u as [[? ?]|] eqn:Hup; [|discriminate]
  end;
  injection Hrun as -> <-;
  repeat match type of Hup with
         | (if negb ?b then _ else _) = _ =>
             destruct b; cbn [negb] in Hup; [|discriminate]
         | (if ?b then _ else _) = _ => destruct b; [discriminate|]
         end.

Ltac same_or_stable Hup Hlook :=
  cbn [namespaces nodes deployments statefulsets daemonsets pods pvcs];
  first
    [ exact Hlook
    | eapply upsert_find_stable; [| |exact Hup|exact Hlook]; reflexivity ].

Lemma lookup_stable_aux c e db id' db' e1 e2 tbl uid id :
  run c e db = Some (id', db') ->
  GetResourceID e1 tbl uid db = Some id ->
  fault e2 = false ->
  GetResourceID e2 tbl uid db' = Some id.
Proof.
  intros Hrun Hlook He2. unfold GetResourceID in *. rewrite He2.
  destruct (fault e1); [discriminate|]. cbn zeta beta in *.
  destruct c; invert_run Hrun Hup;
    repeat match goal with
           | |- context [if String.eqb tbl ?x then _ else _] =>
               destruct (String.eqb tbl x); [same_or_stable Hup Hlook|]
           end;
    exact Hlook.
Qed.

Lemma lookup_after_aux c e db id db' e2 tbl uid :
  run c e db = Some (id, db') ->
  upsert_target c = Some (tbl, uid) ->
  fault e2 = false ->
  GetResourceID e2 tbl uid db' = Some id.
Proof.
  intros Hrun Htarget He2. unfold GetResourceID. rewrite He2.
  destruct c; cbn in Htarget; try discriminate;
    injection Htarget as <- <-; invert_run Hrun Hup; cbn;
    (eapply upsert_find_key; [| | | |exact Hup]); reflexivity.
Qed.

Lemma namespace_id_stable c e db id' db' name id :
  run c e db = Some (id', db') ->
  namespace_id name db = Some id -> namespace_id name db' = Some id.
Proof.
  intros Hrun Hlook. unfold namespace_id in *.
  destruct c; invert_run Hrun Hup; same_or_stable Hup Hlook.
Qed.

Lemma namespace_id_after e db id db' name :
  run (Namespace name) e db = Some (id, db') ->
  namespace_id name db' = Some id.
Proof.
  intros Hrun. unfold namespace_id. invert_run Hrun Hup. cbn.
  eapply upsert_find_key; [| | | |exact Hup]; reflexivity.
Qed.

Lemma find_references {R} (id_of : R -> Z) (P : R -> bool) (t : Table R) i :
  option_map id_of (find P (rows t)) = Some i ->
  references id_of t i = true.
Proof.
  unfold references. destruct (find P (rows t)) as [r|] eqn:Hfind;
    [|discriminate].
  intros [= <-]. apply find_some in Hfind as [Hin _].
  apply existsb_exists. exists r. split; [exact Hin | apply Z.eqb_refl].
Qed.

Lemma lookup_nodes_references e uid db id :
  GetResourceID e "nodes" uid db = Some id ->
  references n_id (nodes db) id = true.
Proof.
  unfold GetResourceID. destruct (fault e); [discriminate|]. cbn.
  apply find_references.
Qed.

Lemma lookup_deployments_references e uid db id :
  GetResourceID e "deployments" uid db = Some id ->
  references o_id (deployments db) id = true.
Proof.
  unfold GetResourceID. destruct (fault e); [discriminate|]. cbn.
  apply find_references.
Qed.

End lookups.

(** ** The caches are backed by the store *)
Section cache_backing.
Import syncer.

Lemma stable_exec_k (I : ResourceSyncer -> Prop) {A B}
    (stmt : store.Env -> store.DB -> option (A * store.DB))
    (k : option A -> M B) :
  (forall e w, I (self w) ->
     match stmt e (sqlite (self w)) with
     | None => I (self (snd (k None w)))
     | Some (a, db') =>
         I (self (snd (k (Some a)
                         (mkWorld (set_sqlite db' (self w)) (pending w)))))
     end) ->
  stable I (exec stmt ≫= k).
Proof.
  intros Hk w Hw. unfold exec, mbind, M_bind.
  destruct (next_env w) as [e w1] eqn:He.
  assert (Hself : self w1 = self w).
  { unfold next_env in He. destruct (pending w); injection He as _ <-;
      reflexivity. }
  cbn. specialize (Hk e w1). rewrite Hself in Hk. specialize (Hk Hw).
  rewrite Hself.
  destruct (stmt e (sqlite (self w))) as [[a db']|]; cbn.
  - rewrite Hself. exact Hk.
  - exact Hk.
Qed.

Lemma stable_query_k (I : ResourceSyncer -> Prop) {A B}
    (q : store.Env -> store.DB -> option A) (k : option A -> M B) :
  (forall e w, I (self w) -> I (self (snd (k (q e (sqlite (self w))) w)))) ->
  stable I (query q ≫= k).
Proof.
  intros Hk w Hw. unfold query, mbind, M_bind.
  destruct (next_env w) as [e w1] eqn:He.
  assert (Hself : self w1 = self w).
  { unfold next_env in He. destruct (pending w); injection He as _ <-;
      reflexivity. }
  cbn. specialize (Hk e w1). rewrite Hself in Hk. specialize (Hk Hw).
  rewrite Hself. exact Hk.
Qed.

End cache_backing.

Section coherence.
Import syncer.

Lemma coherent_store c e s a db' :
  store.run c e (sqlite s) = Some (a, db') ->
  coherent s -> coherent (set_sqlite db' s).
Proof.
  intros Hrun [Hwf (Hp & Hv & Hns & Hn & Hrs)].
  destruct (run_kept _ _ _ _ _ Hrun Hwf) as (Hwf' & Hk & _).
  destruct Hk as (_ & Kn & Kd & _).
  split; [exact Hwf'|]. unfold caches_backed.
  cbn [syncer.sqlite syncer.set_sqlite syncer.pods syncer.pvcs
       syncer.namespaces syncer.nodes syncer.replicaSets].
  repeat match goal with |- _ /\ _ => split end.
  - intros uid id H. eapply lookup_stable_aux; eauto.
  - intros uid id H. eapply lookup_stable_aux; eauto.
  - intros name id H. eapply namespace_id_stable; eauto.
  - intros name id H. apply Kn. eauto.
  - intros rs id H. apply Kd. eauto.
Qed.

Local Ltac cache_insert Hlook :=
  let H := fresh "H" in
  intros ? ? H; apply lookup_insert_Some in H as [[<- <-]|[_ H]];
  [exact Hlook | eauto].

Lemma coherent_namespaces s name id :
  coherent s -> namespace_id name (sqlite s) = Some id ->
  coherent (mkSyncer (sqlite s) (pods s) (pvcs s)
                     (<[name := id]> (namespaces s)) (nodes s)
                     (replicaSets s)).
Proof.
  intros [Hs (Hp & Hv & Hns & Hn & Hrs)] Hlook.
  split; [exact Hs|]. unfold caches_backed.
  cbn [syncer.sqlite syncer.set_sqlite syncer.pods syncer.pvcs
       syncer.namespaces syncer.nodes syncer.replicaSets].
  repeat match goal with |- _ /\ _ => split end; try assumption.
  cache_insert Hlook.
Qed.

Lemma coherent_nodes s name id :
  coherent s ->
  store.references store.n_id (store.nodes (sqlite s)) id = true ->
  coherent (mkSyncer (sqlite s) (pods s) (pvcs s) (namespaces s)
                     (<[name := id]> (nodes s)) (replicaSets s)).
Proof.
  intros [Hs (Hp & Hv & Hns & Hn & Hrs)] Hlook.
  split; [exact Hs|]. unfold caches_backed.
  cbn [syncer.sqlite syncer.set_sqlite syncer.pods syncer.pvcs
       syncer.namespaces syncer.nodes syncer.replicaSets].
  repeat match goal with |- _ /\ _ => split end; try assumption.
  cache_insert Hlook.
Qed.

Lemma coherent_pods s uid id :
  coherent s ->
  store.GetResourceID quiet "pods" uid (sqlite s) = Some id ->
  coherent (mkSyncer (sqlite s) (<[uid := id]> (pods s)) (pvcs s)
                     (namespaces s) (nodes s) (replicaSets s)).
Proof.
  intros [Hs (Hp & Hv & Hns & Hn & Hrs)] Hlook.
  split; [exact Hs|]. unfold caches_backed.
  cbn [syncer.sqlite syncer.set_sqlite syncer.pods syncer.pvcs
       syncer.namespaces syncer.nodes syncer.replicaSets].
  repeat match goal with |- _ /\ _ => split end; try assumption.
  cache_insert Hlook.
Qed.

Lemma coherent_pvcs s uid id :
  coherent s ->
  store.GetResourceID quiet "pvcs" uid (sqlite s) = Some id ->
  coherent (mkSyncer (sqlite s) (pods s) (<[uid := id]> (pvcs s))
                     (namespaces s) (nodes s) (replicaSets s)).
Proof.
  intros [Hs (Hp & Hv & Hns & Hn & Hrs)] Hlook.
  split; [exact Hs|]. unfold caches_backed.
  cbn [syncer.sqlite syncer.set_sqlite syncer.pods syncer.pvcs
       syncer.namespaces syncer.nodes syncer.replicaSets].
  repeat match goal with |- _ /\ _ => split end; try assumption.
  cache_insert Hlook.
Qed.

Lemma coherent_replicaSets s rs id :
  coherent s ->
  store.references store.o_id (store.deployments (sqlite s)) id = true ->
  coherent (mkSyncer (sqlite s) (pods s) (pvcs s) (namespaces s) (nodes s)
                     (<[rs := id]> (replicaSets s))).
Proof.
  intros [Hs (Hp & Hv & Hns & Hn & Hrs)] Hlook.
  split; [exact Hs|]. unfold caches_backed.
  cbn [syncer.sqlite syncer.set_sqlite syncer.pods syncer.pvcs
       syncer.namespaces syncer.nodes syncer.replicaSets].
  repeat match goal with |- _ /\ _ => split end; try assumption.
  cache_insert Hlook.
Qed.

Lemma getNamespaceID_coherent name : stable coherent (getNamespaceID name).
Proof.
  unfold getNamespaceID. apply stable_bind; [apply stable_gets|].
  intros [id|]; [apply stable_ret|]. apply stable_exec_k. intros e w Hw.
  destruct (store.UpsertNamespace e name _) as [[id db']|] eqn:Hst;
    cbn; [|exact Hw].
  apply (coherent_namespaces (set_sqlite db' (self w))).
  - eapply (coherent_store (store.Namespace name)); eauto.
  - eapply namespace_id_after. exact Hst.
Qed.

Lemma getNodeID_coherent name uid : stable coherent (getNodeID name uid).
Proof.
  unfold getNodeID, nodes_read, nodes_fill. apply stable_bind; [apply stable_gets|].
  intros [id|]; [apply stable_ret|]. apply stable_exec_k. intros e w Hw.
  destruct (store.UpsertNode e _ name _) as [[id db']|] eqn:Hst;
    cbn; [|exact Hw].
  apply (coherent_nodes (set_sqlite db' (self w))).
  - eapply (coherent_store (store.Node _ name)); eauto.
  - eapply (lookup_nodes_references quiet).
    eapply (lookup_after_aux (store.Node _ name));
      [exact Hst | reflexivity | reflexivity].
Qed.

Lemma controller_coherent (c : Z -> store.Upsert) (ns : string) :
  stable coherent
    (nsID ← getNamespaceID ns;
     exec (fun e => store.run (c nsID) e) ;; mret tt).
Proof.
  apply stable_bind; [apply getNamespaceID_coherent|]. intros nsID.
  apply stable_exec_k. intros e w Hw.
  destruct (store.run (c nsID) e _) as [[id db']|] eqn:Hst; cbn; [|exact Hw].
  eapply coherent_store; eauto.
Qed.

Lemma syncPVC_coherent pvc : stable coherent (syncPVC pvc).
Proof.
  unfold syncPVC. apply stable_bind; [apply getNamespaceID_coherent|].
  intros nsID. apply stable_exec_k. intros e w Hw.
  destruct (store.UpsertPVC e _ _ nsID _) as [[id db']|] eqn:Hst;
    cbn; [|exact Hw].
  apply (coherent_pvcs (set_sqlite db' (self w))).
  - eapply (coherent_store (store.PVC _ _ nsID)); eauto.
  - eapply (lookup_after_aux (store.PVC _ _ nsID));
      [exact Hst | reflexivity | reflexivity].
Qed.

Lemma syncPod_owners_coherent os l : stable coherent (syncPod_owners os l).
Proof.
  revert l. induction os as [|o os IH]; intros l; cbn.
  - apply stable_ret.
  - destruct l as [[dep sts] ds]. repeat stable_step; apply IH.
Qed.

Lemma syncPod_coherent pod : stable coherent (syncPod pod).
Proof.
  unfold syncPod. apply stable_bind; [apply getNamespaceID_coherent|].
  intros nsID. destruct (nsID =? 0); [apply stable_ret|].
  destruct (negb _); [|apply stable_ret].
  apply stable_bind; [apply getNodeID_coherent|]. intros nodeID.
  destruct (nodeID =? 0); [apply stable_ret|]. unfold syncPod_upsert.
  apply stable_bind; [apply syncPod_owners_coherent|].
  intros [[dep sts] ds]. apply stable_exec_k. intros e w Hw.
  destruct (store.UpsertPod e _ _ nsID nodeID dep sts ds _)
    as [[id db']|] eqn:Hst; cbn; [|exact Hw].
  apply (coherent_pods (set_sqlite db' (self w))).
  - eapply (coherent_store (store.Pod _ _ nsID nodeID dep sts ds)); eauto.
  - eapply (lookup_after_aux (store.Pod _ _ nsID nodeID dep sts ds));
      [exact Hst | reflexivity | reflexivity].
Qed.

Lemma syncReplicaSet_coherent rs : stable coherent (syncReplicaSet rs).
Proof.
  unfold syncReplicaSet.
  induction (rs_OwnerReferences rs) as [|o os IH]; cbn.
  - apply stable_ret.
  - destruct (String.eqb (Kind o) "Deployment"); [|exact IH].
    apply stable_query_k. intros e w Hw.
    destruct (store.GetResourceID e "deployments" _ _) as [depID|] eqn:Hq.
    + cbn. apply coherent_replicaSets; [exact Hw|].
      eapply lookup_deployments_references. exact Hq.
    + apply IH, Hw.
Qed.

Lemma syncObject_coherent obj : stable coherent (syncObject obj).
Proof.
  destruct obj as [n|p|c|d|s|d|r|]; cbn.
  - unfold syncNode. apply stable_bind; [apply getNodeID_coherent|].
    intros _. apply stable_ret.
  - apply syncPod_coherent.
  - apply syncPVC_coherent.
  - apply (controller_coherent
             (fun nsID => store.Deployment (obj_UID d) (obj_Name d) nsID)).
  - apply (controller_coherent
             (fun nsID => store.StatefulSet (obj_UID s) (obj_Name s) nsID)).
  - apply (controller_coherent
             (fun nsID => store.DaemonSet (obj_UID d) (obj_Name d) nsID)).
  - apply syncReplicaSet_coherent.
  - apply stable_ret.
Qed.

Lemma syncAll_coherent objs : stable coherent (syncAll objs).
Proof.
  induction objs as [|o objs IH]; cbn.
  - apply stable_ret.
  - apply stable_bind; [apply syncObject_coherent | intros _; exact IH].
Qed.

Lemma coherent_new db : db_wf db -> coherent (NewResourceSyncer db).
Proof.
  intros Hwf. split; [assumption|].
  unfold caches_backed. cbn.
  repeat match goal with |- _ /\ _ => split end;
    intros ? ? H; rewrite lookup_empty in H; discriminate.
Qed.

End coherence.

(** ** Foreign keys under connections that enforce them *)
Section foreign_keys_kept.
Import syncer.

Local Abbreviation kept := (wstable keys_enforced).

Lemma wstable_ret {A} (a : A) : kept (mret a).
Proof. intros w Hw. exact Hw. Qed.

Lemma wstable_bind {A B} (c : M A) (f : A -> M B) :
  kept c -> (forall a, kept (f a)) -> kept (c ≫= f).
Proof.
  intros Hc Hf w Hw. unfold mbind, M_bind.
  specialize (Hc w Hw). destruct (c w) as [a w']. apply Hf, Hc.
Qed.

Lemma wstable_gets {A} (f : ResourceSyncer -> A) : kept (gets f).
Proof. intros w Hw. exact Hw. Qed.

Lemma wstable_modify (f : ResourceSyncer -> ResourceSyncer) :
  (forall s, sqlite (f s) = sqlite s) -> kept (modify f).
Proof.
  intros Hf w (Hp & Hwf & Hfk). unfold keys_enforced, modify. cbn.
  rewrite Hf. auto.
Qed.

Lemma next_env_enforced w :
  keys_enforced w ->
  store.foreign_keys (fst (next_env w)) = true
  /\ keys_enforced (snd (next_env w))
  /\ self (snd (next_env w)) = self w.
Proof.
  intros (Hp & Hwf & Hfk). unfold next_env.
  destruct (pending w) as [|e es] eqn:Hpend; cbn.
  - split; [reflexivity|]. split; [|reflexivity].
    split; [rewrite Hpend; constructor|]. auto.
  - apply List.Forall_cons_iff in Hp as [He Hes].
    split; [exact He|]. split; [|reflexivity]. split; [exact Hes|]. auto.
Qed.

Lemma wstable_query {A} (q : store.Env -> store.DB -> option A) :
  kept (query q).
Proof.
  intros w Hw. unfold query, mbind, M_bind, gets.
  destruct (next_env_enforced w Hw) as (_ & Hw1 & _).
  destruct (next_env w) as [e w1]. exact Hw1.
Qed.

Lemma wstable_exec (c : store.Upsert) : kept (exec (store.run c)).
Proof.
  intros w Hw. unfold exec, mbind, M_bind, gets.
  destruct (next_env_enforced w Hw) as (He & Hw1 & Hself).
  destruct (next_env w) as [e w1]. cbn [fst snd] in *.
  destruct (store.run c e (sqlite (self w1))) as [[a db']|] eqn:Hrun; cbn;
    [|exact Hw1].
  destruct Hw1 as (Hp & Hwf & Hfk).
  destruct (run_kept _ _ _ _ _ Hrun Hwf) as (Hwf' & _ & _ & Hfk').
  split; [exact Hp|]. split; [exact Hwf' | exact (Hfk' He Hfk)].
Qed.

Local Ltac wstep :=
  lazymatch goal with
  | |- wstable _ (mret _) => apply wstable_ret
  | |- wstable _ (_ ≫= _) => apply wstable_bind; [|intros ?]
  | |- wstable _ (gets _) => apply wstable_gets
  | |- wstable _ (query _) => apply wstable_query
  | |- wstable _ (modify _) => apply wstable_modify; intros ?; reflexivity
  | |- wstable _ (match ?x with _ => _ end) => destruct x
  end.

Lemma getNamespaceID_enforced name : kept (getNamespaceID name).
Proof.
  unfold getNamespaceID. repeat wstep.
  exact (wstable_exec (store.Namespace name)).
Qed.

Lemma getNodeID_enforced name uid : kept (getNodeID name uid).
Proof.
  unfold getNodeID, nodes_read, nodes_fill. repeat wstep.
  exact (wstable_exec (store.Node _ name)).
Qed.

Lemma syncPod_owners_enforced os l : kept (syncPod_owners os l).
Proof.
  revert l. induction os as [|o os IH]; intros l; cbn.
  - apply wstable_ret.
  - destruct l as [[dep sts] ds]. repeat wstep; apply IH.
Qed.

Lemma syncReplicaSet_enforced rs : kept (syncReplicaSet rs).
Proof.
  unfold syncReplicaSet.
  induction (rs_OwnerReferences rs) as [|o os IH]; cbn.
  - apply wstable_ret.
  - repeat wstep; exact IH.
Qed.

Lemma syncObject_enforced obj : kept (syncObject obj).
Proof.
  destruct obj as [n|p|c|d|s|d|r|]; cbn.
  - unfold syncNode. repeat wstep. apply getNodeID_enforced.
  - unfold syncPod. repeat wstep;
      try apply getNamespaceID_enforced; try apply getNodeID_enforced.
    unfold syncPod_upsert. repeat wstep;
      try apply syncPod_owners_enforced.
    exact (wstable_exec (store.Pod _ _ _ _ _ _ _)).
  - unfold syncPVC. repeat wstep; try apply getNamespaceID_enforced.
    exact (wstable_exec (store.PVC _ _ _)).
  - unfold syncDeployment. repeat wstep; try apply getNamespaceID_enforced.
    exact (wstable_exec (store.Deployment _ _ _)).
  - unfold syncStatefulSet. repeat wstep; try apply getNamespaceID_enforced.
    exact (wstable_exec (store.StatefulSet _ _ _)).
  - unfold syncDaemonSet. repeat wstep; try apply getNamespaceID_enforced.
    exact (wstable_exec (store.DaemonSet _ _ _)).
  - apply syncReplicaSet_enforced.
  - apply wstable_ret.
Qed.

Lemma syncAll_enforced objs : kept (syncAll objs).
Proof.
  induction objs as [|o objs IH]; cbn.
  - apply wstable_ret.
  - apply wstable_bind; [apply syncObject_enforced | intros _; exact IH].
Qed.

End foreign_keys_kept.

(** ** Resolution is stable *)
Section resolution_stable.
Import syncer.

(** Steps that write neither the pods nor the pvcs cache. *)
Section caches_frame.
Context (v : gmap string Z * gmap string Z).

Local Abbreviation keeps := (stable (fun s => (pods s, pvcs s) = v)).

Local Ltac db_only :=
  apply stable_exec; let H := fresh "H" in intros ? ? ? ? _ H; exact H.

Local Ltac other_cache :=
  apply stable_modify; let H := fresh "H" in intros ? H; exact H.

Lemma getNamespaceID_caches name : keeps (getNamespaceID name).
Proof.
  unfold getNamespaceID. repeat stable_step; [db_only | other_cache].
Qed.

Lemma getNodeID_caches name uid : keeps (getNodeID name uid).
Proof. unfold getNodeID, nodes_read, nodes_fill. repeat stable_step; [db_only | other_cache]. Qed.

Lemma controller_caches (c : Z -> store.Upsert) ns :
  keeps (nsID ← getNamespaceID ns;
         exec (fun e => store.run (c nsID) e) ;; mret tt).
Proof.
  apply stable_bind; [apply getNamespaceID_caches|]. intros nsID.
  repeat stable_step. db_only.
Qed.

Lemma syncReplicaSet_caches rs : keeps (syncReplicaSet rs).
Proof.
  unfold syncReplicaSet.
  induction (rs_OwnerReferences rs) as [|o os IH]; cbn;
    repeat stable_step; try exact IH.
  other_cache.
Qed.

Lemma syncPod_owners_caches os l : keeps (syncPod_owners os l).
Proof.
  revert l. induction os as [|o os IH]; intros l; cbn.
  - apply stable_ret.
  - destruct l as [[dep sts] ds]. repeat stable_step; apply IH.
Qed.

End caches_frame.

Context (uid rType : string) (id : Z).

Lemma resolves_frame {A} (c : M A) :
  stable coherent c ->
  (forall v, stable (fun s => (pods s, pvcs s) = v) c) ->
  stable (resolves uid rType id) c.
Proof.
  intros Hc Hf w [Hcoh Hres]. split; [apply Hc, Hcoh|].
  specialize (Hf _ w eq_refl). injection Hf as Hp Hv.
  unfold GetResourceID in *. rewrite Hp, Hv. exact Hres.
Qed.

(** An upsert of a uid that already resolves returns the id it
    resolves to. *)
Lemma upsert_same_id c e db id' db' e1 tbl :
  store.run c e db = Some (id', db') ->
  upsert_target c = Some (tbl, uid) ->
  store.GetResourceID e1 tbl uid db = Some id ->
  id' = id.
Proof.
  intros Hrun Htarget Hlook.
  pose proof (lookup_stable_aux _ _ _ _ _ e1 quiet _ _ _ Hrun Hlook eq_refl)
    as H1.
  pose proof (lookup_after_aux _ _ _ _ _ quiet _ _ Hrun Htarget eq_refl)
    as H2.
  congruence.
Qed.

Lemma syncPVC_resolves pvc : stable (resolves uid rType id) (syncPVC pvc).
Proof.
  intros w Hw. split; [apply syncPVC_coherent, Hw|].
  destruct Hw as [Hcoh Hres]. revert Hres.
  pose proof (getNamespaceID_caches _ (obj_Namespace pvc) w eq_refl) as Hf.
  pose proof (getNamespaceID_coherent (obj_Namespace pvc) w Hcoh) as Hc.
  unfold syncPVC, mbind, M_bind.
  destruct (getNamespaceID _ w) as [nsID wa]. cbn [snd] in Hf, Hc.
  injection Hf as Hp Hv. unfold GetResourceID. rewrite <- Hp, <- Hv.
  clear Hp Hv. unfold exec, mbind, M_bind.
  destruct (next_env wa) as [e wb] eqn:He.
  assert (Hself : self wb = self wa).
  { unfold next_env in He. destruct (pending wa); injection He as _ <-;
      reflexivity. }
  cbn. rewrite Hself.
  destruct (store.UpsertPVC e _ _ nsID _) as [[id' db']|] eqn:Hst; cbn;
    [|rewrite Hself; trivial].
  rewrite Hself. cbn.
  destruct (String.eqb rType "pvc"); [|trivial].
  destruct (decide (obj_UID pvc = uid)) as [Heq|Hne].
  - rewrite Heq, lookup_insert_eq.
    destruct (pvcs (self wa) !! uid) as [i|] eqn:Hi; [|discriminate].
    intros [= ->]. f_equal.
    destruct Hc as [_ (_ & Hv & _)]. apply Hv in Hi.
    eapply (upsert_same_id (store.PVC _ _ nsID)); [exact Hst| |exact Hi].
    cbn. rewrite Heq. reflexivity.
  - rewrite lookup_insert_ne by assumption. trivial.
Qed.

Lemma syncPod_upsert_resolves pod nsID nodeID :
  stable (resolves uid rType id) (syncPod_upsert pod nsID nodeID).
Proof.
  unfold syncPod_upsert. apply stable_bind.
  { apply resolves_frame;
      [apply syncPod_owners_coherent | intros v; apply syncPod_owners_caches]. }
  intros [[dep sts] ds]. apply stable_exec_k. intros e w [Hcoh Hres].
  destruct (store.UpsertPod e _ _ nsID nodeID dep sts ds _)
    as [[id' db']|] eqn:Hst; cbn; [|split; assumption].
  split.
  - apply (coherent_pods (set_sqlite db' (self w))).
    + eapply (coherent_store (store.Pod _ _ nsID nodeID dep sts ds)); eauto.
    + eapply (lookup_after_aux (store.Pod _ _ nsID nodeID dep sts ds));
        [exact Hst | reflexivity | reflexivity].
  - revert Hres. unfold GetResourceID. cbn.
    destruct (String.eqb rType "pvc"); [trivial|].
    destruct (decide (pod_UID pod = uid)) as [Heq|Hne].
    + rewrite Heq, lookup_insert_eq.
      destruct (pods (self w) !! uid) as [i|] eqn:Hi; [|discriminate].
      intros [= ->]. f_equal.
      destruct Hcoh as [_ (Hp & _)]. apply Hp in Hi.
      eapply (upsert_same_id (store.Pod _ _ nsID nodeID dep sts ds));
        [exact Hst| |exact Hi].
      cbn. rewrite Heq. reflexivity.
    + rewrite lookup_insert_ne by assumption. trivial.
Qed.

Lemma syncPod_resolves pod : stable (resolves uid rType id) (syncPod pod).
Proof.
  unfold syncPod. apply stable_bind.
  { apply resolves_frame;
      [apply getNamespaceID_coherent | intros v; apply getNamespaceID_caches]. }
  intros nsID. destruct (nsID =? 0); [apply stable_ret|].
  destruct (negb _); [|apply stable_ret].
  apply stable_bind.
  { apply resolves_frame;
      [apply getNodeID_coherent | intros v; apply getNodeID_caches]. }
  intros nodeID. destruct (nodeID =? 0); [apply stable_ret|].
  apply syncPod_upsert_resolves.
Qed.

Lemma syncObject_resolves obj : stable (resolves uid rType id) (syncObject obj).
Proof.
  destruct obj as [n|p|c|d|s|d|r|]; cbn.
  - unfold syncNode. apply stable_bind; [|intros _; apply stable_ret].
    apply resolves_frame;
      [apply getNodeID_coherent | intros v; apply getNodeID_caches].
  - apply syncPod_resolves.
  - apply syncPVC_resolves.
  - apply resolves_frame;
      [apply (controller_coherent
                (fun nsID => store.Deployment (obj_UID d) (obj_Name d) nsID))
      |intros v;
       apply (controller_caches v
                (fun nsID => store.Deployment (obj_UID d) (obj_Name d) nsID))].
  - apply resolves_frame;
      [apply (controller_coherent
                (fun nsID => store.StatefulSet (obj_UID s) (obj_Name s) nsID))
      |intros v;
       apply (controller_caches v
                (fun nsID => store.StatefulSet (obj_UID s) (obj_Name s) nsID))].
  - apply resolves_frame;
      [apply (controller_coherent
                (fun nsID => store.DaemonSet (obj_UID d) (obj_Name d) nsID))
      |intros v;
       apply (controller_caches v
                (fun nsID => store.DaemonSet (obj_UID d) (obj_Name d) nsID))].
  - apply resolves_frame;
      [apply syncReplicaSet_coherent | intros v; apply syncReplicaSet_caches].
  - apply stable_ret.
Qed.

Lemma syncAll_resolves objs : stable (resolves uid rType id) (syncAll objs).
Proof.
  induction objs as [|o objs IH]; cbn.
  - apply stable_ret.
  - apply stable_bind; [apply syncObject_resolves | intros _; exact IH].
Qed.

End resolution_stable.

(** ** The identity store and the syncer over runs of events *)

(** X1. Every successful upsert keeps the keys and the ids of the
    schema: in each table the key column stays unique and the ids stay
    distinct, positive and at most the counter; every id handed out
    before is kept, and the id returned is positive.  When the statement
    runs on a connection that enforces foreign keys, and every foreign
    key pointed to a row before it, every foreign key points to a row
    after it. *)
Theorem upserts_keep_schema (c : store.Upsert) (e : store.Env)
    (db db' : store.DB) (id : Z) :
  store.run c e db = Some (id, db') ->
  db_wf db ->
  db_wf db' /\ db_keeps_ids db db' /\ 0 < id
  /\ (store.foreign_keys e = true -> fk_ok db -> fk_ok db').
Proof. apply run_kept. Qed.

Lemma upserts_keep_schema_witness :
  match store.run (store.Node "n-1" "host-1") syncer.quiet store.empty_db with
  | Some (id, db') => db_wf db' /\ fk_ok db' /\ 0 < id
  | None => False
  end.
Proof.
  destruct (upserts_keep_schema (store.Node "n-1" "host-1") syncer.quiet
              store.empty_db
              (store.mkDB store.empty_table
                 (store.mkTable [store.mkNodeRow 1 "n-1" "host-1" 0] 1)
                 store.empty_table store.empty_table store.empty_table
                 store.empty_table store.empty_table) 1 eq_refl
              (proj1 empty_db_wf))
    as (Hwf & _ & Hid & Hfk).
  cbn. split; [exact Hwf|]. split; [|exact Hid].
  apply Hfk; [reflexivity | apply empty_db_wf].
Defined.

(** A statement on a connection without the pragma writes a foreign key
    that points to no row: the deployment is stored under a namespace
    id that no namespace has. *)
Example unchecked_foreign_key :
  let e := store.mkEnv false 0 false in
  store.UpsertDeployment e "d-1" "web" 99 store.empty_db
  = Some (1, store.mkDB store.empty_table store.empty_table
               (store.mkTable [store.mkOwnedRow 1 "d-1" "web" 99 0] 1)
               store.empty_table store.empty_table store.empty_table
               store.empty_table)
  /\ store.UpsertDeployment syncer.quiet "d-1" "web" 99 store.empty_db
     = None.
Proof. split; reflexivity. Qed.

(** X2. Insert then look up: after an upsert into a table with a uid
    column has returned an id, looking the uid up in that table returns
    that id. *)
Theorem lookup_after_upsert (c : store.Upsert) (e e2 : store.Env)
    (db db' : store.DB) (id : Z) (tbl uid : string) :
  store.run c e db = Some (id, db') ->
  upsert_target c = Some (tbl, uid) ->
  store.fault e2 = false ->
  store.GetResourceID e2 tbl uid db' = Some id.
Proof. apply lookup_after_aux. Qed.

Lemma lookup_after_upsert_witness :
  store.GetResourceID syncer.quiet "nodes" "n-1"
    (store.mkDB store.empty_table
       (store.mkTable [store.mkNodeRow 1 "n-1" "host-1" 0] 1)
       store.empty_table store.empty_table store.empty_table
       store.empty_table store.empty_table)
  = Some 1.
Proof.
  apply (lookup_after_upsert (store.Node "n-1" "host-1") syncer.quiet
           syncer.quiet store.empty_db); reflexivity.
Defined.

(** X3. A uid keeps its id: a uid that resolves to an id in a table
    resolves to the same id after any later upsert, and a later upsert of
    that uid into that table returns that id. *)
Theorem lookup_stable (c : store.Upsert) (e e1 e2 : store.Env)
    (db db' : store.DB) (id id' : Z) (tbl uid : string) :
  store.GetResourceID e1 tbl uid db = Some id ->
  store.run c e db = Some (id', db') ->
  store.fault e2 = false ->
  store.GetResourceID e2 tbl uid db' = Some id
  /\ (upsert_target c = Some (tbl, uid) -> id' = id).
Proof.
  intros Hlook Hrun He2. split.
  - eapply lookup_stable_aux; eauto.
  - intros Htarget. eapply upsert_same_id; eauto.
Qed.

Lemma lookup_stable_witness :
  let db := syncer.sqlite (syncer.self s1_world) in
  match store.run (store.Pod "p-1" "web-abc" 1 1 None None None)
                  (store.mkEnv false 5 true) db with
  | Some (id', db') =>
      store.GetResourceID syncer.quiet "pods" "p-1" db' = Some 1 /\ id' = 1
  | None => False
  end.
Proof.
  intros db.
  destruct (store.run _ _ db) as [[id' db']|] eqn:Hrun;
    [|vm_compute in Hrun; discriminate].
  destruct (lookup_stable _ _ syncer.quiet syncer.quiet db db' 1 id'
              "pods" "p-1" eq_refl Hrun eq_refl) as [H1 H2].
  split; [exact H1 | apply H2; reflexivity].
Defined.

(** X4. The syncer keeps store and caches coherent: from a state where
    every table has unique keys and distinct positive ids and every
    cache entry is backed by a row, any run of watch events handled one
    after another leads to such a state, whichever statements fail and
    whichever connections they run on.  The foreign keys are kept
    pointing to rows as long as every statement runs on a connection
    that enforces them. *)
Theorem syncer_keeps_coherence (w : syncer.World) (objs : list syncer.Object) :
  coherent (syncer.self w) ->
  let w' := snd (syncer.syncAll objs w) in
  coherent (syncer.self w')
  /\ (List.Forall (fun e => store.foreign_keys e = true) (syncer.pending w) ->
      fk_ok (syncer.sqlite (syncer.self w)) ->
      fk_ok (syncer.sqlite (syncer.self w'))).
Proof.
  intros Hcoh w'. split; [apply syncAll_coherent, Hcoh|].
  intros Hp Hfk. apply (syncAll_enforced objs w).
  split; [exact Hp|]. split; [apply Hcoh | exact Hfk].
Qed.

Lemma syncer_keeps_coherence_witness :
  coherent (syncer.self s1_world)
  /\ fk_ok (syncer.sqlite (syncer.self s1_world)).
Proof.
  destruct (syncer_keeps_coherence (world0 []) s1_events) as [Hcoh Hfk].
  - apply coherent_new, empty_db_wf.
  - split; [exact Hcoh|]. apply Hfk; [constructor | apply empty_db_wf].
Defined.

Lemma find_positive {R} (id_of : R -> Z) (key : R -> string) (P : R -> bool)
    (t : store.Table R) (i : Z) :
  table_wf id_of key t ->
  option_map id_of (find P (store.rows t)) = Some i -> 0 < i.
Proof.
  intros (_ & _ & Hrange & _).
  destruct (find P (store.rows t)) as [r|] eqn:Hfind; [|discriminate].
  intros [= <-]. apply find_some in Hfind as [Hin _].
  apply (proj1 (List.Forall_forall _ _) Hrange r Hin).
Qed.

(** X5. What the ingestion gets from the syncer is backed by a row: in
    any state a coherent syncer reaches by watch events, an id returned
    by the resolver for a uid is positive and is the id of the row stored
    under that uid, in the pvcs table for kind "pvc" and in the pods
    table otherwise. *)
Theorem resolve_is_backed (w : syncer.World) (objs : list syncer.Object)
    (uid rType : string) (id : Z) :
  coherent (syncer.self w) ->
  let s := syncer.self (snd (syncer.syncAll objs w)) in
  ingest.GetResourceID s uid rType = (id, true) ->
  0 < id
  /\ store.GetResourceID syncer.quiet
       (if String.eqb rType "pvc" then "pvcs" else "pods") uid
       (syncer.sqlite s) = Some id.
Proof.
  intros Hcoh s Hres.
  pose proof (syncAll_coherent objs w Hcoh) as [Hwf (Hp & Hv & _)].
  fold s in Hwf, Hp, Hv.
  unfold ingest.GetResourceID, ingest.syncer_IDResolver,
    syncer.GetResourceID in Hres.
  destruct Hwf as (_ & _ & _ & _ & _ & Wp & Wv).
  destruct (String.eqb rType "pvc").
  - destruct (syncer.pvcs s !! uid) as [i|] eqn:Hi; [|discriminate].
    injection Hres as ->. apply Hv in Hi. split; [|exact Hi].
    unfold store.GetResourceID in Hi. cbn in Hi.
    eapply (find_positive store.o_id store.o_uid); [exact Wv | exact Hi].
  - destruct (syncer.pods s !! uid) as [i|] eqn:Hi; [|discriminate].
    injection Hres as ->. apply Hp in Hi. split; [|exact Hi].
    unfold store.GetResourceID in Hi. cbn in Hi.
    eapply (find_positive store.p_id store.p_uid); [exact Wp | exact Hi].
Qed.

Lemma resolve_is_backed_witness :
  store.GetResourceID syncer.quiet "pods" "p-1"
    (syncer.sqlite (syncer.self s1_world)) = Some 1.
Proof.
  refine (proj2 (resolve_is_backed (world0 []) s1_events "p-1" "pod" 1
                   _ eq_refl)).
  apply coherent_new, empty_db_wf.
Defined.

Lemma s1_coherent : coherent (syncer.self s1_world).
Proof. apply syncAll_coherent, coherent_new, empty_db_wf. Qed.

Lemma s1_fk_ok : fk_ok (syncer.sqlite (syncer.self s1_world)).
Proof. vm_compute. repeat split; repeat constructor. Qed.

(** X6. Resolution is stable: once a coherent syncer resolves a uid of
    a kind to an id, it resolves it to the same id after any run of watch
    events. *)
Theorem resolve_is_stable (w : syncer.World) (objs : list syncer.Object)
    (uid rType : string) (id : Z) :
  coherent (syncer.self w) ->
  ingest.GetResourceID (syncer.self w) uid rType = (id, true) ->
  ingest.GetResourceID (syncer.self (snd (syncer.syncAll objs w))) uid rType
  = (id, true).
Proof.
  intros Hcoh Hres.
  apply (syncAll_resolves uid rType id objs w). split; assumption.
Qed.

Lemma resolve_is_stable_witness :
  ingest.GetResourceID
    (syncer.self
       (snd (syncer.syncAll
               [syncer.OPod (syncer.mkPod "p-1" "web-xyz" "ns-a" [] "host-9");
                syncer.OPod (syncer.mkPod "p-7" "db-0" "ns-b" [] "host-1")]
               s1_world)))
    "p-1" "pod"
  = (1, true).
Proof.
  apply resolve_is_stable; [|reflexivity].
  apply s1_coherent.
Defined.

(** ** Replica sets and the deployment link of a pod *)
Section replica_sets.
Import syncer.

Lemma query_run {A} (q : store.Env -> store.DB -> option A) w :
  exists e w1, query q w = (q e (sqlite (self w)), w1) /\ self w1 = self w.
Proof.
  unfold query, mbind, M_bind, next_env, gets.
  destruct (pending w) as [|e es]; cbn; eauto.
Qed.

Lemma syncReplicaSet_owners_effect rsUID os w :
  let s := self w in
  let s' := self (snd (syncReplicaSet_owners rsUID os w)) in
  sqlite s' = sqlite s /\ pods s' = pods s /\ pvcs s' = pvcs s
  /\ namespaces s' = namespaces s /\ nodes s' = nodes s
  /\ (replicaSets s' = replicaSets s
      \/ exists o e depID,
           In o os /\ Kind o = "Deployment"
           /\ store.GetResourceID e "deployments" (owner_UID o) (sqlite s)
              = Some depID
           /\ replicaSets s' = <[rsUID := depID]> (replicaSets s)).
Proof.
  revert w. induction os as [|o os IH]; intros w; cbn.
  - auto 10.
  - destruct (String.eqb_spec (Kind o) "Deployment") as [Hkind|_].
    + unfold mbind, M_bind.
      destruct (query_run (fun e => store.GetResourceID e "deployments"
                             (owner_UID o)) w) as (e & w1 & -> & Hself).
      destruct (store.GetResourceID e "deployments" _ _) as [depID|] eqn:Hq.
      * cbn. rewrite Hself. repeat split. right. exists o, e, depID. auto.
      * specialize (IH w1). cbn in IH. rewrite Hself in IH.
        destruct IH as (H1 & H2 & H3 & H4 & H5 & [H6|(o' & e' & d & Ho & H6)]);
          repeat split; auto.
        right. exists o', e', d. tauto.
    + specialize (IH w). cbn in IH.
      destruct IH as (H1 & H2 & H3 & H4 & H5 & [H6|(o' & e' & d & Ho & H6)]);
        repeat split; auto.
      right. exists o', e', d. tauto.
Qed.

Section rs_frame.
Context (v : gmap string Z).

Local Abbreviation keeps := (stable (fun s => replicaSets s = v)).

Lemma getNamespaceID_rs name : keeps (getNamespaceID name).
Proof.
  unfold getNamespaceID. repeat stable_step.
  - apply stable_exec. intros ? ? ? ? _ H. exact H.
  - apply stable_modify. intros ? H. exact H.
Qed.

Lemma getNodeID_rs name uid : keeps (getNodeID name uid).
Proof.
  unfold getNodeID, nodes_read, nodes_fill. repeat stable_step.
  - apply stable_exec. intros ? ? ? ? _ H. exact H.
  - apply stable_modify. intros ? H. exact H.
Qed.

End rs_frame.

(** The row a pod upsert leaves under the uid. *)
Lemma UpsertPod_row e uid name ns nd dep sts ds db id db' :
  store.UpsertPod e uid name ns nd dep sts ds db = Some (id, db') ->
  find (fun r => String.eqb (store.p_uid r) uid)
       (store.rows (store.pods db'))
  = Some (store.mkPodRow id uid name ns nd dep sts ds
            (store.current_timestamp e)).
Proof.
  unfold store.UpsertPod, store.upsert.
  destruct (store.fault e); [discriminate|].
  destruct (store.foreign_keys e && _); [discriminate|].
  destruct (max_int64 <=? _); [discriminate|]. cbv zeta.
  destruct (find _ (store.rows (store.pods db))) as [r|] eqn:Hfind.
  - intros [= <- <-]. cbn.
    rewrite (find_map_same (fun r => String.eqb (store.p_uid r) uid)).
    + rewrite Hfind. cbn. apply find_some in Hfind as [_ Huid].
      rewrite Huid. apply String.eqb_eq in Huid. rewrite Huid. reflexivity.
    + intros x. destruct (String.eqb (store.p_uid x) uid) eqn:Hx; cbn; auto.
  - intros [= <- <-]. cbn. apply find_app_none; [exact Hfind|].
    cbn. apply String.eqb_refl.
Qed.

Lemma syncPod_upsert_run pod nsID nodeID rsuid w :
  pod_OwnerReferences pod = [mkOwner "ReplicaSet" rsuid] ->
  exists e wb,
    self wb = self w
    /\ syncPod_upsert pod nsID nodeID w
       = match store.UpsertPod e (pod_UID pod) (pod_Name pod) nsID nodeID
                 (replicaSets (self w) !! rsuid) None None (sqlite (self w))
         with
         | Some (id, db') =>
             (tt, mkWorld (mkSyncer db' (<[pod_UID pod := id]> (pods (self w)))
                             (pvcs (self w)) (namespaces (self w))
                             (nodes (self w)) (replicaSets (self w)))
                    (pending wb))
         | None => (tt, wb)
         end.
Proof.
  intros Hown. unfold syncPod_upsert. rewrite Hown.
  unfold mbind at 1, M_bind at 1. cbn [syncPod_owners].
  cbn [Kind owner_UID String.eqb Ascii.eqb Bool.eqb].
  unfold mbind at 1, M_bind at 1, gets at 1, mret at 1, M_ret at 1.
  cbn [self fst snd].
  replace (match replicaSets (self w) !! rsuid with
           | Some id => Some id
           | None => None
           end) with (replicaSets (self w) !! rsuid)
    by (destruct (replicaSets (self w) !! rsuid); reflexivity).
  unfold exec, mbind, M_bind. destruct (next_env w) as [e wb] eqn:He.
  assert (Hself : self wb = self w).
  { unfold next_env in He. destruct (pending w); injection He as _ <-;
      reflexivity. }
  exists e, wb. split; [exact Hself|].
  cbn. rewrite Hself.
  destruct (store.UpsertPod e _ _ nsID nodeID _ None None _)
    as [[id db']|]; cbn; rewrite ?Hself; reflexivity.
Qed.

Lemma syncPod_upsert_single pod nsID nodeID rsuid w :
  pod_OwnerReferences pod = [mkOwner "ReplicaSet" rsuid] ->
  let w1 := snd (syncPod_upsert pod nsID nodeID w) in
  store.pods (sqlite (self w1)) <> store.pods (sqlite (self w)) ->
  exists r,
    find (fun r => String.eqb (store.p_uid r) (pod_UID pod))
         (store.rows (store.pods (sqlite (self w1)))) = Some r
    /\ store.p_name r = pod_Name pod
    /\ store.p_namespace_id r = nsID /\ store.p_node_id r = nodeID
    /\ store.p_deployment_id r = replicaSets (self w) !! rsuid
    /\ store.p_statefulset_id r = None
    /\ store.p_daemonset_id r = None
    /\ pods (self w1) !! pod_UID pod = Some (store.p_id r).
Proof.
  intros Hown.
  destruct (syncPod_upsert_run pod nsID nodeID rsuid w Hown)
    as (e & wb & Hself & ->).
  destruct (store.UpsertPod e _ _ nsID nodeID _ None None _)
    as [[id db']|] eqn:Hst; cbn.
  - intros _. eexists. split.
    + eapply UpsertPod_row. exact Hst.
    + cbn. rewrite lookup_insert_eq. auto 10.
  - rewrite Hself. intros H. contradiction.
Qed.

End replica_sets.

(** X7. A ReplicaSet event never writes the identity store and touches
    no cache but the replica-set cache; there it either changes nothing
    or binds the uid of the ReplicaSet to the id the store holds for one
    of its owners of kind Deployment. *)
Theorem replica_set_is_transient (rs : syncer.ReplicaSet) (w : syncer.World) :
  let s := syncer.self w in
  let s' := syncer.self (snd (syncer.syncReplicaSet rs w)) in
  syncer.sqlite s' = syncer.sqlite s
  /\ syncer.pods s' = syncer.pods s /\ syncer.pvcs s' = syncer.pvcs s
  /\ syncer.namespaces s' = syncer.namespaces s
  /\ syncer.nodes s' = syncer.nodes s
  /\ (syncer.replicaSets s' = syncer.replicaSets s
      \/ exists o e depID,
           In o (syncer.rs_OwnerReferences rs)
           /\ syncer.Kind o = "Deployment"
           /\ store.GetResourceID e "deployments" (syncer.owner_UID o)
                (syncer.sqlite s) = Some depID
           /\ syncer.replicaSets s'
              = <[syncer.rs_UID rs := depID]> (syncer.replicaSets s)).
Proof. apply syncReplicaSet_owners_effect. Qed.

(** X8. The deployment link of a pod goes through the replica-set
    cache: when the event of a pod whose only owner is a ReplicaSet
    changes the pods table, the row under the pod's uid carries the pod's
    name, resolved namespace and node ids, the deployment id cached for
    that ReplicaSet (none when it is not cached) and no other controller
    link, and the pods cache binds the uid to the id of that row. *)
Theorem pod_link_via_replica_set (w : syncer.World) (pod : syncer.Pod)
    (rsuid : string) :
  syncer.pod_OwnerReferences pod = [syncer.mkOwner "ReplicaSet" rsuid] ->
  let w1 := snd (syncer.syncPod pod w) in
  store.pods (syncer.sqlite (syncer.self w1))
  <> store.pods (syncer.sqlite (syncer.self w)) ->
  exists r,
    find (fun r => String.eqb (store.p_uid r) (syncer.pod_UID pod))
         (store.rows (store.pods (syncer.sqlite (syncer.self w1)))) = Some r
    /\ store.p_name r = syncer.pod_Name pod
    /\ store.p_namespace_id r <> 0 /\ store.p_node_id r <> 0
    /\ store.p_deployment_id r = syncer.replicaSets (syncer.self w) !! rsuid
    /\ store.p_statefulset_id r = None
    /\ store.p_daemonset_id r = None
    /\ syncer.pods (syncer.self w1) !! syncer.pod_UID pod
       = Some (store.p_id r).
Proof.
  intros Hown w1. subst w1. rewrite syncPod_unfold.
  pose proof (getNamespaceID_pods (pods_view (syncer.self w))
                (syncer.pod_Namespace pod) w eq_refl) as Hpa.
  pose proof (getNamespaceID_rs (syncer.replicaSets (syncer.self w))
                (syncer.pod_Namespace pod) w eq_refl) as Hra.
  destruct (syncer.getNamespaceID _ w) as [nsID wa]. cbn [snd] in Hpa, Hra.
  injection Hpa as Hta _.
  destruct (Z.eqb_spec nsID 0) as [|Hns]; cbn [snd];
    [intros H; congruence|].
  destruct (negb _); cbn [snd]; [|intros H; congruence].
  pose proof (getNodeID_pods (pods_view (syncer.self wa))
                (syncer.pod_NodeName pod) "" wa eq_refl) as Hpb.
  pose proof (getNodeID_rs (syncer.replicaSets (syncer.self wa))
                (syncer.pod_NodeName pod) "" wa eq_refl) as Hrb.
  destruct (syncer.getNodeID _ _ wa) as [nodeID wb]. cbn [snd] in Hpb, Hrb.
  injection Hpb as Htb _.
  destruct (Z.eqb_spec nodeID 0) as [|Hnode]; cbn [snd];
    [intros H; congruence|].
  intros Hchanged.
  destruct (syncPod_upsert_single pod nsID nodeID rsuid wb Hown)
    as (r & Hfind & Hname & Hnsid & Hnid & Hdep & Hsts & Hds & Hcache);
    [congruence|].
  exists r. rewrite Hnsid, Hnid, Hdep, Hrb, Hra. auto 10.
Qed.

Lemma pod_link_via_replica_set_witness :
  exists r,
    find (fun r => String.eqb (store.p_uid r) "p-1")
         (store.rows (store.pods (syncer.sqlite (syncer.self s1_world))))
    = Some r
    /\ store.p_deployment_id r = Some 1.
Proof.
  destruct (pod_link_via_replica_set
              (snd (syncer.syncAll (firstn 3 s1_events) (world0 [])))
              (syncer.mkPod "p-1" "web-xyz" "ns-a"
                 [syncer.mkOwner "ReplicaSet" "rs-1"] "host-1") "rs-1"
              eq_refl)
    as (r & Hfind & _ & _ & _ & Hdep & _).
  - vm_compute. discriminate.
  - exists r. split; [exact Hfind | exact Hdep].
Defined.

(** ** The metrics store *)
Section batch_insert.
Import duckdb.

Lemma next_nth es : next es = (nth 0 es (store.mkEnv false 0 true), tl es).
Proof. destruct es; reflexivity. Qed.

Lemma nth_tl {A} (l : list A) i d : nth i (tl l) d = nth (S i) l d.
Proof. destruct l; [destruct i|]; reflexivity. Qed.

Lemma exec_each_some ms es tx tx' es' :
  exec_each ms es tx = Some (tx', es') ->
  tx' = (tx ++ map insert_row ms)%list
  /\ ~ fails_within (length ms) es
  /\ forall i d, nth i es' d = nth (length ms + i) es d.
Proof.
  revert es tx. induction ms as [|m ms IH]; intros es tx; cbn.
  - intros [= <- <-]. rewrite app_nil_r. repeat split; auto.
    intros (i & Hi & _). lia.
  - rewrite next_nth.
    destruct (store.fault (nth 0 es _)) eqn:H0; [discriminate|].
    intros H. apply IH in H as (-> & Hno & Hnth).
    rewrite <- app_assoc. repeat split; auto.
    + intros (i & Hi & Hf). destruct i as [|i]; [congruence|].
      apply Hno. exists i. rewrite nth_tl. split; [lia | exact Hf].
    + intros i d. rewrite Hnth, nth_tl. reflexivity.
Qed.

Lemma exec_each_none ms es tx :
  exec_each ms es tx = None -> fails_within (length ms) es.
Proof.
  revert es tx. induction ms as [|m ms IH]; intros es tx; cbn;
    [discriminate|].
  rewrite next_nth.
  destruct (store.fault (nth 0 es _)) eqn:H0.
  - intros _. exists 0%nat. split; [lia | exact H0].
  - intros H. apply IH in H as (i & Hi & Hf).
    exists (S i). rewrite nth_tl in Hf. split; [lia | exact Hf].
Qed.

Lemma BatchInsert_spec ms es s :
  let '(err, s') := BatchInsert ms es s in
  s' = (if err then s else s ++ map insert_row ms)%list
  /\ (err = true <-> ms <> [] /\ fails_within (length ms + 3) es).
Proof.
  unfold BatchInsert, buffer.len.
  destruct ms as [|m ms'] eqn:Hms; [cbn; rewrite app_nil_r; split; auto|].
  { split; [discriminate | intros [H _]; congruence]. }
  rewrite <- Hms. assert (Hne : ms <> []) by (subst; discriminate).
  replace (Z.of_nat (length ms) =? 0) with false
    by (subst; cbn [length]; symmetry; apply Z.eqb_neq; lia).
  clear Hms m ms'. rewrite !next_nth.
  destruct (store.fault (nth 0 es _)) eqn:H0.
  { split; [reflexivity|]. split; [intros _|reflexivity].
    split; [exact Hne|]. exists 0%nat. split; [lia | exact H0]. }
  destruct (store.fault (nth 0 (tl es) _)) eqn:H1.
  { split; [reflexivity|]. split; [intros _|reflexivity].
    split; [exact Hne|]. exists 1%nat. rewrite nth_tl in H1.
    split; [lia | exact H1]. }
  destruct (exec_each ms (tl (tl es)) []) as [[tx es']|] eqn:Hex.
  - apply exec_each_some in Hex as (-> & Hno & Hnth).
    rewrite next_nth, Hnth, !nth_tl, Nat.add_0_r.
    destruct (store.fault (nth (S (S (length ms))) es _)) eqn:Hc.
    + split; [reflexivity|]. split; [intros _|reflexivity].
      split; [exact Hne|]. exists (S (S (length ms))). split; [lia|exact Hc].
    + split; [reflexivity|]. split; [discriminate|].
      intros [_ (i & Hi & Hf)]. exfalso.
      destruct i as [|[|i]]; [congruence| rewrite nth_tl in H1; congruence|].
      destruct (Nat.eq_dec i (length ms)) as [->|Hd]; [congruence|].
      apply Hno. exists i. rewrite !nth_tl. split; [lia | exact Hf].
  - apply exec_each_none in Hex as (i & Hi & Hf). rewrite !nth_tl in Hf.
    split; [reflexivity|]. split; [intros _|reflexivity].
    split; [exact Hne|]. exists (S (S i)). split; [lia | exact Hf].
Qed.

End batch_insert.

(** X9. A batch insert is all or nothing: without an error the table
    is the old one followed by one row per metric, in order, with the
    metric's fields and the aggregation type raw; with an error the table
    is unchanged.  An error is returned exactly when the batch is not
    empty and one of its calls on the connection (begin, prepare, one
    exec per metric, commit) fails. *)
Theorem batch_insert_all_or_nothing (ms : list duckdb.MetricPoint)
    (es : list store.Env) (s : duckdb.DuckDBStore) :
  let '(err, s') := duckdb.BatchInsert ms es s in
  s' = (if err then s else s ++ map duckdb.insert_row ms)%list
  /\ (err = true <-> ms <> [] /\ fails_within (length ms + 3) es).
Proof. apply BatchInsert_spec. Qed.

(** X10. A tick of the persist worker always leaves the ring empty
    with its capacity, whatever the store does: when no call of the
    insert fails the table gains exactly the samples that were buffered,
    in order and field by field; when one fails the table is unchanged
    and the flushed samples are in neither place. *)
Theorem persist_tick_moves_or_drops (es : list store.Env)
    (ring : buffer.RingBuffer) (duck : duckdb.DuckDBStore) :
  let '(ring', duck') := main.persist_tick es (ring, duck) in
  let n := length (buffer.metrics ring) in
  buffer.ReadAll ring' = []
  /\ buffer.maxSize ring' = buffer.maxSize ring
  /\ (~ fails_within (n + 3) es ->
      duck' = (duck ++ map persisted (buffer.metrics ring))%list)
  /\ (fails_within (n + 3) es -> n <> 0%nat -> duck' = duck).
Proof.
  unfold main.persist_tick, buffer.Flush, buffer.len.
  destruct (buffer.metrics ring) as [|m ms] eqn:Hm.
  - cbn. rewrite app_nil_r. repeat split; auto.
  - rewrite <- Hm.
    replace (0 <? Z.of_nat (length (buffer.metrics ring))) with true
      by (rewrite Hm; cbn [length]; symmetry; apply Z.ltb_lt; lia).
    pose proof (BatchInsert_spec (map main.toPoint (buffer.metrics ring))
                  es duck) as H.
    destruct (duckdb.BatchInsert _ es duck) as [err duck'].
    rewrite length_map, map_map in H. destruct H as [-> Herr].
    cbn [snd buffer.ReadAll buffer.metrics buffer.maxSize].
    repeat split.
    + intros Hno. destruct err; [|reflexivity].
      exfalso. apply Hno. apply Herr. reflexivity.
    + intros Hf _. destruct err; [reflexivity|].
      assert (false = true); [|discriminate]. apply Herr. split; [|exact Hf].
      rewrite Hm. discriminate.
Qed.

(** ** The consumer as a whole *)
Section consumer.

Lemma known_stable obj w id :
  coherent (syncer.self w) -> known (syncer.self w) id ->
  known (syncer.self (snd (syncer.syncObject obj w))) id.
Proof.
  intros Hcoh [->|(uid & rType & Hres)]; [left; reflexivity|].
  right. exists uid, rType.
  apply (syncObject_resolves uid rType id obj w). split; assumption.
Qed.

Lemma known_stored s id : coherent s -> known s id -> stored (syncer.sqlite s) id.
Proof.
  intros [Hwf (Hp & Hv & _)] [->|(uid & rType & Hres)];
    [left; reflexivity|].
  right. destruct Hwf as (_ & _ & _ & _ & _ & Wp & Wv).
  unfold syncer.GetResourceID in Hres. destruct (String.eqb rType "pvc").
  - destruct (syncer.pvcs s !! uid) as [i|] eqn:Hi; [|discriminate].
    injection Hres as ->. apply Hv in Hi.
    unfold store.GetResourceID in Hi. cbn in Hi. split.
    + eapply (find_positive store.o_id store.o_uid); [exact Wv | exact Hi].
    + right. eapply find_references. exact Hi.
  - destruct (syncer.pods s !! uid) as [i|] eqn:Hi; [|discriminate].
    injection Hres as ->. apply Hp in Hi.
    unfold store.GetResourceID in Hi. cbn in Hi. split.
    + eapply (find_positive store.p_id store.p_uid); [exact Wp | exact Hi].
    + left. eapply find_references. exact Hi.
Qed.

Lemma toMetric_known s raw :
  known s (buffer.ResourceID (ingest.toMetric s raw)).
Proof.
  cbn. unfold ingest.resolveID.
  destruct (ingest.resolveUID raw) as [uid rType].
  destruct (negb _); [|left; reflexivity].
  destruct (ingest.GetResourceID s uid rType) as [id ok] eqn:Hres.
  destruct ok; [|left; reflexivity]. right. exists uid, rType. exact Hres.
Qed.

Lemma Forall_take {A} (P : A -> Prop) n (l : list A) :
  List.Forall P l -> List.Forall P (firstn n l).
Proof.
  intros H. rewrite <- (firstn_skipn n l) in H.
  apply List.Forall_app in H. apply H.
Qed.

Lemma AddAll_bound ms rb :
  buffer.len (buffer.metrics rb) <= buffer.maxSize rb ->
  buffer.len (buffer.metrics (buffer.AddAll ms rb)) <= buffer.maxSize rb.
Proof.
  intros H. rewrite AddAll_metrics. unfold buffer.len in *.
  rewrite length_app, length_firstn. lia.
Qed.

Lemma step_ok ev c :
  consumer_ok c ->
  consumer_ok (main.step ev c)
  /\ buffer.maxSize (main.ring (main.step ev c)) = buffer.maxSize (main.ring c)
  /\ exists rows, main.duck (main.step ev c) = (main.duck c ++ rows)%list.
Proof.
  intros (Hcoh & Hlen & Hring & Hduck). destruct ev as [obj|r|es].
  - cbn. split; [|split; [reflexivity | exists []; symmetry; apply app_nil_r]].
    split; [apply syncObject_coherent, Hcoh|]. split; [exact Hlen|].
    split; (eapply List.Forall_impl; [|eassumption]); cbn; intros x Hx;
      apply known_stable; assumption.
  - cbn [main.step main.sync main.ring main.duck].
    split; [|split; [|exists []; symmetry; apply app_nil_r]].
    + unfold consumer_ok. cbn [main.step main.sync main.ring main.duck].
      split; [exact Hcoh|]. unfold ingest.HandleIngest.
      destruct (negb _); [repeat split; assumption|].
      destruct (ingest.Body r) as [req|]; [|repeat split; assumption].
      cbn [snd ingest.buffer ingest.resolver]. rewrite ingest_fold.
      split; [|split; [|exact Hduck]].
      * rewrite AddAll_maxSize. apply AddAll_bound, Hlen.
      * rewrite AddAll_metrics. apply List.Forall_app. split; [exact Hring|].
        apply Forall_take. apply List.Forall_map, List.Forall_forall.
        intros raw _. apply toMetric_known.
    + unfold ingest.HandleIngest.
      destruct (negb _); [reflexivity|].
      destruct (ingest.Body r) as [req|]; [|reflexivity].
      cbn [snd ingest.buffer ingest.resolver]. rewrite ingest_fold.
      apply AddAll_maxSize.
  - unfold main.step, main.persist_tick, buffer.Flush.
    destruct (0 <? _).
    + pose proof (BatchInsert_spec
                    (map main.toPoint (buffer.metrics (main.ring c)))
                    es (main.duck c)) as H.
      destruct (duckdb.BatchInsert _ es _) as [err duck']. destruct H as [-> _].
      cbn [snd]. split; [|split; [reflexivity|]].
      * split; [exact Hcoh|]. cbn. split; [|split; [constructor|]].
        { pose proof (Zle_0_nat (length (buffer.metrics (main.ring c)))).
          unfold buffer.len in *. cbn [length]. lia. }
        destruct err; [exact Hduck|]. apply List.Forall_app.
        split; [exact Hduck|]. rewrite map_map. apply List.Forall_map.
        exact Hring.
      * destruct err; [exists []; symmetry; apply app_nil_r | eauto].
    + split; [|split; [reflexivity | exists []; symmetry; apply app_nil_r]].
      split; [exact Hcoh|]. cbn. split; [|split; [constructor | exact Hduck]].
      pose proof (Zle_0_nat (length (buffer.metrics (main.ring c)))).
      unfold buffer.len in *. cbn [length]. lia.
Qed.

Lemma run_ok evs c :
  consumer_ok c ->
  consumer_ok (main.run evs c)
  /\ buffer.maxSize (main.ring (main.run evs c)) = buffer.maxSize (main.ring c)
  /\ exists rows, main.duck (main.run evs c) = (main.duck c ++ rows)%list.
Proof.
  revert c. induction evs as [|ev evs IH]; intros c Hc.
  - split; [exact Hc|]. split; [reflexivity|].
    exists []. symmetry. apply app_nil_r.
  - destruct (step_ok ev c Hc) as (Hc' & Hmax & rows & Hrows).
    destruct (IH _ Hc') as (Hok & Hmax' & rows' & Hrows').
    change (main.run (ev :: evs) c) with (main.run evs (main.step ev c)).
    split; [exact Hok|]. split; [congruence|].
    exists (rows ++ rows')%list. rewrite Hrows', Hrows. symmetry.
    apply app_assoc.
Qed.

Lemma start_ok db envs c :
  db_wf db -> main.start db envs [] = Some c -> consumer_ok c.
Proof.
  intros Hwf [= <-]. split; [apply coherent_new; assumption|].
  cbn. split; [discriminate|]. split; constructor.
Qed.

End consumer.

(** X11. Ids stay valid across the two stores.  Starting from a
    coherent syncer, a ring within its capacity and known resource ids,
    any sequence of watch events, ingest requests and persist ticks keeps
    that state; the ring keeps its capacity and never exceeds it, the
    metrics table only grows at its end, and every resource id in the
    ring and in the metrics table is 0 or the positive primary key of a
    row of the pods or pvcs table of the identity store. *)
Theorem consumer_ids_stay_valid (evs : list main.Event) (c : main.Consumer) :
  consumer_ok c ->
  let c' := main.run evs c in
  let db := syncer.sqlite (syncer.self (main.sync c')) in
  consumer_ok c'
  /\ buffer.maxSize (main.ring c') = buffer.maxSize (main.ring c)
  /\ buffer.len (buffer.ReadAll (main.ring c')) <= buffer.maxSize (main.ring c)
  /\ (exists rows, main.duck c' = (main.duck c ++ rows)%list)
  /\ List.Forall (fun m => stored db (buffer.ResourceID m))
                 (buffer.ReadAll (main.ring c'))
  /\ List.Forall (fun r => stored db (duckdb.resource_id r)) (main.duck c').
Proof.
  intros Hc c' db. destruct (run_ok evs c Hc) as (Hok & Hmax & Hrows).
  fold c' in Hok, Hmax, Hrows. split; [exact Hok|]. split; [exact Hmax|].
  destruct Hok as (Hcoh & Hlen & Hring & Hduck).
  split; [rewrite <- Hmax; exact Hlen|]. split; [exact Hrows|].
  split; (eapply List.Forall_impl; [|eassumption]); cbn; intros x Hx;
    apply known_stored; assumption.
Qed.

(** Scenario S1 with one sample of its pod, flushed: the row persisted
    carries the id of the pod row. *)
Lemma consumer_ids_stay_valid_witness :
  map duckdb.resource_id (main.duck (main.run s1_run fresh_consumer)) = [1]
  /\ List.Forall
       (fun r => stored (syncer.sqlite (syncer.self
                           (main.sync (main.run s1_run fresh_consumer))))
                        (duckdb.resource_id r))
       (main.duck (main.run s1_run fresh_consumer)).
Proof.
  split; [vm_compute; reflexivity|].
  refine (proj2 (proj2 (proj2 (proj2 (proj2
            (consumer_ids_stay_valid s1_run fresh_consumer _)))))).
  apply (start_ok store.empty_db []); [apply empty_db_wf | reflexivity].
Defined.

(** ** Ordering and joins *)
Section ordering.
Context {A : Type} (key : A -> string).
Import api_list.

Lemma insert_by_perm x l : Permutation (insert_by key x l) (x :: l).
Proof.
  induction l as [|y l IH]; cbn; [reflexivity|].
  destruct (String.leb _ _); [|reflexivity].
  rewrite IH. apply perm_swap.
Qed.

Lemma compare_trans (a b c : string) :
  String.compare a b <> Gt -> String.compare b c <> Gt ->
  String.compare a c <> Gt.
Proof.
  revert b c. induction a as [|x a IH]; intros [|y b] [|z c]; cbn;
    try congruence.
  unfold Ascii.compare.
  destruct (N.compare_spec (N_of_ascii x) (N_of_ascii y)) as [Hxy|Hxy|Hxy];
    destruct (N.compare_spec (N_of_ascii y) (N_of_ascii z)) as [Hyz|Hyz|Hyz];
    destruct (N.compare_spec (N_of_ascii x) (N_of_ascii z)) as [Hxz|Hxz|Hxz];
    try congruence; try lia.
  apply IH.
Qed.

Lemma leb_trans (a b c : string) :
  String.leb a b = true -> String.leb b c = true -> String.leb a c = true.
Proof.
  unfold String.leb. intros Hab Hbc.
  pose proof (compare_trans a b c) as H.
  destruct (String.compare a b), (String.compare b c),
    (String.compare a c); try reflexivity; try discriminate;
    exfalso; apply H; congruence.
Qed.

Lemma insert_by_sorted x l :
  sorted_by key l -> sorted_by key (insert_by key x l).
Proof.
  unfold sorted_by. induction l as [|y l IH]; cbn; intros Hs.
  - repeat constructor.
  - apply StronglySorted_inv in Hs as [Hs Hall].
    destruct (String.leb (key y) (key x)) eqn:Hyx.
    + constructor; [apply IH, Hs|].
      apply List.Forall_forall. intros z Hz.
      apply (Permutation_in _ (insert_by_perm x l)) in Hz as [<-|Hz];
        [exact Hyx|].
      apply (proj1 (List.Forall_forall _ _) Hall z Hz).
    + assert (Hxy : String.leb (key x) (key y) = true).
      { destruct (String.leb_total (key x) (key y)) as [H|H];
          [exact H | congruence]. }
      constructor; [constructor; assumption|].
      constructor; [exact Hxy|].
      eapply List.Forall_impl; [|exact Hall]. cbn. intros z Hz.
      eapply leb_trans; eassumption.
Qed.

Lemma sorted_by_filter (f : A -> bool) l :
  sorted_by key l -> sorted_by key (List.filter f l).
Proof.
  unfold sorted_by. induction 1 as [|x l Hs IH Hall]; cbn; [constructor|].
  destruct (f x); [|exact IH]. constructor; [exact IH|].
  apply List.Forall_forall. intros z Hz. apply filter_In in Hz as [Hz _].
  apply (proj1 (List.Forall_forall _ _) Hall z Hz).
Qed.

Lemma order_by_fold l acc :
  sorted_by key acc ->
  let r := fold_left (fun acc x => insert_by key x acc) l acc in
  sorted_by key r /\ Permutation r (acc ++ l).
Proof.
  revert acc. induction l as [|x l IH]; intros acc Hacc; cbn.
  - rewrite app_nil_r. split; [exact Hacc | reflexivity].
  - destruct (IH (insert_by key x acc) (insert_by_sorted x acc Hacc))
      as [Hs Hp].
    split; [exact Hs|]. rewrite Hp, insert_by_perm.
    change (x :: acc ++ l)%list with ((x :: acc) ++ l)%list.
    rewrite (Permutation_app_comm acc (x :: l)). cbn.
    apply perm_skip. apply Permutation_app_comm.
Qed.

Lemma order_by_spec l :
  sorted_by key (order_by key l) /\ Permutation (order_by key l) l.
Proof. apply (order_by_fold l []). constructor. Qed.

End ordering.

Lemma sorted_by_map {A B} (key : B -> string) (f : A -> B) (l : list A) :
  sorted_by (fun x => key (f x)) l -> sorted_by key (map f l).
Proof.
  unfold sorted_by. induction 1 as [|x l Hs IH Hall]; cbn; constructor.
  - exact IH.
  - apply List.Forall_map. exact Hall.
Qed.

Section joins.

(** Filtering and mapping in one pass. *)
Lemma flat_map_filter {A B} (c : A -> bool) (f : A -> B) (l : list A) :
  flat_map (fun x => if c x then [f x] else []) l = map f (List.filter c l).
Proof.
  induction l as [|x l IH]; cbn; [reflexivity|].
  rewrite IH. destruct (c x); reflexivity.
Qed.

(** Among rows of pairwise different ids, an id selects its row. *)
Lemma filter_id {R} (id_of : R -> Z) (l : list R) (i : Z) :
  List.NoDup (map id_of l) ->
  existsb (fun r => id_of r =? i) l = true ->
  exists r, find (fun r => id_of r =? i) l = Some r
            /\ List.filter (fun r => id_of r =? i) l = [r].
Proof.
  induction l as [|x l IH]; cbn; intros Hnd Hex; [discriminate|].
  apply List.NoDup_cons_iff in Hnd as [Hx Hl].
  destruct (Z.eqb_spec (id_of x) i) as [Heq|Hne].
  - exists x. split; [reflexivity|]. f_equal. apply filter_none.
    intros y Hy. apply Z.eqb_neq. intros Hyi. apply Hx.
    rewrite Heq, <- Hyi. apply in_map, Hy.
  - cbn in Hex. apply IH; assumption.
Qed.

Lemma join_namespace db i :
  db_wf db ->
  store.references store.ns_id (store.namespaces db) i = true ->
  exists ns,
    List.filter (fun n => store.ns_id n =? i)
                (store.rows (store.namespaces db)) = [ns]
    /\ namespace_name db i = store.ns_name ns.
Proof.
  intros ((_ & Hnd & _) & _) Href.
  destruct (filter_id store.ns_id _ i Hnd Href) as (ns & Hfind & Hfil).
  exists ns. split; [exact Hfil|]. unfold namespace_name, row_of.
  rewrite Hfind. reflexivity.
Qed.

Lemma join_node db i :
  db_wf db ->
  store.references store.n_id (store.nodes db) i = true ->
  exists n,
    List.filter (fun n => store.n_id n =? i)
                (store.rows (store.nodes db)) = [n]
    /\ node_name db i = store.n_name n.
Proof.
  intros (_ & (_ & Hnd & _) & _) Href.
  destruct (filter_id store.n_id _ i Hnd Href) as (n & Hfind & Hfil).
  exists n. split; [exact Hfil|]. unfold node_name, row_of.
  rewrite Hfind. reflexivity.
Qed.

(** The LEFT JOIN with the deployments yields one name, or NULL. *)
Lemma join_deployment db (i : option Z) :
  db_wf db ->
  store.references_opt store.o_id (store.deployments db) i = true ->
  let ds := List.filter (fun d => match i with
                                  | Some i => store.o_id d =? i
                                  | None => false
                                  end)
                        (store.rows (store.deployments db)) in
  match ds with
  | [] => [None]
  | _ => map (fun d => Some (store.o_name d)) ds
  end = [deployment_name db i].
Proof.
  intros (_ & _ & (_ & Hnd & _) & _) Href. destruct i as [i|]; cbn.
  - destruct (filter_id store.o_id _ i Hnd Href) as (d & Hfind & Hfil).
    rewrite Hfil. unfold row_of. rewrite Hfind. reflexivity.
  - rewrite filter_none by reflexivity. reflexivity.
Qed.

End joins.

Section list_handlers.
Import api_list.

Lemma flat_map_ext_in {A B} (f g : A -> list B) (l : list A) :
  (forall x, In x l -> f x = g x) -> flat_map f l = flat_map g l.
Proof.
  induction l as [|x l IH]; cbn; intros H; [reflexivity|].
  rewrite (H x), IH by auto. reflexivity.
Qed.

Lemma lists_order_by {R B} (key : B -> string) (entry : R -> B)
    (rows : list R) (l : list B) :
  l = map entry rows -> lists (OK (order_by key l)) key entry rows.
Proof.
  intros ->. exists (order_by key (map entry rows)).
  split; [reflexivity|]. apply order_by_spec.
Qed.

Lemma queryOwned_schema t nsID db :
  db_wf db -> List.Forall (owned_fk db) (store.rows t) ->
  queryOwned t nsID db
  = order_by o_Name
      (map (owned_entry db)
           (List.filter (fun d => match nsID with
                                  | Some i => store.o_namespace_id d =? i
                                  | None => true
                                  end) (store.rows t))).
Proof.
  intros Hwf Hfk. unfold queryOwned. f_equal.
  rewrite <- flat_map_filter. apply flat_map_ext_in. intros d Hd.
  destruct (match nsID with Some _ => _ | None => _ end); [|reflexivity].
  apply (proj1 (List.Forall_forall _ _) Hfk) in Hd.
  destruct (join_namespace db _ Hwf Hd) as (ns & -> & Hname).
  unfold owned_entry. rewrite Hname. reflexivity.
Qed.

Lemma listPods_schema r db :
  db_wf db -> fk_ok db ->
  flat_map (fun p =>
    flat_map (fun ns =>
      flat_map (fun n =>
        let ds := List.filter (fun d => match store.p_deployment_id p with
                                        | Some i => store.o_id d =? i
                                        | None => false
                                        end)
                              (store.rows (store.deployments db)) in
        let dnames := match ds with
                      | [] => [None]
                      | _ => map (fun d => Some (store.o_name d)) ds
                      end in
        if podFilter r p then
          map (fun dn => mkPod (store.p_id p) (store.p_name p)
                           (store.p_uid p)
                           (store.p_namespace_id p) (store.ns_name ns)
                           (store.p_node_id p) (store.n_name n)
                           (store.p_deployment_id p) dn) dnames
        else [])
      (List.filter (fun n => store.n_id n =? store.p_node_id p)
                   (store.rows (store.nodes db))))
    (List.filter (fun ns => store.ns_id ns =? store.p_namespace_id p)
                 (store.rows (store.namespaces db))))
  (store.rows (store.pods db))
  = map (pod_entry db) (List.filter (podFilter r) (store.rows (store.pods db))).
Proof.
  intros Hwf (_ & _ & _ & _ & Hfk).
  rewrite <- flat_map_filter. apply flat_map_ext_in. intros p Hp.
  apply (proj1 (List.Forall_forall _ _) Hfk) in Hp
    as (Hns & Hn & Hd & _ & _).
  destruct (join_namespace db _ Hwf Hns) as (ns & -> & Hnsname).
  destruct (join_node db _ Hwf Hn) as (n & -> & Hnname).
  cbn [flat_map]. rewrite !app_nil_r.
  pose proof (join_deployment db _ Hwf Hd) as Hjoin. cbv zeta in Hjoin |- *.
  rewrite Hjoin.
  destruct (podFilter r p); [|reflexivity].
  unfold pod_entry. rewrite Hnsname, Hnname. reflexivity.
Qed.

End list_handlers.

(** X12. On a store that respects its schema, each list handler
    answers a GET whose query succeeds with a 200 whose body is ordered
    by name and holds exactly one entry per row of its table, for the
    rows that match the filters of the request: the foreign keys of a row
    never drop it from a join nor repeat it, and each entry carries the
    names of the rows its foreign keys point to. *)
Theorem list_handlers_complete (s : api.Server) (r : api.Request)
    (e : store.Env) :
  db_wf (api.sqlite s) -> fk_ok (api.sqlite s) ->
  api.Method r = "GET" -> store.fault e = false ->
  let db := api.sqlite s in
  lists (api_list.handleListNodes s r e) api_list.node_Name
        node_entry (store.rows (store.nodes db))
  /\ lists (api_list.handleListNamespaces s r e) api_list.ns_Name
           namespace_entry (store.rows (store.namespaces db))
  /\ lists (api_list.handleListDeployments s r e) api_list.o_Name
           (owned_entry db)
           (List.filter (in_namespace r) (store.rows (store.deployments db)))
  /\ lists (api_list.handleListPVCs s r e) api_list.o_Name
           (owned_entry db)
           (List.filter (in_namespace r) (store.rows (store.pvcs db)))
  /\ lists (api_list.handleListPods s r e) api_list.pod_Name
           (pod_entry db)
           (List.filter (api_list.podFilter r) (store.rows (store.pods db))).
Proof.
  intros Hwf Hfk Hget He db.
  unfold api_list.handleListNodes, api_list.handleListNamespaces,
    api_list.handleListDeployments, api_list.handleListPVCs,
    api_list.handleListPods.
  rewrite Hget, He. cbn [String.eqb Ascii.eqb Bool.eqb negb].
  pose proof Hfk as (Hd & _ & _ & Hv & _).
  repeat match goal with |- _ /\ _ => split end.
  - apply lists_order_by. reflexivity.
  - apply lists_order_by. reflexivity.
  - rewrite (queryOwned_schema _ _ _ Hwf Hd). apply lists_order_by.
    reflexivity.
  - rewrite (queryOwned_schema _ _ _ Hwf Hv). apply lists_order_by.
    reflexivity.
  - apply lists_order_by. apply listPods_schema; assumption.
Qed.

(** After scenario S1 the pod list has the one pod, with the names of
    its namespace, node and deployment. *)
Lemma list_handlers_complete_witness :
  lists (api_list.handleListPods
           (api.mkServer (syncer.sqlite (syncer.self s1_world))
                         (buffer.mkRing [] 10000))
           get_all syncer.quiet)
        api_list.pod_Name
        (pod_entry (syncer.sqlite (syncer.self s1_world)))
        (store.rows (store.pods (syncer.sqlite (syncer.self s1_world)))).
Proof.
  refine (proj2 (proj2 (proj2 (proj2
            (list_handlers_complete
               (api.mkServer (syncer.sqlite (syncer.self s1_world))
                             (buffer.mkRing [] 10000))
               get_all syncer.quiet _ _ eq_refl eq_refl))))).
  - apply s1_coherent.
  - apply s1_fk_ok.
Defined.

(** ** The live view on a store that respects its schema *)
Section live_schema.
Import api.

Lemma order_by_name_eq l : order_by_name l = api_list.order_by meta_name l.
Proof.
  unfold order_by_name, api_list.order_by. generalize (@nil PodMeta).
  induction l as [|x l IH]; intros acc; cbn; [reflexivity|].
  rewrite IH. f_equal. clear. induction acc as [|y acc IH]; cbn;
    [reflexivity|]. rewrite IH. reflexivity.
Qed.

Lemma queryPods_schema e conds db :
  db_wf db -> fk_ok db -> store.fault e = false ->
  queryPods e conds db
  = Some (order_by_name
            (map (pod_meta db)
                 (List.filter (fun p => forallb (fun c => holds c p) conds)
                              (store.rows (store.pods db))))).
Proof.
  intros Hwf (_ & _ & _ & _ & Hfk) He. unfold queryPods. rewrite He.
  do 2 f_equal.
  rewrite <- flat_map_filter. apply flat_map_ext_in. intros p Hp.
  apply (proj1 (List.Forall_forall _ _) Hfk) in Hp
    as (Hns & Hn & Hd & _ & _).
  destruct (join_namespace db _ Hwf Hns) as (ns & -> & Hnsname).
  destruct (join_node db _ Hwf Hn) as (n & -> & Hnname).
  cbn [flat_map]. rewrite !app_nil_r.
  pose proof (join_deployment db _ Hwf Hd) as Hjoin. cbv zeta in Hjoin |- *.
  rewrite Hjoin.
  destruct (forallb _ conds); [|reflexivity].
  unfold pod_meta. rewrite Hnsname, Hnname. reflexivity.
Qed.

Lemma livePod_Name x cutoff ms : Name (livePod x cutoff ms) = meta_name x.
Proof.
  destruct x as [[[[[id name] uid] ns] node] dep]. unfold livePod.
  destruct (fold_left _ ms _). reflexivity.
Qed.

Lemma sorted_by_ext {A} (key key' : A -> string) (l : list A) :
  (forall x, key x = key' x) -> sorted_by key l -> sorted_by key' l.
Proof.
  intros Hk. unfold sorted_by.
  induction 1 as [|x l Hs IH Hall]; constructor; [exact IH|].
  eapply List.Forall_impl; [|exact Hall]. cbn. intros y.
  rewrite !Hk. auto.
Qed.

Lemma filter_perm {A} (f : A -> bool) (l l' : list A) :
  Permutation l l' -> Permutation (List.filter f l) (List.filter f l').
Proof.
  induction 1 as [|x l l' _ IH|x y l|l l' l'' _ IH1 _ IH2]; cbn.
  - constructor.
  - destruct (f x); [apply perm_skip|]; exact IH.
  - destruct (f x), (f y); try reflexivity. apply perm_swap.
  - etransitivity; eassumption.
Qed.

Lemma filter_map_comm {A B} (f : B -> bool) (g : A -> B) (l : list A) :
  List.filter f (map g l) = map g (List.filter (fun x => f (g x)) l).
Proof.
  induction l as [|x l IH]; cbn; [reflexivity|].
  rewrite IH. destruct (f (g x)); reflexivity.
Qed.

Lemma filter_filter {A} (f g : A -> bool) (l : list A) :
  List.filter f (List.filter g l) = List.filter (fun x => g x && f x) l.
Proof.
  induction l as [|x l IH]; cbn; [reflexivity|].
  destruct (g x); cbn; rewrite IH; reflexivity.
Qed.

Lemma NoDup_map_filter {A B} (f : A -> B) (g : A -> bool) (l : list A) :
  List.NoDup (map f l) -> List.NoDup (map f (List.filter g l)).
Proof.
  induction l as [|x l IH]; cbn; intros Hnd; [constructor|].
  apply List.NoDup_cons_iff in Hnd as [Hx Hl].
  destruct (g x); cbn; [|auto]. constructor; [|auto].
  intros Hin. apply Hx. apply in_map_iff in Hin as (y & Hy & Hin).
  apply filter_In in Hin as [Hin _]. rewrite <- Hy. apply in_map, Hin.
Qed.

Lemma live_view_schema (s : Server) (r : Request) (now later : gotime.Time)
    (e : store.Env) :
  db_wf (sqlite s) -> fk_ok (sqlite s) ->
  Method r = "GET" -> store.fault e = false ->
  let cutoffTime := gotime.Add now (-5 * gotime.Second) in
  let ms := buffer.ReadAll (ring s) in
  exists pods,
    handleLiveMetrics s r now later e
    = OK (mkLive (gotime.ToUnix later) pods)
    /\ sorted_by Name pods
    /\ Permutation pods
         (map (fun p => livePod (pod_meta (sqlite s) p) cutoffTime ms)
              (List.filter (shown r cutoffTime ms)
                           (store.rows (store.pods (sqlite s))))).
Proof.
  intros Hwf Hfk Hget He cutoffTime ms. unfold handleLiveMetrics.
  rewrite Hget. cbn [String.eqb Ascii.eqb Bool.eqb negb].
  fold cutoffTime. fold ms. set (active := activePodIDs cutoffTime ms).
  destruct (Z.eqb_spec (buffer.len (map_to_list active)) 0) as [Hempty|_].
  - exists []. split; [reflexivity|]. split; [constructor|].
    assert (Hnone : active = ∅).
    { apply map_to_list_empty_iff. unfold buffer.len in Hempty.
      destruct (map_to_list active); [reflexivity|discriminate]. }
    rewrite filter_none; [reflexivity|]. intros p _. unfold shown.
    fold active. rewrite Hnone. unfold is_active. rewrite lookup_empty.
    apply andb_false_r.
  - rewrite (queryPods_schema _ _ _ Hwf Hfk He), order_by_name_eq.
    eexists. split; [reflexivity|].
    set (L := map (pod_meta (sqlite s)) _).
    destruct (order_by_spec meta_name L) as [Hs Hp]. split.
    + apply sorted_by_map.
      apply (sorted_by_ext meta_name);
        [intros x; symmetry; apply livePod_Name|].
      apply sorted_by_filter, Hs.
    + rewrite (filter_perm _ _ _ Hp). subst L.
      rewrite filter_map_comm, filter_filter, map_map. reflexivity.
Qed.

End live_schema.

(** ** The container summary of a live pod *)
Section containers.
Import api.

Lemma latest_snoc ty ms m :
  latest ty (ms ++ [m])
  = if String.eqb (buffer.Type_ m) ty then buffer.Value m else latest ty ms.
Proof.
  unfold latest. rewrite List.filter_app. cbn [List.filter].
  destruct (String.eqb (buffer.Type_ m) ty).
  - rewrite map_app. cbn. apply List.last_last.
  - rewrite app_nil_r. reflexivity.
Qed.

Lemma latest_none ty ms :
  container_type ty = true ->
  existsb (fun m => container_type (buffer.Type_ m)) ms = false ->
  latest ty ms = float64_zero.
Proof.
  intros Hty Hnone. unfold latest. rewrite filter_none; [reflexivity|].
  intros m Hm. destruct (String.eqb_spec (buffer.Type_ m) ty) as [Heq|];
    [|reflexivity].
  assert (existsb (fun m => container_type (buffer.Type_ m)) ms = true);
    [|congruence].
  apply existsb_exists. exists m. rewrite Heq. auto.
Qed.

Lemma touch_default_as_map f l :
  touch_default f (as_map l)
  = {["default" := f match l with
                     | c :: _ => c
                     | [] => mkContainerInfo "default" float64_zero
                               float64_zero float64_zero
                     end]}.
Proof.
  unfold touch_default, as_map. destruct l as [|c l].
  - rewrite lookup_empty. apply insert_empty.
  - rewrite lookup_singleton_eq. apply insert_singleton_eq.
Qed.

Lemma summary_snoc id cutoff ms m :
  container_summary id cutoff (ms ++ [m])
  = if relevant id cutoff m then
      let rel := List.filter (relevant id cutoff) ms in
      let pick ty := if String.eqb (buffer.Type_ m) ty then buffer.Value m
                     else latest ty rel in
      if existsb (fun m => container_type (buffer.Type_ m)) rel
         || container_type (buffer.Type_ m)
      then [mkContainerInfo "default" (pick "cpu_ms") (pick "mem_mb")
              (pick "mem_limit_mb")]
      else []
    else container_summary id cutoff ms.
Proof.
  unfold container_summary. rewrite List.filter_app. cbn [List.filter].
  destruct (relevant id cutoff m).
  - rewrite existsb_app, !latest_snoc. cbn [existsb].
    rewrite orb_false_r. reflexivity.
  - rewrite app_nil_r. reflexivity.
Qed.

Lemma aggregate_summary id cutoff ms :
  fold_left (aggregate_step id cutoff) ms (∅, ∅)
  = (as_map (container_summary id cutoff ms), ∅).
Proof.
  induction ms as [|m ms IH] using rev_ind; [reflexivity|].
  rewrite fold_left_app, IH. cbn [fold_left]. rewrite summary_snoc.
  unfold aggregate_step, relevant.
  destruct (buffer.ResourceID m =? id); cbn [negb andb orb]; [|reflexivity].
  destruct (gotime.Before (buffer.Time m) cutoff); cbn [negb];
    [reflexivity|].
  cbv zeta. unfold container_summary.
  set (rel := List.filter _ ms).
  destruct (existsb _ rel) eqn:Hany; cbn [orb]; unfold container_type.
  - destruct (String.eqb_spec (buffer.Type_ m) "cpu_ms") as [Heq|_];
      [rewrite ?Heq, touch_default_as_map; reflexivity|].
    destruct (String.eqb_spec (buffer.Type_ m) "mem_mb") as [Heq|_];
      [rewrite ?Heq, touch_default_as_map; reflexivity|].
    destruct (String.eqb_spec (buffer.Type_ m) "mem_limit_mb") as [Heq|_];
      [rewrite ?Heq, touch_default_as_map; reflexivity|].
    destruct (_ || _); reflexivity.
  - rewrite !(latest_none _ rel) by (reflexivity || exact Hany).
    destruct (String.eqb_spec (buffer.Type_ m) "cpu_ms") as [Heq|_];
      [rewrite ?Heq, touch_default_as_map; reflexivity|].
    destruct (String.eqb_spec (buffer.Type_ m) "mem_mb") as [Heq|_];
      [rewrite ?Heq, touch_default_as_map; reflexivity|].
    destruct (String.eqb_spec (buffer.Type_ m) "mem_limit_mb") as [Heq|_];
      [rewrite ?Heq, touch_default_as_map; reflexivity|].
    destruct (_ || _); reflexivity.
Qed.

Lemma livePod_Containers x cutoff ms :
  Containers (livePod x cutoff ms)
  = container_summary (ID (livePod x cutoff ms)) cutoff ms.
Proof.
  destruct x as [[[[[id name] uid] ns] node] dep]. unfold livePod.
  rewrite aggregate_summary. cbn [ID Containers].
  destruct (container_summary id cutoff ms) as [|c l] eqn:Hsum;
    cbn [as_map].
  - rewrite map_to_list_empty. reflexivity.
  - rewrite map_to_list_singleton. cbn. f_equal.
    unfold container_summary in Hsum. destruct (existsb _ _);
      [injection Hsum as _ <-; reflexivity | discriminate].
Qed.

End containers.

(** X13. On a store that respects its schema, a GET of the live view
    whose query succeeds lists its pods in ascending order of name, with
    exactly one entry per pod row that passes the filters of the request
    and is active, built from that row and the names its foreign keys
    stand for; no pod id appears twice. *)
Theorem live_view_ordered (s : api.Server) (r : api.Request)
    (now later : gotime.Time) (e : store.Env) :
  db_wf (api.sqlite s) -> fk_ok (api.sqlite s) ->
  api.Method r = "GET" -> store.fault e = false ->
  let cutoffTime := gotime.Add now (-5 * gotime.Second) in
  let ms := buffer.ReadAll (api.ring s) in
  exists pods,
    api.handleLiveMetrics s r now later e
    = api.OK (api.mkLive (gotime.ToUnix later) pods)
    /\ sorted_by api.Name pods
    /\ Permutation pods
         (map (fun p => api.livePod (pod_meta (api.sqlite s) p) cutoffTime ms)
              (List.filter (shown r cutoffTime ms)
                           (store.rows (store.pods (api.sqlite s)))))
    /\ List.NoDup (map api.ID pods).
Proof.
  intros Hwf Hfk Hget He cutoffTime ms.
  destruct (live_view_schema s r now later e Hwf Hfk Hget He)
    as (pods & Hresp & Hsorted & Hperm).
  exists pods. split; [exact Hresp|]. split; [exact Hsorted|].
  split; [exact Hperm|].
  apply (Permutation_NoDup (Permutation_sym (Permutation_map api.ID Hperm))).
  rewrite map_map.
  rewrite (map_ext _ store.p_id) by (intros p; apply livePod_ID).
  apply NoDup_map_filter.
  destruct Hwf as (_ & _ & _ & _ & _ & (_ & Hnd & _) & _). exact Hnd.
Qed.

(** After scenario S1, with samples of its pod in the window. *)
Lemma live_view_ordered_witness :
  exists pods,
    api.handleLiveMetrics busy_server get_all (gotime.Unix 1001)
      (gotime.Unix 1001) syncer.quiet
    = api.OK (api.mkLive (gotime.ToUnix (gotime.Unix 1001)) pods)
    /\ map api.ID pods = [1].
Proof.
  destruct (live_view_ordered busy_server get_all (gotime.Unix 1001)
              (gotime.Unix 1001) syncer.quiet)
    as (pods & Hresp & _);
    [apply s1_coherent | apply s1_fk_ok | reflexivity | reflexivity|].
  exists pods. split; [exact Hresp|].
  assert (Hb : api.OK busy_body
               = api.OK (api.mkLive (gotime.ToUnix (gotime.Unix 1001)) pods)).
  { rewrite <- Hresp. vm_compute. reflexivity. }
  injection Hb as <-. vm_compute. reflexivity.
Defined.

(** X14. The containers of a live pod are a summary of the window: in
    every 200 response, a pod has one container, named default, when the
    window holds a sample of its id, not older than the cutoff, of type
    cpu_ms, mem_mb or mem_limit_mb, and none otherwise; each of the three
    values is that of the last such sample of its type in the window, or
    0 when there is none. *)
Theorem live_containers_latest (s : api.Server) (r : api.Request)
    (now later : gotime.Time) (e : store.Env)
    (body : api.LiveMetricsResponse) (lp : api.LivePod) :
  api.handleLiveMetrics s r now later e = api.OK body ->
  In lp (api.Pods body) ->
  api.Containers lp
  = container_summary (api.ID lp) (gotime.Add now (-5 * gotime.Second))
      (buffer.ReadAll (api.ring s)).
Proof.
  unfold api.handleLiveMetrics. intros Hresp Hin.
  destruct (negb _); [discriminate|].
  destruct (_ =? 0).
  - injection Hresp as <-. destruct Hin.
  - destruct (api.queryPods _ _ _) as [rows|]; [|discriminate].
    injection Hresp as <-. cbn in Hin.
    apply in_map_iff in Hin as (x & <- & _). apply livePod_Containers.
Qed.

(** Of two CPU samples the later one is shown, beside the memory. *)
Lemma live_containers_latest_witness :
  List.Forall
    (fun lp => api.Containers lp
               = [api.mkContainerInfo "default" (S754_finite false 9 0)
                    (S754_finite false 7 0) float64_zero])
    (api.Pods busy_body)
  /\ api.Pods busy_body <> [].
Proof.
  split; [|vm_compute; discriminate].
  apply List.Forall_forall. intros lp Hin.
  rewrite (live_containers_latest busy_server get_all (gotime.Unix 1001)
             (gotime.Unix 1001) syncer.quiet busy_body lp);
    [|vm_compute; reflexivity | exact Hin].
  vm_compute in Hin. destruct Hin as [<-|[]]. vm_compute. reflexivity.
Defined.

(** ** A pod event when no statement fails *)
Section pod_progress.
Import syncer.

Lemma exec_quiet {A} (stmt : store.Env -> store.DB -> option (A * store.DB))
    w :
  pending w = [] ->
  exec stmt w
  = match stmt quiet (sqlite (self w)) with
    | Some (a, db') => (Some a, mkWorld (set_sqlite db' (self w)) [])
    | None => (None, w)
    end.
Proof.
  intros Hp. unfold exec, mbind, M_bind, next_env, gets. rewrite Hp.
  destruct (stmt quiet (sqlite (self w))) as [[a db']|]; cbn;
    [rewrite Hp|]; reflexivity.
Qed.

Lemma query_quiet {A} (q : store.Env -> store.DB -> option A) w :
  pending w = [] -> query q w = (q quiet (sqlite (self w)), w).
Proof.
  intros Hp. unfold query, mbind, M_bind, next_env, gets. rewrite Hp.
  reflexivity.
Qed.

Lemma upsert_succeeds {R} conflict update new (id_of : R -> Z) t :
  store.seq t < max_int64 ->
  exists id t', store.upsert conflict update new id_of t = Some (id, t').
Proof.
  intros Hseq. unfold store.upsert.
  destruct (Z.leb_spec max_int64 (store.seq t)); [lia|]. cbv zeta.
  destruct (find conflict (store.rows t)); eauto.
Qed.

Lemma getNamespaceID_quiet name w :
  coherent (self w) -> pending w = [] ->
  store.seq (store.namespaces (sqlite (self w))) < max_int64 ->
  exists id w',
    getNamespaceID name w = (id, w')
    /\ coherent (self w') /\ pending w' = []
    /\ namespace_id name (sqlite (self w')) = Some id
    /\ store.nodes (sqlite (self w')) = store.nodes (sqlite (self w))
    /\ store.pods (sqlite (self w')) = store.pods (sqlite (self w)).
Proof.
  intros Hcoh Hp Hseq.
  pose proof (getNamespaceID_coherent name w Hcoh) as Hcoh'.
  revert Hcoh'. unfold getNamespaceID, mbind, M_bind, gets.
  destruct (namespaces (self w) !! name) as [id|] eqn:Hc.
  - intros _. exists id, w. split; [reflexivity|]. split; [exact Hcoh|].
    split; [exact Hp|]. split; [|split; reflexivity].
    destruct Hcoh as [_ (_ & _ & Hns & _)]. apply Hns, Hc.
  - rewrite (exec_quiet _ w Hp).
    destruct (upsert_succeeds
                (fun r => String.eqb (store.ns_name r) name) (fun r => r)
                (fun id => store.mkNamespaceRow id name) store.ns_id
                (store.namespaces (sqlite (self w))) Hseq) as (id & t & Hup).
    assert (Hst : store.UpsertNamespace quiet name (sqlite (self w))
                  = Some (id, store.mkDB t (store.nodes (sqlite (self w)))
                                (store.deployments (sqlite (self w)))
                                (store.statefulsets (sqlite (self w)))
                                (store.daemonsets (sqlite (self w)))
                                (store.pods (sqlite (self w)))
                                (store.pvcs (sqlite (self w))))).
    { unfold store.UpsertNamespace. cbn [store.fault quiet]. rewrite Hup.
      reflexivity. }
    rewrite Hst. cbn. intros Hcoh'. eexists _, _.
    split; [reflexivity|]. cbn. split; [exact Hcoh'|].
    split; [reflexivity|]. split; [|split; reflexivity].
    eapply namespace_id_after. exact Hst.
Qed.

Lemma getNodeID_quiet name w :
  coherent (self w) -> pending w = [] ->
  store.seq (store.nodes (sqlite (self w))) < max_int64 ->
  exists id w',
    getNodeID name "" w = (id, w')
    /\ coherent (self w') /\ pending w' = []
    /\ store.references store.n_id (store.nodes (sqlite (self w'))) id = true
    /\ store.namespaces (sqlite (self w'))
       = store.namespaces (sqlite (self w))
    /\ store.pods (sqlite (self w')) = store.pods (sqlite (self w)).
Proof.
  intros Hcoh Hp Hseq.
  pose proof (getNodeID_coherent name "" w Hcoh) as Hcoh'.
  revert Hcoh'. unfold getNodeID, nodes_read, nodes_fill, mbind, M_bind, gets.
  destruct (nodes (self w) !! name) as [id|] eqn:Hc.
  - intros _. exists id, w. split; [reflexivity|]. split; [exact Hcoh|].
    split; [exact Hp|]. split; [|split; reflexivity].
    destruct Hcoh as [_ (_ & _ & _ & Hn & _)]. eapply Hn, Hc.
  - rewrite (exec_quiet _ w Hp). cbn [String.eqb].
    set (uid := ("stub-" ++ name)%string).
    destruct (upsert_succeeds
                (fun r => String.eqb (store.n_uid r) uid)
                (fun r => store.mkNodeRow (store.n_id r) (store.n_uid r) name
                            (store.current_timestamp quiet))
                (fun id => store.mkNodeRow id uid name
                             (store.current_timestamp quiet)) store.n_id
                (store.nodes (sqlite (self w))) Hseq) as (id & t & Hup).
    assert (Hst : store.UpsertNode quiet uid name (sqlite (self w))
                  = Some (id, store.mkDB (store.namespaces (sqlite (self w)))
                                t
                                (store.deployments (sqlite (self w)))
                                (store.statefulsets (sqlite (self w)))
                                (store.daemonsets (sqlite (self w)))
                                (store.pods (sqlite (self w)))
                                (store.pvcs (sqlite (self w))))).
    { unfold store.UpsertNode. cbn [store.fault quiet]. rewrite Hup.
      reflexivity. }
    pose proof (lookup_nodes_references quiet _ _ _
                  (lookup_after_aux (store.Node uid name) _ _ _ _ quiet
                     "nodes" uid Hst eq_refl eq_refl)) as Href.
    cbn [store.nodes] in Href.
    rewrite Hst. cbn. intros Hcoh'. eexists _, _.
    split; [reflexivity|]. cbn. split; [exact Hcoh'|].
    split; [reflexivity|]. split; [exact Href|split; reflexivity].
Qed.

Lemma syncPod_owners_quiet os l w :
  coherent (self w) -> pending w = [] -> links_ok (sqlite (self w)) l ->
  exists l', syncPod_owners os l w = (l', w)
             /\ links_ok (sqlite (self w)) l'.
Proof.
  intros Hcoh Hp. revert l. induction os as [|o os IH]; intros l Hl.
  - exists l. split; [reflexivity | exact Hl].
  - destruct l as [[dep sts] ds]. cbn [syncPod_owners].
    destruct Hl as (Hdep & Hsts & Hds).
    destruct (String.eqb (Kind o) "StatefulSet");
      [|destruct (String.eqb (Kind o) "DaemonSet");
        [|destruct (String.eqb (Kind o) "ReplicaSet")]].
    + unfold mbind, M_bind. rewrite (query_quiet _ w Hp). apply IH.
      split; [|split]; auto.
      destruct (store.GetResourceID quiet "statefulsets" _ _) as [i|] eqn:Hq;
        [|exact Hsts].
      unfold store.GetResourceID in Hq. cbn in Hq.
      eapply find_references. exact Hq.
    + unfold mbind, M_bind. rewrite (query_quiet _ w Hp). apply IH.
      split; [|split]; auto.
      destruct (store.GetResourceID quiet "daemonsets" _ _) as [i|] eqn:Hq;
        [|exact Hds].
      unfold store.GetResourceID in Hq. cbn in Hq.
      eapply find_references. exact Hq.
    + unfold mbind, M_bind, gets. apply IH. split; [|split]; auto.
      destruct (replicaSets (self w) !! owner_UID o) as [i|] eqn:Hc;
        [|exact Hdep].
      destruct Hcoh as [_ (_ & _ & _ & _ & Hrs)]. eapply Hrs, Hc.
    + apply IH. split; [|split]; auto.
Qed.

End pod_progress.

Section pod_success.
Import syncer.

Lemma UpsertPod_quiet uid name nsID nodeID l db :
  store.references store.ns_id (store.namespaces db) nsID = true ->
  store.references store.n_id (store.nodes db) nodeID = true ->
  links_ok db l -> store.seq (store.pods db) < max_int64 ->
  let '(dep, sts, ds) := l in
  exists id db',
    store.UpsertPod quiet uid name nsID nodeID dep sts ds db = Some (id, db').
Proof.
  destruct l as [[dep sts] ds]. intros Hns Hn (Hdep & Hsts & Hds) Hseq.
  unfold store.UpsertPod. cbn [store.fault quiet].
  rewrite Hns, Hn, Hdep, Hsts, Hds. cbn [andb negb].
  destruct (upsert_succeeds
              (fun r => String.eqb (store.p_uid r) uid)
              (fun r => store.mkPodRow (store.p_id r) (store.p_uid r) name
                          nsID nodeID dep sts ds
                          (store.current_timestamp quiet))
              (fun id => store.mkPodRow id uid name nsID nodeID dep sts ds
                           (store.current_timestamp quiet))
              store.p_id (store.pods db) Hseq) as (id & t & ->).
  eauto.
Qed.

End pod_success.

(** X15. A pod event succeeds when nothing fails: for a coherent
    syncer whose statements all succeed and whose namespaces, nodes and
    pods tables have ids left, the event of a scheduled pod leaves a row
    under the pod's uid with the pod's name, in the namespace of the
    pod's name and on an existing node, and from then on the resolver
    answers the pod's uid with the positive id of that row. *)
Theorem scheduled_pod_is_resolved (w : syncer.World) (pod : syncer.Pod) :
  coherent (syncer.self w) -> syncer.pending w = [] ->
  roomy (syncer.sqlite (syncer.self w)) ->
  syncer.pod_NodeName pod <> "" ->
  let s' := syncer.self (snd (syncer.syncPod pod w)) in
  let db' := syncer.sqlite s' in
  exists r,
    find (fun r => String.eqb (store.p_uid r) (syncer.pod_UID pod))
         (store.rows (store.pods db')) = Some r
    /\ store.p_name r = syncer.pod_Name pod
    /\ namespace_id (syncer.pod_Namespace pod) db'
       = Some (store.p_namespace_id r)
    /\ store.references store.n_id (store.nodes db') (store.p_node_id r)
       = true
    /\ 0 < store.p_id r
    /\ ingest.GetResourceID s' (syncer.pod_UID pod) "pod"
       = (store.p_id r, true).
Proof.
  intros Hcoh Hp (Hsns & Hsn & Hsp) Hsched s' db'. subst db' s'.
  rewrite syncPod_unfold.
  destruct (getNamespaceID_quiet (syncer.pod_Namespace pod) w Hcoh Hp Hsns)
    as (nsID & wa & -> & Hca & Hpa & Hnsa & Hna & Hpoda).
  assert (Hnspos : 0 < nsID).
  { destruct Hca as [(Wns & _) _].
    eapply (find_positive store.ns_id store.ns_name); [exact Wns|].
    exact Hnsa. }
  destruct (Z.eqb_spec nsID 0) as [|_]; [lia|].
  destruct (String.eqb_spec (syncer.pod_NodeName pod) "") as [|_];
    [contradiction|]. cbn [negb].
  rewrite <- Hna in Hsn.
  destruct (getNodeID_quiet (syncer.pod_NodeName pod) wa Hca Hpa Hsn)
    as (nodeID & wb & -> & Hcb & Hpb & Hnb & Hnsb & Hpodb).
  assert (Hnodepos : 0 < nodeID).
  { destruct Hcb as [(_ & (_ & _ & Hrange & _) & _) _].
    unfold store.references in Hnb. apply existsb_exists in Hnb
      as (n & Hin & Hid). apply Z.eqb_eq in Hid. subst nodeID.
    apply (proj1 (List.Forall_forall _ _) Hrange n Hin). }
  destruct (Z.eqb_spec nodeID 0) as [|_]; [lia|].
  assert (Hnsb' : namespace_id (syncer.pod_Namespace pod)
                    (syncer.sqlite (syncer.self wb)) = Some nsID).
  { unfold namespace_id in *. rewrite Hnsb. exact Hnsa. }
  unfold syncer.syncPod_upsert, mbind, syncer.M_bind.
  destruct (syncPod_owners_quiet (syncer.pod_OwnerReferences pod)
              (None, None, None) wb Hcb Hpb) as (l & -> & Hl);
    [repeat split|].
  pose proof (UpsertPod_quiet (syncer.pod_UID pod) (syncer.pod_Name pod)
                nsID nodeID l (syncer.sqlite (syncer.self wb))) as Hup.
  destruct l as [[dep sts] ds].
  destruct Hup as (id & db' & Hst); auto.
  { apply find_references with (P := fun r =>
      String.eqb (store.ns_name r) (syncer.pod_Namespace pod)).
    exact Hnsb'. }
  { rewrite Hpodb, Hpoda. exact Hsp. }
  rewrite (exec_quiet _ wb Hpb), Hst. cbn.
  destruct Hcb as [Hwf _].
  destruct (run_kept (store.Pod (syncer.pod_UID pod) (syncer.pod_Name pod)
                        nsID nodeID dep sts ds) syncer.quiet _ _ _ Hst Hwf)
    as (_ & _ & Hidpos & _).
  pose proof (UpsertPod_frame _ _ _ _ _ _ _ _ _ _ _ Hst) as [Hfn Hfns].
  eexists. split; [eapply UpsertPod_row; exact Hst|]. cbn.
  split; [reflexivity|]. split.
  { unfold namespace_id in *. rewrite Hfns. exact Hnsb'. }
  split; [rewrite Hfn; exact Hnb|]. split; [exact Hidpos|].
  unfold ingest.GetResourceID, ingest.syncer_IDResolver,
    syncer.GetResourceID. cbn. rewrite lookup_insert_eq. reflexivity.
Qed.

(** The pod of scenario S1, on empty stores. *)
Lemma scheduled_pod_is_resolved_witness :
  ingest.GetResourceID
    (syncer.self (snd (syncer.syncPod demo_pod (world0 [])))) "p-1" "pod"
  = (1, true).
Proof.
  destruct (scheduled_pod_is_resolved (world0 []) demo_pod)
    as (r & Hfind & _ & _ & _ & _ & Hres).
  - apply coherent_new, empty_db_wf.
  - reflexivity.
  - vm_compute. auto.
  - discriminate.
  - vm_compute in Hfind. injection Hfind as <-. exact Hres.
Defined.
